(** * Floating-point error of sin(x)/x against its truncated Taylor series

    A shallow embedding of the notebook
    [floating-point-error-for-combined-functions.ipynb]: the series builder
    (cell 1), the reference evaluator (cell 2), the comparator (cells 3, 4)
    and the visualizer (cell 6), with the facts the specification states
    about them.

    Numbers are modelled as the code has them:
    - Python [int] is [Z];
    - Python [float] / [np.float64] is IEEE 754 binary64, taken from the
      Standard Library's executable specification [SpecFloat] at
      [prec = 53], [emax = 1024];
    - [mpmath.mpf] is a sign, an odd mantissa and a binary exponent (or a
      special value), every arithmetic result being the exact result rounded
      to the working precision, ties to even.
    The transcendental primitives of the libraries ([np.sin], [np.power],
    [mp.sin]) are not computed here; the pipeline takes them as arguments. *)

From Stdlib Require Import ZArith List Bool Lia QArith Qabs Permutation.
From Stdlib Require Import Floats.SpecFloat.
Import ListNotations.

Local Open Scope Z_scope.

(** ** Python exceptions and the error monad *)

Inductive exn : Type :=
| ValueError
| ZeroDivisionError
| OverflowError
| IndexError
| NameError.

Inductive result (A : Type) : Type :=
| Ok (a : A)
| Raise (e : exn).

Arguments Ok {A} a.
Arguments Raise {A} e.

Definition rbind {A B : Type} (c : result A) (k : A -> result B) : result B :=
  match c with
  | Ok a => k a
  | Raise e => Raise e
  end.

Declare Scope py_scope.
Delimit Scope py_scope with py.
Notation "x <- c ;; k" := (rbind c (fun x => k))
  (at level 61, c at next level, right associativity) : py_scope.

(** [[f(x) for x in xs]] where [f] may raise: the first exception wins. *)
Fixpoint rmap {A B : Type} (f : A -> result B) (xs : list A) : result (list B) :=
  match xs with
  | [] => Ok []
  | x :: tl =>
      (y <- f x ;;
       ys <- rmap f tl ;;
       Ok (y :: ys))%py
  end.

(** ** Python built-ins used by the series builder *)

(** [range(lo, hi)] *)
Definition range (lo hi : Z) : list Z :=
  map (fun k => lo + Z.of_nat k) (seq 0 (Z.to_nat (hi - lo))).

(** [[v] * n]: an empty list when [n <= 0]. *)
Definition list_mul {A : Type} (v : A) (n : Z) : list A :=
  repeat v (Z.to_nat n).

Fixpoint fact_nat (n : nat) : Z :=
  match n with
  | O => 1
  | S m => Z.of_nat n * fact_nat m
  end.

(** [math.factorial(n)]: [ValueError] on a negative argument. *)
Definition factorial (n : Z) : result Z :=
  if n <? 0 then Raise ValueError else Ok (fact_nat (Z.to_nat n)).

(** [lst[::2] = vals]: an extended slice; the right-hand side must have
    exactly as many elements as the slice selects, else [ValueError]. *)
Fixpoint set_even {A : Type} (lst vals : list A) : list A :=
  match lst, vals with
  | a :: b :: tl, v :: vs => v :: b :: set_even tl vs
  | [a], v :: vs => [v]
  | _, _ => lst
  end.

Definition setitem_step2 {A : Type} (lst vals : list A) : result (list A) :=
  if Nat.eqb (length vals) (Nat.div2 (S (length lst)))
  then Ok (set_even lst vals)
  else Raise ValueError.

(** [lst[start::-1]]: from index [start] (clipped to the list) down to
    index 0.  A negative [start] counts from the end. *)
Definition getitem_down {A : Type} (lst : list A) (start : Z) : list A :=
  let len := Z.of_nat (length lst) in
  let start := if start <? 0 then Z.max (start + len) (-1) else Z.min start (len - 1) in
  rev (firstn (Z.to_nat (start + 1)) lst).

(** ** Signed dyadic numbers

    Both kinds of floating-point number carry a sign bit, a mantissa and a
    binary exponent; [dyadic m e] is the rational [m * 2^e]. *)

Definition signed (sign : bool) (man : Z) : Z := if sign then - man else man.

Definition dyadic (m e : Z) : Q :=
  match e with
  | Zneg p => Qmake m (2 ^ p)
  | _ => inject_Z (m * 2 ^ e)
  end.

(** ** binary64 *)

Module F64.

Definition prec : Z := 53.
Definition emax : Z := 1024.

Definition float : Type := spec_float.

Definition zero : float := S754_zero false.
Definition one : float := S754_finite false 4503599627370496 (-52).

Definition add : float -> float -> float := SFadd prec emax.
Definition sub : float -> float -> float := SFsub prec emax.
Definition mul : float -> float -> float := SFmul prec emax.
Definition div : float -> float -> float := SFdiv prec emax.
Definition abs : float -> float := SFabs.
Definition eqb : float -> float -> bool := SFeqb.
Definition ltb : float -> float -> bool := SFltb.
Definition leb : float -> float -> bool := SFleb.

Definition is_nan (x : float) : bool :=
  match x with S754_nan => true | _ => false end.

Definition is_inf (x : float) : bool :=
  match x with S754_infinity _ => true | _ => false end.

(** A Python [int] as an unrounded significand with exponent 0. *)
Definition of_int (z : Z) : float :=
  match z with
  | Z0 => S754_zero false
  | Zpos p => S754_finite false p 0
  | Zneg p => S754_finite true p 0
  end.

(** The integer [z] rounded to the nearest binary64. *)
Definition of_Z (z : Z) : float := binary_normalize prec emax z 0 false.

(** The rational value of a finite float (0 for the special values). *)
Definition to_Q (x : float) : Q :=
  match x with
  | S754_finite s m e => dyadic (signed s (Zpos m)) e
  | _ => 0%Q
  end.

End F64.

(** [a / b] on Python ints: the correctly rounded quotient (CPython's
    [long_true_divide]), [ZeroDivisionError] for [b = 0], [OverflowError]
    when the quotient is too large for a float. *)
Definition int_true_divide (a b : Z) : result F64.float :=
  if b =? 0 then Raise ZeroDivisionError
  else
    let q := F64.div (F64.of_int a) (F64.of_int b) in
    if F64.is_inf q then Raise OverflowError else Ok q.

(** ** numpy polynomials *)

(** [np.trim_zeros(filt, 'f')]: drop the leading elements equal to zero. *)
Fixpoint trim_zeros (c : list F64.float) : list F64.float :=
  match c with
  | [] => []
  | x :: tl => if F64.eqb x F64.zero then trim_zeros tl else c
  end.

Record poly1d : Type := Poly1d { coeffs : list F64.float }.

(** [np.poly1d(c)]: leading zeros are trimmed; the zero polynomial keeps
    one coefficient. *)
Definition np_poly1d (c : list F64.float) : poly1d :=
  match trim_zeros c with
  | [] => Poly1d [F64.zero]
  | t => Poly1d t
  end.

(** [p.order] *)
Definition poly_order (p : poly1d) : Z := Z.of_nat (length (coeffs p)) - 1.

(** [p[k]]: the coefficient of [x**k]; zero outside [0 .. p.order]. *)
Definition poly_getitem (p : poly1d) (k : Z) : F64.float :=
  if (poly_order p <? k) || (k <? 0) then F64.zero
  else nth (Z.to_nat (poly_order p - k)) (coeffs p) F64.zero.

(** [np.polyval(p, x)] at one point: Horner's scheme from [y = 0]. *)
Definition polyval (c : list F64.float) (x : F64.float) : F64.float :=
  fold_left (fun y pv => F64.add (F64.mul y x) pv) c F64.zero.

(** [p(x)] on an array *)
Definition poly_call (p : poly1d) (xs : list F64.float) : list F64.float :=
  map (polyval (coeffs p)) xs.

(** ** Cell 1: the series builder

<<
N = 8
series_coef = [0.] * (2*N - 1)
series_coef[::2] = [(-1)**i / factorial(2*i + 1) for i in range(N)]
series = [np.poly1d(series_coef[2*i::-1]) for i in range(1, N)]
>> *)

Definition N : Z := 8.

Definition taylor_coef (i : Z) : result F64.float :=
  (f <- factorial (2 * i + 1) ;;
   int_true_divide ((-1) ^ i) f)%py.

Definition series_coef (n : Z) : result (list F64.float) :=
  (vals <- rmap taylor_coef (range 0 n) ;;
   setitem_step2 (list_mul F64.zero (2 * n - 1)) vals)%py.

Definition series (n : Z) : result (list poly1d) :=
  (sc <- series_coef n ;;
   Ok (map (fun i => np_poly1d (getitem_down sc (2 * i))) (range 1 n)))%py.


(** ** numpy arrays of floats *)

(** [np.arange(0, num)] with a float dtype *)
Definition arange (num : Z) : list F64.float := map F64.of_Z (range 0 num).

Fixpoint set_last {A : Type} (l : list A) (v : A) : list A :=
  match l with
  | [] => []
  | [_] => [v]
  | a :: tl => a :: set_last tl v
  end.

(** [np.linspace(start, stop, num)], [endpoint=True]: the grid is
    [arange(num) * step + start] with [step = (stop - start) / (num - 1)],
    and the last point is overwritten by [stop]. *)
Definition linspace (start stop : F64.float) (num : Z) : result (list F64.float) :=
  if num <? 0 then Raise ValueError
  else
    let div := num - 1 in
    let delta := F64.sub stop start in
    let y := arange num in
    let y :=
      if 0 <? div then
        let step := F64.div delta (F64.of_Z div) in
        if F64.eqb step F64.zero
        then map (fun v => F64.mul (F64.div v (F64.of_Z div)) delta) y
        else map (fun v => F64.mul v step) y
      else map (fun v => F64.mul v delta) y in
    let y := map (fun v => F64.add v start) y in
    Ok (if 1 <? num then set_last y stop else y).

(** [a[mask]] for a boolean mask of the same length *)
Definition mask_select {A : Type} (mask : list bool) (a : list A) : list A :=
  map snd (filter fst (combine mask a)).

(** [np.minimum] and [np.maximum] on two floats: a NaN on the left wins,
    a NaN on the right fails the comparison and is returned. *)
Definition np_minimum (a b : F64.float) : F64.float :=
  if F64.leb a b || F64.is_nan a then a else b.

Definition np_maximum (a b : F64.float) : F64.float :=
  if F64.leb b a || F64.is_nan a then a else b.

(** [a.min()], [a.max()]: a reduction without identity; [ValueError] on an
    empty array. *)
Definition np_min (a : list F64.float) : result F64.float :=
  match a with
  | [] => Raise ValueError
  | x :: tl => Ok (fold_left np_minimum tl x)
  end.

Definition np_max (a : list F64.float) : result F64.float :=
  match a with
  | [] => Raise ValueError
  | x :: tl => Ok (fold_left np_maximum tl x)
  end.

(** ** mpmath: arbitrary-precision binary floating point *)

Module Mpf.

(** A raw [mpf] is the tuple [(sign, man, exp, bc)]; [bc] is the bit count
    of [man] and is not stored here.  [fzero], [finf], [fninf] and [fnan]
    are the tuples with [man = 0].  The rounding mode is the context's
    default, round to nearest, and a working precision is at least one bit,
    as the setters of the context enforce. *)
Inductive mpf : Type :=
| fzero
| finf
| fninf
| fnan
| fin (sign : bool) (man : positive) (exp : Z).

Definition is_nan (s : mpf) : bool :=
  match s with fnan => true | _ => false end.

Definition eqb (s t : mpf) : bool :=
  match s, t with
  | fzero, fzero | finf, finf | fninf, fninf | fnan, fnan => true
  | fin ss sm se, fin ts tm te => Bool.eqb ss ts && Pos.eqb sm tm && Z.eqb se te
  | _, _ => false
  end.

Definition bitcount (man : Z) : Z := Zdigits2 man.

Fixpoint strip_zeros (p : positive) : positive * Z :=
  match p with
  | xO q => let '(m, t) := strip_zeros q in (m, t + 1)
  | _ => (p, 0)
  end.

(** [normalize(sign, man, exp, bc, prec, round_nearest)]: cut the mantissa
    to [prec] bits, ties to even, then strip the trailing zero bits. *)
Definition normalize (sign : bool) (man exp prec : Z) : mpf :=
  let n := bitcount man - prec in
  let '(man, exp) :=
    if 0 <? n then
      let t := Z.shiftr man (n - 1) in
      if Z.odd t && (Z.testbit t 1 || negb (Z.land man (Z.ones (n - 1)) =? 0))
      then (Z.shiftr t 1 + 1, exp + n)
      else (Z.shiftr t 1, exp + n)
    else (man, exp) in
  match man with
  | Zpos p => let '(m, t) := strip_zeros p in fin sign m (exp + t)
  | _ => fzero
  end.

Definition mpf_neg (s : mpf) : mpf :=
  match s with
  | finf => fninf
  | fninf => finf
  | fin sign man exp => fin (negb sign) man exp
  | _ => s
  end.

Definition mpf_pos (s : mpf) (prec : Z) : mpf :=
  match s with
  | fin sign man exp => normalize sign (Zpos man) exp prec
  | _ => s
  end.

Definition mpf_abs (s : mpf) (prec : Z) : mpf :=
  match s with
  | fninf => finf
  | fin sign man exp => normalize false (Zpos man) exp prec
  | _ => s
  end.

(** [from_float(x)]: exact. *)
Definition from_float (x : F64.float) : mpf :=
  match x with
  | S754_zero _ => fzero
  | S754_infinity false => finf
  | S754_infinity true => fninf
  | S754_nan => fnan
  | S754_finite s m e => normalize s (Zpos m) e 53
  end.

(** The rational value of a regular number (0 for zero and for the special
    values). *)
Definition value (s : mpf) : Q :=
  match s with
  | fin sign man exp => dyadic (signed sign (Zpos man)) exp
  | _ => 0%Q
  end.

Definition is_finite (s : mpf) : bool :=
  match s with fzero | fin _ _ _ => true | _ => false end.

(** The invariant of every tuple mpmath builds: a regular number has an
    odd mantissa. *)
Definition is_normal (s : mpf) : bool :=
  match s with
  | fin _ (xO _) _ => false
  | _ => true
  end.

(** [mpf_add(s, t, prec, round_nearest)]: on two regular numbers, the exact
    sum at the smaller exponent, normalized to [prec] bits. *)
Definition mpf_add (s t : mpf) (prec : Z) : mpf :=
  match s, t with
  | fin ss sm se, fin ts tm te =>
      let e := Z.min se te in
      let man := signed ss (Z.shiftl (Zpos sm) (se - e))
                 + signed ts (Z.shiftl (Zpos tm) (te - e)) in
      normalize (man <? 0) (Z.abs man) e prec
  | fin ss sm se, fzero => normalize ss (Zpos sm) se prec
  | fin _ _ _, _ => t
  | fzero, fin ts tm te => normalize ts (Zpos tm) te prec
  | fzero, _ => t
  | _, fin _ _ _ | _, fzero => s
  | _, _ => if eqb s t then s else fnan
  end.

Definition mpf_sub (s t : mpf) (prec : Z) : mpf := mpf_add s (mpf_neg t) prec.

Definition mpf_sign (s : mpf) : Z :=
  match s with
  | fzero | fnan => 0
  | finf => 1
  | fninf => -1
  | fin sign _ _ => if sign then -1 else 1
  end.

(** [mpf_cmp(s, t)]: -1, 0 or 1.  Zero is returned only for identical
    tuples; two regular numbers with different exponents are compared by
    the sign of their exact difference. *)
Definition mpf_cmp (s t : mpf) : Z :=
  match s, t with
  | fzero, _ => - mpf_sign t
  | _, fzero => mpf_sign s
  | fin ss sm se, fin ts tm te =>
      if negb (Bool.eqb ss ts) then (if ss then -1 else 1)
      else if se =? te then
        if Pos.eqb sm tm then 0
        else if (Zpos tm <? Zpos sm) then (if ss then -1 else 1)
        else (if ss then 1 else -1)
      else
        let e := Z.min se te in
        let delta := signed ss (Z.shiftl (Zpos sm) (se - e))
                     - signed ts (Z.shiftl (Zpos tm) (te - e)) in
        if delta <? 0 then -1 else 1
  | _, _ =>
      if eqb s t then 0
      else match s, t with
           | _, fnan => 1
           | finf, _ => 1
           | _, fninf => 1
           | _, _ => -1
           end
  end.

Definition mpf_eq (s t : mpf) : bool :=
  if is_nan s || is_nan t then false else eqb s t.

Definition mpf_lt (s t : mpf) : bool :=
  if is_nan s || is_nan t then false else mpf_cmp s t <? 0.

Definition mpf_gt (s t : mpf) : bool :=
  if is_nan s || is_nan t then false else 0 <? mpf_cmp s t.

(** [mpf_div(s, t, prec, round_nearest)] *)
Definition mpf_div (s t : mpf) (prec : Z) : result mpf :=
  match s, t with
  | fin ss sm se, fin ts tm te =>
      let sign := xorb ss ts in
      if Pos.eqb tm 1 then Ok (normalize sign (Zpos sm) (se - te) prec)
      else
        let extra := Z.max 5 (prec - bitcount (Zpos sm) + bitcount (Zpos tm) + 5) in
        let '(quot, rem) := Z.div_eucl (Z.shiftl (Zpos sm) extra) (Zpos tm) in
        if rem =? 0 then Ok (normalize sign quot (se - te - extra) prec)
        else Ok (normalize sign (Z.shiftl quot 1 + 1) (se - te - (extra + 1)) prec)
  | _, fzero => Raise ZeroDivisionError
  | fzero, fnan => Ok fnan
  | fzero, _ => Ok fzero
  | fnan, _ | _, fnan => Ok fnan
  | fin _ _ _, _ => Ok fzero
  | _, fin ts _ _ => Ok (if Z.eqb (mpf_sign s * (if ts then -1 else 1)) 1 then finf else fninf)
  | _, _ => Ok fnan
  end.

(** [to_float(s, rnd=round_nearest)]: round to 53 bits, then [math.ldexp];
    overflow gives an infinity, underflow a subnormal or a zero. *)
Definition to_float (s : mpf) : F64.float :=
  match s with
  | fzero => S754_zero false
  | finf => S754_infinity false
  | fninf => S754_infinity true
  | fnan => S754_nan
  | fin sign man exp =>
      match normalize sign (Zpos man) exp 53 with
      | fin sign' man' exp' => binary_normalize F64.prec F64.emax (signed sign' (Zpos man')) exp' false
      | _ => S754_zero false
      end
  end.

(** Python's [round(x)] of a float to an int, ties to even; used by
    [dps_to_prec]. *)
Definition py_round (x : F64.float) : Z :=
  match x with
  | S754_finite s m e =>
      let r :=
        match e with
        | Zneg p =>
            let d := 2 ^ Zpos p in
            let q := Zpos m / d in
            let rem := Zpos m mod d in
            match (2 * rem ?= d) with
            | Lt => q
            | Gt => q + 1
            | Eq => if Z.even q then q else q + 1
            end
        | _ => Zpos m * 2 ^ e
        end in
      signed s r
  | _ => 0
  end.

(** [dps_to_prec(n) = max(1, int(round((int(n)+1)*3.3219280948873626)))] *)
Definition dps_to_prec (n : Z) : Z :=
  Z.max 1 (py_round (F64.mul (F64.of_Z (n + 1)) (S754_finite false 7480317065143154 (-51)))).

End Mpf.

(** ** The library primitives that are taken as given

    [np_sin] is [np.sin] on one binary64, [np_power] is [np.power], and
    [mp_sin prec x] is [mp.sin(x)] at a working precision of [prec] bits. *)

Record libm : Type := Libm {
  np_sin : F64.float -> F64.float;
  np_power : F64.float -> F64.float -> F64.float;
  mp_sin : Z -> Mpf.mpf -> Mpf.mpf
}.

(** [np.logspace(start, stop, num)]: [np.power(10.0, linspace(...))] *)
Definition logspace (L : libm) (start stop : F64.float) (num : Z)
  : result (list F64.float) :=
  (y <- linspace start stop num ;;
   Ok (map (np_power L (F64.of_Z 10)) y))%py.

(** [x_range = np.logspace(-10, 0, 50)] (cell 1) *)
Definition x_range (L : libm) : result (list F64.float) :=
  logspace L (F64.of_Z (-10)) (F64.of_Z 0) 50.

(** ** Cell 2: the reference evaluator

<<
mp.mp.dps = 1000
ref = [mp.sin(x)/x for z in x_range for x in (mp.mpf(z),)]
>> *)

Definition dps : Z := 1000.

Definition mp_mpf (prec : Z) (z : F64.float) : Mpf.mpf :=
  Mpf.mpf_pos (Mpf.from_float z) prec.

Definition ref (L : libm) (prec : Z) (xs : list F64.float)
  : result (list Mpf.mpf) :=
  rmap (fun z => let x := mp_mpf prec z in Mpf.mpf_div (mp_sin L prec x) x prec) xs.

(** ** Cell 3: the two evaluations at standard precision

<<
x = x_range
r_orig = np.sin(x) / x
r_series = [s(x) for s in series]
>> *)

Definition r_orig (L : libm) (x : list F64.float) : list F64.float :=
  map (fun v => F64.div (np_sin L v) v) x.

Definition r_series (ps : list poly1d) (x : list F64.float)
  : list (list F64.float) :=
  map (fun s => poly_call s x) ps.

(** ** Cell 4: the comparator

<<
err_orig = np.array([abs(a - b) for a, b in zip(r_orig, ref)])
err_series = np.array([[abs(a - b) for a, b in zip(rs, ref)] for rs in r_series])
better = err_orig < err_series
similar = err_orig == err_series
worse = err_orig > err_series
difference = np.abs((err_orig - err_series).astype(float))
pprint([(d[w].min(), d[w].max()) for d, w in zip(difference, worse)])
>>

    [a - b] with [a] a binary64 and [b] an [mpf] converts [a] exactly and
    subtracts at the working precision. *)

Definition abs_error (prec : Z) (a : F64.float) (b : Mpf.mpf) : Mpf.mpf :=
  Mpf.mpf_abs (Mpf.mpf_sub (Mpf.from_float a) b prec) prec.

Definition err_orig (prec : Z) (ro : list F64.float) (rf : list Mpf.mpf) : list Mpf.mpf :=
  map (fun '(a, b) => abs_error prec a b) (combine ro rf).

Definition err_series (prec : Z) (rss : list (list F64.float)) (rf : list Mpf.mpf)
  : list (list Mpf.mpf) :=
  map (fun rs => map (fun '(a, b) => abs_error prec a b) (combine rs rf)) rss.

(** A comparison of the row [err_orig] with every row of [err_series]
    (broadcasting over the first axis of [err_series]). *)
Definition broadcast {B : Type} (op : Mpf.mpf -> Mpf.mpf -> B) (eo : list Mpf.mpf)
  (es : list (list Mpf.mpf)) : list (list B) :=
  map (fun row => map (fun '(a, b) => op a b) (combine eo row)) es.

Definition better := broadcast Mpf.mpf_lt.
Definition similar := broadcast Mpf.mpf_eq.
Definition worse := broadcast Mpf.mpf_gt.

Definition difference (prec : Z) : list Mpf.mpf -> list (list Mpf.mpf) -> list (list F64.float) :=
  broadcast (fun a b => F64.abs (Mpf.to_float (Mpf.mpf_sub a b prec))).

Definition min_max (d : list F64.float) (w : list bool) : result (F64.float * F64.float) :=
  (lo <- np_min (mask_select w d) ;;
   hi <- np_max (mask_select w d) ;;
   Ok (lo, hi))%py.

Definition report (ds : list (list F64.float)) (ws : list (list bool))
  : result (list (F64.float * F64.float)) :=
  rmap (fun '(d, w) => min_max d w) (combine ds ws).

(** ** Cell 5: [sys.float_info.epsilon / 2] *)

Definition epsilon : F64.float := S754_finite false 4503599627370496 (-104).
Definition half_epsilon : F64.float := F64.div epsilon (F64.of_Z 2).

(** ** Cell 6: the visualizer

<<
y_data = [np.repeat(len(s.coef), len(x_range)) for s in series]
for y, b, s, w in zip(y_data, better, similar, worse):
    ax.scatter(x_range[b], y[b], s=50, marker='^', c='#2ca02c')
    ax.scatter(x_range[s], y[s], s=50, marker='o', c='#1f77b4')
    ax.scatter(x_range[w], y[w], s=50, marker='v', c='#d62728')
>> *)

Inductive marker : Type := triangle_up | circle | triangle_down.

Record scatter : Type := Scatter {
  sc_x : list F64.float;
  sc_y : list Z;
  sc_marker : marker
}.

Definition y_data (ps : list poly1d) (xs : list F64.float) : list (list Z) :=
  map (fun s => repeat (Z.of_nat (length (coeffs s))) (length xs)) ps.

Fixpoint plot_rows (xs : list F64.float) (rows : list (list Z))
  (bm sm wm : list (list bool)) : list scatter :=
  match rows, bm, sm, wm with
  | y :: ys, b :: bs, s :: ss, w :: ws =>
      Scatter (mask_select b xs) (mask_select b y) triangle_up
      :: Scatter (mask_select s xs) (mask_select s y) circle
      :: Scatter (mask_select w xs) (mask_select w y) triangle_down
      :: plot_rows xs ys bs ss ws
  | _, _, _, _ => []
  end.

(** [ax.set_yticks([y[0] for y in y_data])]: [IndexError] on an empty row. *)
Definition yticks (rows : list (list Z)) : result (list Z) :=
  rmap (fun y => match y with [] => Raise IndexError | v :: _ => Ok v end) rows.

(** The argument of [ax.set_xlim([x_range.min()/10, x_range.max()*10])]:
    a decade below the smallest sample and a decade above the largest. *)
Definition xlim (xs : list F64.float) : result (F64.float * F64.float) :=
  (lo <- np_min xs ;;
   hi <- np_max xs ;;
   Ok (F64.div lo (F64.of_Z 10), F64.mul hi (F64.of_Z 10)))%py.

(** ** The notebook as a whole

    What outlives a cell is the interpreter's state: the working precision
    of the global [mp.mp] context and the names bound at top level that a
    later cell reads.  Names bound and used inside one cell only appear as
    local definitions of that cell. *)

Record notebook : Type := Notebook {
  mp_prec : Z;
  nb_x_range : option (list F64.float);
  nb_series : option (list poly1d);
  nb_ref : option (list Mpf.mpf);
  nb_r_orig : option (list F64.float);
  nb_r_series : option (list (list F64.float));
  nb_better : option (list (list bool));
  nb_similar : option (list (list bool));
  nb_worse : option (list (list bool))
}.

Definition cell (A : Type) : Type := notebook -> result (A * notebook).

Definition ret {A : Type} (a : A) : cell A := fun st => Ok (a, st).

Definition bind {A B : Type} (c : cell A) (k : A -> cell B) : cell B :=
  fun st =>
    match c st with
    | Ok (a, st') => k a st'
    | Raise e => Raise e
    end.

Declare Scope cell_scope.
Delimit Scope cell_scope with cell.
Notation "x <- c ;; k" := (bind c (fun x => k))
  (at level 61, c at next level, right associativity) : cell_scope.
Notation "c ;; k" := (bind c (fun _ => k))
  (at level 61, right associativity) : cell_scope.

Definition lift {A : Type} (r : result A) : cell A :=
  fun st => match r with Ok a => Ok (a, st) | Raise e => Raise e end.

(** Reading a name: [NameError] when it is not bound. *)
Definition load {A : Type} (field : notebook -> option A) : cell A :=
  fun st => match field st with Some v => Ok (v, st) | None => Raise NameError end.

Definition get_prec : cell Z := fun st => Ok (mp_prec st, st).

Definition set_prec (p : Z) : cell unit := fun st =>
  Ok (tt, Notebook p (nb_x_range st) (nb_series st) (nb_ref st) (nb_r_orig st)
            (nb_r_series st) (nb_better st) (nb_similar st) (nb_worse st)).

Definition store_x_range (v : list F64.float) : cell unit := fun st =>
  Ok (tt, Notebook (mp_prec st) (Some v) (nb_series st) (nb_ref st) (nb_r_orig st)
            (nb_r_series st) (nb_better st) (nb_similar st) (nb_worse st)).

Definition store_series (v : list poly1d) : cell unit := fun st =>
  Ok (tt, Notebook (mp_prec st) (nb_x_range st) (Some v) (nb_ref st) (nb_r_orig st)
            (nb_r_series st) (nb_better st) (nb_similar st) (nb_worse st)).

Definition store_ref (v : list Mpf.mpf) : cell unit := fun st =>
  Ok (tt, Notebook (mp_prec st) (nb_x_range st) (nb_series st) (Some v) (nb_r_orig st)
            (nb_r_series st) (nb_better st) (nb_similar st) (nb_worse st)).

Definition store_r_orig (v : list F64.float) : cell unit := fun st =>
  Ok (tt, Notebook (mp_prec st) (nb_x_range st) (nb_series st) (nb_ref st) (Some v)
            (nb_r_series st) (nb_better st) (nb_similar st) (nb_worse st)).

Definition store_r_series (v : list (list F64.float)) : cell unit := fun st =>
  Ok (tt, Notebook (mp_prec st) (nb_x_range st) (nb_series st) (nb_ref st) (nb_r_orig st)
            (Some v) (nb_better st) (nb_similar st) (nb_worse st)).

Definition store_better (v : list (list bool)) : cell unit := fun st =>
  Ok (tt, Notebook (mp_prec st) (nb_x_range st) (nb_series st) (nb_ref st) (nb_r_orig st)
            (nb_r_series st) (Some v) (nb_similar st) (nb_worse st)).

Definition store_similar (v : list (list bool)) : cell unit := fun st =>
  Ok (tt, Notebook (mp_prec st) (nb_x_range st) (nb_series st) (nb_ref st) (nb_r_orig st)
            (nb_r_series st) (nb_better st) (Some v) (nb_worse st)).

Definition store_worse (v : list (list bool)) : cell unit := fun st =>
  Ok (tt, Notebook (mp_prec st) (nb_x_range st) (nb_series st) (nb_ref st) (nb_r_orig st)
            (nb_r_series st) (nb_better st) (nb_similar st) (Some v)).

(** [mp.mp.dps = n] *)
Definition set_dps (n : Z) : cell unit := set_prec (Mpf.dps_to_prec n).

(** Cell 1; its output is [pprint(series)]. *)
Definition cell1 (L : libm) : cell (list poly1d) :=
  (xr <- lift (x_range L) ;;
   store_x_range xr ;;
   s <- lift (series N) ;;
   store_series s ;;
   ret s)%cell.

(** Cell 2; its output is [print(ref[0])]. *)
Definition cell2 (L : libm) : cell Mpf.mpf :=
  (set_dps dps ;;
   xr <- load nb_x_range ;;
   prec <- get_prec ;;
   r <- lift (ref L prec xr) ;;
   store_ref r ;;
   lift (match r with [] => Raise IndexError | r0 :: _ => Ok r0 end))%cell.

(** Cell 3; no output. *)
Definition cell3 (L : libm) : cell unit :=
  (x <- load nb_x_range ;;
   store_r_orig (r_orig L x) ;;
   s <- load nb_series ;;
   store_r_series (r_series s x))%cell.

(** Cell 4; its output is the list of (min, max) pairs. *)
Definition cell4 : cell (list (F64.float * F64.float)) :=
  (ro <- load nb_r_orig ;;
   rf <- load nb_ref ;;
   prec <- get_prec ;;
   let eo := err_orig prec ro rf in
   rss <- load nb_r_series ;;
   let es := err_series prec rss rf in
   store_better (better eo es) ;;
   store_similar (similar eo es) ;;
   store_worse (worse eo es) ;;
   w <- load nb_worse ;;
   lift (report (difference prec eo es) w))%cell.

(** Cell 5; its output is [sys.float_info.epsilon / 2]. *)
Definition cell5 : cell F64.float := ret half_epsilon.

(** Cell 6; its output is the list of [scatter] calls and the y ticks. *)
Definition cell6 : cell (list scatter * list Z) :=
  (s <- load nb_series ;;
   xr <- load nb_x_range ;;
   let y := y_data s xr in
   b <- load nb_better ;;
   sm <- load nb_similar ;;
   w <- load nb_worse ;;
   t <- lift (yticks y) ;;
   ret (plot_rows xr y b sm w, t))%cell.

Record outputs : Type := Outputs {
  out_series : list poly1d;
  out_ref0 : Mpf.mpf;
  out_pairs : list (F64.float * F64.float);
  out_half_epsilon : F64.float;
  out_plot : list scatter * list Z
}.

(** Running every cell in order. *)
Definition run_all (L : libm) : cell outputs :=
  (o1 <- cell1 L ;;
   o2 <- cell2 L ;;
   cell3 L ;;
   o4 <- cell4 ;;
   o5 <- cell5 ;;
   o6 <- cell6 ;;
   ret (Outputs o1 o2 o4 o5 o6))%cell.


(** ** Auxiliary notions for the statements

    The exponent at which [1 / n] is rounded by the binary64 division: one
    unit in the last place of the quotient is [2 ^ div_exp n]. *)

Definition div_exp (n : positive) : Z := Z.max (-52 - Zpos (digits2_pos n)) (-1074).

(** The Taylor order of a polynomial in [x^2]: half its degree. *)
Definition taylor_order (p : poly1d) : Z := poly_order p / 2.

(** Entry [(j, k)] of a two-dimensional array. *)
Definition entry {A : Type} (m : list (list A)) (j k : nat) : option A :=
  match nth_error m j with
  | Some row => nth_error row k
  | None => None
  end.

(** A key whose lexicographic order is the order [F64.leb] puts on the
    floats that are not NaN: class (sign and kind), exponent, mantissa. *)
Definition fkey (x : F64.float) : Z * Z * Z :=
  match x with
  | S754_infinity true => (-2, 0, 0)
  | S754_finite true m e => (-1, - e, - Zpos m)
  | S754_zero _ => (0, 0, 0)
  | S754_finite false m e => (1, e, Zpos m)
  | S754_infinity false => (2, 0, 0)
  | S754_nan => (3, 0, 0)
  end.

Definition lex_le (a b : Z * Z * Z) : Prop :=
  let '(c1, e1, m1) := a in
  let '(c2, e2, m2) := b in
  c1 < c2 \/ (c1 = c2 /\ (e1 < e2 \/ (e1 = e2 /\ m1 <= m2))).

Definition exactly_one (x y z : bool) : Prop :=
  (x = true /\ y = false /\ z = false) \/
  (x = false /\ y = true /\ z = false) \/
  (x = false /\ y = false /\ z = true).

(** The exact Taylor coefficient of [x^(2i)] in sin(x)/x, and the standard
    model of a correctly rounded binary64 result: a relative error of at
    most the unit roundoff [2^-53], or, in the subnormal range, an absolute
    error of at most half the smallest subnormal, [2^-1075]. *)
Definition exact_coef (i : Z) : Q :=
  Qmake ((-1) ^ i) (Z.to_pos (fact_nat (Z.to_nat (2 * i + 1)))).

Definition unit_roundoff : Q := Qmake 1 (2 ^ 53).

Definition half_subnormal : Q := Qmake 1 (2 ^ 1075).

Definition within_tolerance (c : F64.float) (x : Q) : Prop :=
  (Qabs (F64.to_Q c - x) <= unit_roundoff * Qabs x + half_subnormal)%Q.

(** A stand-in for the library primitives and a fresh interpreter state,
    used to run the whole notebook once by computation. *)
Definition stand_in : libm :=
  Libm (fun _ => F64.zero) (fun _ _ => F64.one) (fun _ x => x).

Definition fresh : notebook := Notebook 53 None None None None None None None None.

(** A float that is a number: a zero or a finite value, neither an
    infinity nor a NaN. *)
Definition is_number (x : F64.float) : bool :=
  match x with
  | S754_zero _ | S754_finite _ _ _ => true
  | _ => false
  end.

(** One step of Horner's scheme at the point [x]. *)
Definition horner_step (x y pv : F64.float) : F64.float := F64.add (F64.mul y x) pv.

(** A number of at most [prec] bits, as every result computed at that
    working precision is. *)
Definition fits (prec : Z) (s : Mpf.mpf) : bool :=
  match s with
  | Mpf.fin _ man _ => Mpf.bitcount (Zpos man) <=? prec
  | _ => true
  end.

(** * Properties *)

(** ** The error monad *)

Lemma rmap_length {A B : Type} (f : A -> result B) (xs : list A) (ys : list B) :
  rmap f xs = Ok ys -> length ys = length xs.
Proof.
  revert ys; induction xs as [|x tl IH]; simpl; intros ys H.
  - now inversion H.
  - destruct (f x) as [y|]; simpl in H; [|discriminate].
    destruct (rmap f tl) as [ys'|]; simpl in H; [|discriminate].
    inversion H; subst; simpl. now rewrite (IH ys').
Qed.

Lemma rmap_nth_error {A B : Type} (f : A -> result B) (xs : list A) (ys : list B) :
  rmap f xs = Ok ys ->
  forall k x, nth_error xs k = Some x ->
  exists y, nth_error ys k = Some y /\ f x = Ok y.
Proof.
  revert ys; induction xs as [|a tl IH]; simpl; intros ys H k x Hk.
  - destruct k; discriminate.
  - destruct (f a) as [y|] eqn:Hfa; simpl in H; [|discriminate].
    destruct (rmap f tl) as [ys'|]; simpl in H; [|discriminate].
    inversion H; subst. destruct k as [|k]; simpl in *.
    + inversion Hk; subst. now exists y.
    + now apply (IH ys').
Qed.

Lemma rmap_total {A B : Type} (f : A -> result B) (xs : list A) :
  (forall x, In x xs -> exists y, f x = Ok y) ->
  exists ys, rmap f xs = Ok ys.
Proof.
  induction xs as [|a tl IH]; simpl; intros H.
  - now exists [].
  - destruct (H a (or_introl eq_refl)) as [y Hy].
    destruct IH as [ys Hys]; [intros x Hx; apply H; now right|].
    exists (y :: ys). now rewrite Hy, Hys.
Qed.

(** ** Bit counts *)

Lemma digits2_pos_size (p : positive) : digits2_pos p = Pos.size p.
Proof. induction p; simpl; congruence. Qed.

Lemma digits2_pos_bounds (p : positive) :
  2 ^ (Zpos (digits2_pos p) - 1) <= Zpos p < 2 ^ Zpos (digits2_pos p).
Proof.
  rewrite digits2_pos_size. split.
  - pose proof (Pos.size_le p) as H.
    assert (Hz : 2 ^ Zpos (Pos.size p) <= 2 * Zpos p).
    { change (2 * Zpos p) with (Zpos p~0). rewrite <- Pos2Z.inj_pow. now apply Pos2Z.pos_le_pos. }
    replace (Zpos (Pos.size p)) with (Z.succ (Zpos (Pos.size p) - 1)) in Hz by lia.
    rewrite Z.pow_succ_r in Hz by lia. lia.
  - pose proof (Pos.size_gt p) as H.
    change 2 with (Zpos 2). rewrite <- Pos2Z.inj_pow. now apply Pos2Z.pos_lt_pos.
Qed.

Lemma Zdigits2_le (m k : Z) : 0 <= m -> 0 <= k -> m < 2 ^ k -> Zdigits2 m <= k.
Proof.
  intros Hm Hk H. destruct m as [|p|p]; simpl; try lia.
  pose proof (digits2_pos_bounds p) as [Hlo _].
  destruct (Z_le_gt_dec (Zpos (digits2_pos p)) k) as [|Hgt]; [assumption|exfalso].
  assert (2 ^ k <= 2 ^ (Zpos (digits2_pos p) - 1)) by (apply Z.pow_le_mono_r; lia).
  lia.
Qed.

Lemma Zdigits2_pow2 (k : Z) : 0 <= k -> Zdigits2 (2 ^ k) = k + 1.
Proof.
  intros Hk.
  assert (Hpos : 0 < 2 ^ k) by (apply Z.pow_pos_nonneg; lia).
  destruct (2 ^ k) as [|p|p] eqn:E; try lia. simpl.
  pose proof (digits2_pos_bounds p) as [Hlo Hhi]. rewrite <- E in Hlo, Hhi.
  apply Z.pow_le_mono_r_iff in Hlo; try lia.
  apply Z.pow_lt_mono_r_iff in Hhi; lia.
Qed.

(** ** The quotient [1 / n] in binary64 *)

Lemma shr_record_loc_inv (m : Z) (l : location) :
  loc_of_shr_record (shr_record_of_loc m l) = l /\ shr_m (shr_record_of_loc m l) = m.
Proof. destruct l as [|[]]; split; reflexivity. Qed.

Lemma shr_fexp_noshift (m e : Z) (l : location) :
  0 <= m -> m < 2 ^ 53 -> -1074 <= e ->
  shr_fexp F64.prec F64.emax m e l = (shr_record_of_loc m l, e).
Proof.
  intros Hm Hlt He. unfold shr_fexp, shr.
  assert (H : fexp F64.prec F64.emax (Zdigits2 m + e) - e <= 0).
  { unfold fexp, emin, F64.prec, F64.emax.
    pose proof (Zdigits2_le m 53 Hm ltac:(lia) Hlt). lia. }
  destruct (fexp F64.prec F64.emax (Zdigits2 m + e) - e); try lia; reflexivity.
Qed.

Lemma shr_fexp_shift1 (e : Z) (l : location) :
  -1074 <= e ->
  shr_fexp F64.prec F64.emax (2 ^ 53) e l = (shr_1 (shr_record_of_loc (2 ^ 53) l), e + 1).
Proof.
  intros He. unfold shr_fexp, shr.
  assert (H : fexp F64.prec F64.emax (Zdigits2 (2 ^ 53) + e) - e = 1).
  { rewrite Zdigits2_pow2 by lia. unfold fexp, emin, F64.prec, F64.emax. lia. }
  rewrite H. reflexivity.
Qed.

Lemma round_nearest_even_bounds (m : Z) (l : location) :
  m <= round_nearest_even m l <= m + 1.
Proof. destruct l as [|[]]; simpl; try destruct (Z.even m); lia. Qed.

Lemma div_exp_bounds (n : positive) : -1074 <= div_exp n <= -53.
Proof. unfold div_exp. pose proof (Pos2Z.is_pos (digits2_pos n)). lia. Qed.

Lemma div_quot_bounds (n : positive) :
  0 <= 2 ^ (- div_exp n) / Zpos n <= 2 ^ 53.
Proof.
  pose proof (digits2_pos_bounds n) as [Hlo Hhi].
  pose proof (div_exp_bounds n) as He.
  split; [apply Z.div_pos; [apply Z.pow_nonneg|]; lia|].
  apply Z.div_le_upper_bound; [lia|].
  assert (H1 : 2 ^ (- div_exp n) <= 2 ^ (52 + Zpos (digits2_pos n))).
  { apply Z.pow_le_mono_r; unfold div_exp; lia. }
  replace (52 + Zpos (digits2_pos n)) with (53 + (Zpos (digits2_pos n) - 1)) in H1 by lia.
  rewrite Z.pow_add_r in H1 by lia.
  assert (0 < 2 ^ 53) by lia. nia.
Qed.

Lemma SFdiv_one (s : bool) (n : positive) :
  F64.div (S754_finite s 1 0) (S754_finite false n 0) =
  match round_nearest_even (2 ^ (- div_exp n) / Zpos n)
          (new_location (Zpos n) (2 ^ (- div_exp n) mod Zpos n)) with
  | Zpos p =>
      if Zpos p =? 2 ^ 53 then S754_finite s 4503599627370496 (div_exp n + 1)
      else S754_finite s p (div_exp n)
  | _ => S754_zero s
  end.
Proof.
  pose proof (div_exp_bounds n) as He.
  pose proof (div_quot_bounds n) as Hq.
  unfold F64.div, SFdiv, SFdiv_core_binary.
  replace (Z.min _ _) with (div_exp n)
    by (unfold fexp, emin, div_exp, F64.prec, F64.emax; simpl Zdigits2; lia).
  replace (0 - 0 - div_exp n) with (- div_exp n) by lia.
  destruct (- div_exp n) as [|p|p] eqn:Es; try lia.
  rewrite Z.shiftl_1_l.
  set (q := 2 ^ Zpos p / Zpos n) in *.
  set (r := 2 ^ Zpos p mod Zpos n) in *.
  assert (Hd : Z.div_eucl (2 ^ Zpos p) (Zpos n) = (q, r)).
  { unfold q, r, Z.div, Z.modulo. now destruct (Z.div_eucl (2 ^ Zpos p) (Zpos n)). }
  rewrite Hd, xorb_false_r. unfold binary_round_aux.
  set (loc := new_location (Zpos n) r).
  destruct (Z.eq_dec q (2 ^ 53)) as [Hq53|Hq53].
  - (* the divisor is a power of two *)
    assert (Hr : r = 0).
    { pose proof (Z.div_mod (2 ^ Zpos p) (Zpos n) ltac:(lia)) as Hdm.
      pose proof (Z.mod_pos_bound (2 ^ Zpos p) (Zpos n) ltac:(lia)) as Hrb.
      fold q r in Hdm, Hrb. rewrite Hq53 in Hdm.
      pose proof (digits2_pos_bounds n) as [Hlo _].
      assert (H1 : 2 ^ Zpos p <= 2 ^ (53 + (Zpos (digits2_pos n) - 1))).
      { apply Z.pow_le_mono_r; unfold div_exp in Es; lia. }
      rewrite Z.pow_add_r in H1 by lia.
      assert (0 < 2 ^ 53) by lia. nia. }
    assert (Hloc : loc = loc_Exact).
    { unfold loc, new_location, new_location_even, new_location_odd.
      rewrite Hr. now destruct (Z.even (Zpos n)). }
    rewrite Hloc, Hq53, shr_fexp_shift1 by lia.
    change (round_nearest_even _ _) with (2 ^ 52) at 1.
    rewrite shr_fexp_noshift by lia.
    change (round_nearest_even (2 ^ 53) loc_Exact) with (Zpos 9007199254740992).
    change (shr_m (shr_record_of_loc (2 ^ 52) loc_Exact)) with (Zpos 4503599627370496).
    cbv iota beta. rewrite Z.eqb_refl. unfold F64.emax, F64.prec.
    destruct (Z.leb_spec (div_exp n + 1) (1024 - 53)); [reflexivity|lia].
  - rewrite shr_fexp_noshift by lia.
    destruct (shr_record_loc_inv q loc) as [-> ->].
    pose proof (round_nearest_even_bounds q loc) as Hm.
    set (m1 := round_nearest_even q loc) in *.
    destruct (Z.eq_dec m1 (2 ^ 53)) as [Hm53|Hm53].
    + rewrite Hm53, shr_fexp_shift1 by lia. simpl.
      destruct (Z.leb_spec (div_exp n + 1) 971); [reflexivity|lia].
    + rewrite shr_fexp_noshift by lia.
      change (shr_m (shr_record_of_loc m1 loc_Exact)) with m1.
      destruct m1 as [|m|m]; try lia; [reflexivity|].
      destruct (Z.eqb_spec (Z.pos m) (2 ^ 53)); [contradiction|].
      unfold F64.emax, F64.prec.
      destruct (Z.leb_spec (div_exp n) (1024 - 53)); [reflexivity|lia].
Qed.

(** ** Python lists *)

Lemma range_length (lo hi : Z) : length (range lo hi) = Z.to_nat (hi - lo).
Proof. unfold range. now rewrite length_map, length_seq. Qed.

Lemma range_nth_error (lo hi : Z) (k : nat) :
  (k < Z.to_nat (hi - lo))%nat -> nth_error (range lo hi) k = Some (lo + Z.of_nat k).
Proof.
  intros Hk. unfold range.
  rewrite nth_error_map, nth_error_seq.
  destruct (Nat.ltb_spec k (Z.to_nat (hi - lo))); [reflexivity|lia].
Qed.

Lemma range_In (lo hi x : Z) : In x (range lo hi) <-> lo <= x < hi.
Proof.
  unfold range. rewrite in_map_iff. split.
  - intros [k [<- Hk]]. apply in_seq in Hk. lia.
  - intros H. exists (Z.to_nat (x - lo)). split; [lia|]. apply in_seq. lia.
Qed.

Lemma set_even_length {A : Type} (vals lst : list A) :
  length (set_even lst vals) = length lst.
Proof.
  revert lst; induction vals as [|v vs IH]; intros lst.
  - destruct lst as [|a [|b tl]]; reflexivity.
  - destruct lst as [|a [|b tl]]; simpl; try reflexivity. now rewrite IH.
Qed.

Lemma set_even_nth_even {A : Type} (d : A) (i : nat) :
  forall lst vals : list A,
  length vals = Nat.div2 (S (length lst)) ->
  (2 * i < length lst)%nat ->
  nth (2 * i) (set_even lst vals) d = nth i vals d.
Proof.
  induction i as [|i IH]; intros lst vals Hlen Hi.
  - destruct lst as [|a [|b tl]]; simpl in *; try lia;
      destruct vals as [|v vs]; simpl in *; try discriminate; reflexivity.
  - destruct lst as [|a [|b tl]]; simpl in Hi; try lia.
    destruct vals as [|v vs]; simpl in Hlen; try discriminate.
    replace (2 * S i)%nat with (S (S (2 * i))) by lia.
    simpl. apply IH; [now inversion Hlen | lia].
Qed.

Lemma set_even_nth_odd {A : Type} (d : A) (i : nat) :
  forall lst vals : list A,
  nth (2 * i + 1) (set_even lst vals) d = nth (2 * i + 1) lst d.
Proof.
  induction i as [|i IH]; intros lst vals.
  - destruct lst as [|a [|b tl]]; destruct vals as [|v vs]; reflexivity.
  - replace (2 * S i + 1)%nat with (S (S (2 * i + 1))) by lia.
    destruct lst as [|a [|b tl]]; destruct vals as [|v vs]; try reflexivity.
    cbn [set_even nth]. apply IH.
Qed.

Lemma getitem_down_firstn {A : Type} (lst : list A) (start : Z) :
  0 <= start < Z.of_nat (length lst) ->
  getitem_down lst start = rev (firstn (Z.to_nat (start + 1)) lst).
Proof.
  intros H. unfold getitem_down.
  destruct (Z.ltb_spec start 0); [lia|].
  now rewrite Z.min_l by lia.
Qed.

(** ** Trimming *)

Lemma trim_zeros_suffix (c : list F64.float) :
  exists zs, c = zs ++ trim_zeros c /\ forall z, In z zs -> F64.eqb z F64.zero = true.
Proof.
  induction c as [|x tl [zs [Hc Hz]]]; simpl.
  - exists []. split; [reflexivity | intros z []].
  - destruct (F64.eqb x F64.zero) eqn:Hx.
    + exists (x :: zs). split; [simpl; congruence|].
      intros z [<-|Hin]; auto.
    + exists []. split; [reflexivity | intros z []].
Qed.

Lemma trim_zeros_last (c : list F64.float) (x : F64.float) :
  F64.eqb x F64.zero = false -> trim_zeros (c ++ [x]) <> [].
Proof.
  intros Hx. induction c as [|a tl IH]; simpl.
  - now rewrite Hx.
  - destruct (F64.eqb a F64.zero); [assumption | discriminate].
Qed.

Lemma np_poly1d_coeffs (c : list F64.float) :
  trim_zeros c <> [] -> coeffs (np_poly1d c) = trim_zeros c.
Proof. unfold np_poly1d. destruct (trim_zeros c); [congruence | reflexivity]. Qed.

(** ** The Taylor coefficients *)

Lemma fact_nat_pos (n : nat) : 0 < fact_nat n.
Proof. induction n as [|n IH]; [reflexivity|]. change (fact_nat (S n)) with (Z.of_nat (S n) * fact_nat n). lia. Qed.

Lemma pow_m1 (i : Z) : 0 <= i -> (-1) ^ i = if Z.odd i then -1 else 1.
Proof.
  intros Hi. destruct (Z.odd i) eqn:Ho.
  - apply Z.odd_spec in Ho. change (-1) with (- (1)) at 1.
    rewrite Z.pow_opp_odd by assumption. now rewrite Z.pow_1_l.
  - rewrite <- Z.negb_even in Ho. apply negb_false_iff, Z.even_spec in Ho.
    change (-1) with (- (1)) at 1.
    rewrite Z.pow_opp_even by assumption. now rewrite Z.pow_1_l.
Qed.

Lemma SFdiv_one_not_inf (s : bool) (n : positive) :
  F64.is_inf (F64.div (S754_finite s 1 0) (S754_finite false n 0)) = false.
Proof.
  rewrite SFdiv_one.
  destruct (round_nearest_even _ _) as [|p|p]; try reflexivity.
  now destruct (Zpos p =? 2 ^ 53).
Qed.

(** No exception for a non-negative index: the factorial is positive and
    the quotient has magnitude at most 1. *)
Lemma taylor_coef_div (i : Z) :
  0 <= i ->
  exists f : positive,
    fact_nat (Z.to_nat (2 * i + 1)) = Zpos f /\
    taylor_coef i = Ok (F64.div (S754_finite (Z.odd i) 1 0) (S754_finite false f 0)).
Proof.
  intros Hi.
  pose proof (fact_nat_pos (Z.to_nat (2 * i + 1))) as Hf.
  destruct (fact_nat (Z.to_nat (2 * i + 1))) as [|f|f] eqn:Ef; try lia.
  exists f. split; [reflexivity|].
  unfold taylor_coef, factorial.
  destruct (Z.ltb_spec (2 * i + 1) 0); [lia|].
  rewrite Ef. cbn [rbind]. unfold int_true_divide.
  change (Zpos f =? 0) with false. cbv iota.
  rewrite (pow_m1 i Hi).
  assert (Hs : F64.of_int (if Z.odd i then -1 else 1) = S754_finite (Z.odd i) 1 0)
    by (now destruct (Z.odd i)).
  rewrite Hs. change (F64.of_int (Zpos f)) with (S754_finite false f 0).
  now rewrite SFdiv_one_not_inf.
Qed.

Lemma taylor_coef_0 : taylor_coef 0 = Ok F64.one.
Proof. vm_compute. reflexivity. Qed.

Lemma series_coef_spec (n : Z) :
  1 <= n ->
  exists sc,
    series_coef n = Ok sc /\
    length sc = Z.to_nat (2 * n - 1) /\
    (forall i, 0 <= i < n -> taylor_coef i = Ok (nth (Z.to_nat (2 * i)) sc F64.zero)) /\
    (forall i, 0 <= i -> nth (Z.to_nat (2 * i + 1)) sc F64.zero = F64.zero).
Proof.
  intros Hn. unfold series_coef.
  destruct (rmap_total taylor_coef (range 0 n)) as [vals Hvals].
  { intros x Hx. apply range_In in Hx.
    destruct (taylor_coef_div x) as [f [_ ->]]; [lia|]. eauto. }
  rewrite Hvals. cbn [rbind].
  pose proof (rmap_length _ _ _ Hvals) as Hlen. rewrite range_length in Hlen.
  unfold setitem_step2, list_mul. rewrite repeat_length.
  assert (Hhalf : Nat.div2 (S (Z.to_nat (2 * n - 1))) = length vals).
  { rewrite Hlen. replace (S (Z.to_nat (2 * n - 1))) with (2 * Z.to_nat (n - 0))%nat by lia.
    apply Nat.div2_double. }
  rewrite Hhalf, Nat.eqb_refl.
  eexists. split; [reflexivity|]. split; [|split].
  - now rewrite set_even_length, repeat_length.
  - intros i Hi.
    replace (Z.to_nat (2 * i)) with (2 * Z.to_nat i)%nat by lia.
    rewrite set_even_nth_even; [| rewrite repeat_length; congruence | rewrite repeat_length; lia].
    destruct (rmap_nth_error _ _ _ Hvals (Z.to_nat i) i) as [y [Hy Hfy]].
    { rewrite range_nth_error by lia. f_equal. lia. }
    rewrite Hfy. f_equal. symmetry. now apply nth_error_nth.
  - intros i Hi.
    replace (Z.to_nat (2 * i + 1)) with (2 * Z.to_nat i + 1)%nat by lia.
    rewrite set_even_nth_odd. apply nth_repeat.
Qed.

(** ** The series builder *)

Lemma series_nth (n : Z) (sc : list F64.float) (o : Z) :
  series_coef n = Ok sc -> 1 <= o <= n - 1 ->
  exists ps, series n = Ok ps /\ Z.of_nat (length ps) = n - 1 /\
    nth_error ps (Z.to_nat (o - 1)) = Some (np_poly1d (getitem_down sc (2 * o))).
Proof.
  intros Hsc Ho. unfold series. rewrite Hsc. cbn [rbind].
  eexists. split; [reflexivity|]. split.
  - rewrite length_map, range_length. lia.
  - rewrite nth_error_map, range_nth_error by lia. cbn [option_map].
    do 3 f_equal. lia.
Qed.

(** A polynomial built from the reversed prefix of a coefficient list whose
    constant term is not zero: nothing but leading zeros is lost. *)
Lemma poly_of_prefix (sc : list F64.float) (m : nat) :
  (m < length sc)%nat ->
  F64.eqb (nth 0 sc F64.zero) F64.zero = false ->
  let p := np_poly1d (rev (firstn (S m) sc)) in
  0 <= poly_order p <= Z.of_nat m /\
  forall k, 0 <= k <= poly_order p -> poly_getitem p k = nth (Z.to_nat k) sc F64.zero.
Proof.
  intros Hm H0 p.
  set (l := firstn (S m) sc).
  assert (Hl : length l = S m) by (unfold l; rewrite length_firstn; lia).
  assert (Hne : trim_zeros (rev l) <> []).
  { destruct sc as [|x tl]; [simpl in Hm; lia|].
    unfold l. cbn [firstn rev]. now apply trim_zeros_last. }
  assert (Hc : coeffs p = trim_zeros (rev l)) by (now apply np_poly1d_coeffs).
  destruct (trim_zeros_suffix (rev l)) as [zs [Hsplit _]].
  assert (Hlen : (length zs + length (coeffs p) = S m)%nat).
  { rewrite Hc, <- length_app, <- Hsplit, length_rev. exact Hl. }
  assert (Hpos : (0 < length (coeffs p))%nat).
  { rewrite Hc. destruct (trim_zeros (rev l)); [congruence | simpl; lia]. }
  unfold poly_order. split; [lia|].
  intros k Hk. unfold poly_getitem, poly_order.
  destruct (Z.ltb_spec (Z.of_nat (length (coeffs p)) - 1) k); [lia|].
  destruct (Z.ltb_spec k 0); [lia|]. cbn [orb].
  set (j := Z.to_nat (Z.of_nat (length (coeffs p)) - 1 - k)).
  rewrite Hc, <- (app_nth2_plus zs (trim_zeros (rev l)) F64.zero j), <- Hsplit.
  rewrite rev_nth by (rewrite Hl; unfold j; lia).
  unfold l at 2. rewrite nth_firstn.
  replace (length l - S (length zs + j))%nat with (Z.to_nat k) by (unfold j; lia).
  destruct (Nat.ltb_spec (Z.to_nat k) (S m)); [reflexivity | lia].
Qed.

(** C5: for every bound [n >= 2] the series builder raises no exception and
    returns [n - 1] polynomials, the one of order [o] (for [o = 1 .. n-1])
    being built from the coefficient list cut after power [2*o] and listed
    from the highest power down: its degree is at most [2*o] and its
    coefficient of [x^k] is entry [k] of the full coefficient list. *)
Theorem series_builder_total (n : Z) :
  2 <= n ->
  exists sc ps,
    series_coef n = Ok sc /\
    series n = Ok ps /\
    Z.of_nat (length ps) = n - 1 /\
    forall o, 1 <= o <= n - 1 ->
      exists p,
        nth_error ps (Z.to_nat (o - 1)) = Some p /\
        p = np_poly1d (rev (firstn (Z.to_nat (2 * o + 1)) sc)) /\
        0 <= poly_order p <= 2 * o /\
        forall k, 0 <= k <= poly_order p ->
          poly_getitem p k = nth (Z.to_nat k) sc F64.zero.
Proof.
  intros Hn.
  destruct (series_coef_spec n ltac:(lia)) as [sc [Hsc [Hlen [Heven Hodd]]]].
  destruct (series_nth n sc 1 Hsc ltac:(lia)) as [ps [Hps [Hlps _]]].
  exists sc, ps. repeat split; try assumption.
  intros o Ho.
  destruct (series_nth n sc o Hsc Ho) as [ps' [Hps' [_ Hnth]]].
  assert (ps' = ps) by congruence. subst ps'.
  eexists. split; [exact Hnth|].
  rewrite getitem_down_firstn by lia.
  split; [reflexivity|].
  assert (H0 : nth 0 sc F64.zero = F64.one).
  { pose proof (Heven 0 ltac:(lia)) as H. rewrite taylor_coef_0 in H.
    change (Z.to_nat (2 * 0)) with 0%nat in H. congruence. }
  replace (Z.to_nat (2 * o + 1)) with (S (Z.to_nat (2 * o))) by lia.
  pose proof (poly_of_prefix sc (Z.to_nat (2 * o))) as Hp.
  cbv zeta in Hp. rewrite Z2Nat.id in Hp by lia.
  apply Hp; [lia | now rewrite H0].
Qed.

Lemma series_builder_total_witness :
  2 <= 2 /\
  exists sc ps,
    series_coef 2 = Ok sc /\
    series 2 = Ok ps /\
    Z.of_nat (length ps) = 2 - 1 /\
    forall o, 1 <= o <= 2 - 1 ->
      exists p,
        nth_error ps (Z.to_nat (o - 1)) = Some p /\
        p = np_poly1d (rev (firstn (Z.to_nat (2 * o + 1)) sc)) /\
        0 <= poly_order p <= 2 * o /\
        forall k, 0 <= k <= poly_order p ->
          poly_getitem p k = nth (Z.to_nat k) sc F64.zero.
Proof. split; [lia | apply (series_builder_total 2); lia]. Defined.

(** ** The orders of the notebook's series ([N = 8]) *)

(** C3 as stated fails: the orders of the polynomials built for [N = 8]
    are not 2 .. N-1. *)
Lemma series_orders_from_2_counterexample :
  ~ (exists ps, series N = Ok ps /\ map taylor_order ps = range 2 N).
Proof.
  intros [ps [Hps Hord]].
  vm_compute in Hps. inversion Hps; subst ps; clear Hps.
  vm_compute in Hord. discriminate.
Qed.

(** C3, amended: the series builder returns one polynomial per order from
    1 to N-1 (N = 8), seven in all; the smallest order is 1, a polynomial
    of degree 2. *)
Theorem series_orders_from_1 :
  exists ps,
    series N = Ok ps /\
    map taylor_order ps = range 1 N /\
    length ps = 7%nat /\
    (exists p, hd_error ps = Some p /\ taylor_order p = 1 /\ poly_order p = 2).
Proof.
  eexists. split; [vm_compute; reflexivity|].
  split; [vm_compute; reflexivity|].
  split; [reflexivity|].
  eexists. split; [reflexivity|]. split; vm_compute; reflexivity.
Qed.

(** ** The visualizer *)

Lemma mask_select_In {A : Type} (mask : list bool) (a : list A) (x : A) :
  In x (mask_select mask a) -> In x a.
Proof.
  unfold mask_select. intros H. apply in_map_iff in H.
  destruct H as [[b y] [Hy Hin]]. simpl in Hy. subst y.
  apply filter_In in Hin. destruct Hin as [Hin _].
  now apply in_combine_r in Hin.
Qed.

(** The [j]-th [scatter] call draws row [j / 3] of [y_data]. *)
Lemma plot_rows_nth (xs : list F64.float) :
  forall (rows : list (list Z)) (b s w : list (list bool)) (j : nat) (sc : scatter),
  nth_error (plot_rows xs rows b s w) j = Some sc ->
  exists row, nth_error rows (j / 3) = Some row /\
              forall y, In y (sc_y sc) -> In y row.
Proof.
  induction rows as [|row ys IH]; intros b s w j sc Hj.
  - destruct j; discriminate.
  - destruct b as [|b0 bs]; [destruct j; discriminate|].
    destruct s as [|s0 ss]; [destruct j; discriminate|].
    destruct w as [|w0 ws]; [destruct j; discriminate|].
    cbn [plot_rows] in Hj.
    destruct j as [|[|[|j]]]; cbn [nth_error] in Hj.
    1-3: inversion Hj; subst sc; exists row; split; [reflexivity|];
         cbn [sc_y]; intros y Hy; now apply mask_select_In in Hy.
    destruct (IH bs ss ws j sc Hj) as [row' [Hrow' Hin]].
    exists row'. split; [|assumption].
    replace (S (S (S j))) with (j + 1 * 3)%nat by lia.
    rewrite Nat.div_add by lia.
    now rewrite Nat.add_1_r.
Qed.

Lemma y_data_nth (ps : list poly1d) (xs : list F64.float) (j : nat) (row : list Z) :
  nth_error (y_data ps xs) j = Some row ->
  exists p, nth_error ps j = Some p /\
            row = repeat (Z.of_nat (length (coeffs p))) (length xs).
Proof.
  unfold y_data. rewrite nth_error_map.
  destruct (nth_error ps j) as [p|]; [|discriminate].
  intros H. inversion H. now exists p.
Qed.

Lemma series_N_coefficient_counts :
  exists ps, series N = Ok ps /\
    map (fun s => Z.of_nat (length (coeffs s))) ps = map (fun o => 2 * o + 1) (range 1 N).
Proof. eexists. split; vm_compute; reflexivity. Qed.

(** C4 as stated fails: with one sample, the first row of [y_data] would
    have to be [[2]], the degree of the order-1 polynomial; it is [[3]]. *)
Lemma y_data_degree_counterexample :
  ~ (exists ps, series N = Ok ps /\
       y_data ps [F64.one] = map (fun o => repeat (2 * o) 1) (range 1 N)).
Proof.
  intros [ps [Hps Hy]].
  vm_compute in Hps. inversion Hps; subst ps; clear Hps.
  vm_compute in Hy. discriminate.
Qed.

(** C4, amended: the visualizer places the row of markers of each series
    order at the number of coefficients of that order's polynomial,
    [len(s.coef)], which for the orders 1 .. 7 of the notebook is
    [2*order + 1], the degree plus one. *)
Theorem y_data_coefficient_count (xs : list F64.float) :
  exists ps,
    series N = Ok ps /\
    y_data ps xs = map (fun o => repeat (2 * o + 1) (length xs)) (range 1 N) /\
    forall (b s w : list (list bool)) (j : nat) (sc : scatter),
      nth_error (plot_rows xs (y_data ps xs) b s w) j = Some sc ->
      forall y, In y (sc_y sc) -> y = 2 * (Z.of_nat (j / 3) + 1) + 1.
Proof.
  destruct series_N_coefficient_counts as [ps [Hps Hcnt]].
  exists ps. split; [assumption|].
  assert (Hy : y_data ps xs
               = map (fun o => repeat (2 * o + 1) (length xs)) (range 1 N)).
  { unfold y_data.
    rewrite <- (map_map (fun s => Z.of_nat (length (coeffs s)))
                        (fun v => repeat v (length xs))).
    rewrite Hcnt. now rewrite map_map. }
  split; [assumption|].
  intros b s w j sc Hj y Hin.
  destruct (plot_rows_nth _ _ _ _ _ _ _ Hj) as [row [Hrow Hsub]].
  rewrite Hy, nth_error_map in Hrow.
  destruct (nth_error (range 1 N) (j / 3)) as [o|] eqn:Ho; [|discriminate].
  assert (Hlt : (j / 3 < length (range 1 N))%nat)
    by (apply nth_error_Some; congruence).
  rewrite range_length in Hlt.
  rewrite range_nth_error in Ho by assumption.
  cbn [option_map] in Hrow.
  assert (Ho' : o = 1 + Z.of_nat (j / 3)) by congruence.
  assert (Hr : row = repeat (2 * o + 1) (length xs)) by congruence.
  subst row o.
  apply Hsub, repeat_spec in Hin. lia.
Qed.

(** ** Dyadic rationals *)

Lemma pow2_pos (k : Z) : 0 <= k -> 0 < 2 ^ k.
Proof. intros. apply Z.pow_pos_nonneg; lia. Qed.

Lemma dyadic_scale (m e e0 : Z) :
  e0 <= e -> e0 <= 0 ->
  (dyadic m e == Qmake (m * 2 ^ (e - e0)) (Z.to_pos (2 ^ (- e0))))%Q.
Proof.
  intros He He0.
  pose proof (pow2_pos (- e0) ltac:(lia)) as Hp.
  unfold dyadic, Qeq.
  destruct e as [|p|p]; cbn [Qnum Qden inject_Z]; rewrite ?Z2Pos.id by assumption.
  - replace (0 - e0) with (- e0) by lia. rewrite Z.pow_0_r. ring.
  - replace (Zpos p - e0) with (Zpos p + - e0) by lia.
    rewrite Z.pow_add_r by lia. ring.
  - rewrite Pos2Z.inj_pow.
    assert (Hs : 2 ^ (- e0) = 2 ^ (Zneg p - e0) * 2 ^ Zpos p).
    { rewrite <- Z.pow_add_r by lia. f_equal. lia. }
    rewrite Hs. ring.
Qed.

Lemma dyadic_lt (m1 e1 m2 e2 e : Z) :
  e <= e1 -> e <= e2 ->
  (dyadic m1 e1 < dyadic m2 e2)%Q <-> m1 * 2 ^ (e1 - e) < m2 * 2 ^ (e2 - e).
Proof.
  intros H1 H2.
  set (e0 := Z.min e 0).
  rewrite (dyadic_scale m1 e1 e0), (dyadic_scale m2 e2 e0) by (unfold e0; lia).
  unfold Qlt. cbn [Qnum Qden].
  pose proof (pow2_pos (- e0) ltac:(unfold e0; lia)) as Hp.
  rewrite Z2Pos.id by assumption.
  replace (e1 - e0) with ((e1 - e) + (e - e0)) by lia.
  replace (e2 - e0) with ((e2 - e) + (e - e0)) by lia.
  rewrite !Z.pow_add_r by (unfold e0; lia).
  pose proof (pow2_pos (e - e0) ltac:(unfold e0; lia)) as Hk.
  replace (m1 * (2 ^ (e1 - e) * 2 ^ (e - e0)) * 2 ^ (- e0))
    with (m1 * 2 ^ (e1 - e) * (2 ^ (e - e0) * 2 ^ (- e0))) by ring.
  replace (m2 * (2 ^ (e2 - e) * 2 ^ (e - e0)) * 2 ^ (- e0))
    with (m2 * 2 ^ (e2 - e) * (2 ^ (e - e0) * 2 ^ (- e0))) by ring.
  symmetry. apply Z.mul_lt_mono_pos_r. nia.
Qed.

Lemma dyadic_0 (e : Z) : (dyadic 0 e == 0)%Q.
Proof. unfold dyadic, Qeq. destruct e; cbn [Qnum Qden inject_Z]; lia. Qed.

Lemma dyadic_pos (m e : Z) : (0 < dyadic m e)%Q <-> 0 < m.
Proof.
  rewrite <- (dyadic_0 e), (dyadic_lt 0 e m e e) by lia.
  rewrite Z.sub_diag. lia.
Qed.

Lemma dyadic_neg (m e : Z) : (dyadic m e < 0)%Q <-> m < 0.
Proof.
  rewrite <- (dyadic_0 e), (dyadic_lt m e 0 e e) by lia.
  rewrite Z.sub_diag. lia.
Qed.

(** ** Comparisons of [mpf] numbers *)

Lemma mpf_eqb_eq (s t : Mpf.mpf) : Mpf.eqb s t = true <-> s = t.
Proof.
  destruct s as [| | | |ss sm se], t as [| | | |ts tm te]; simpl;
    try (split; [discriminate | discriminate]); try tauto.
  rewrite !andb_true_iff, Bool.eqb_true_iff, Pos.eqb_eq, Z.eqb_eq.
  split; [intros [[-> ->] ->]; reflexivity | intros H; inversion H; auto].
Qed.

Lemma mpf_cmp_refl (s : Mpf.mpf) : Mpf.mpf_cmp s s = 0.
Proof.
  destruct s as [| | | |ss sm se]; try reflexivity.
  simpl. rewrite Bool.eqb_reflx, Z.eqb_refl, Pos.eqb_refl. reflexivity.
Qed.

Lemma mpf_cmp_values (s t : Mpf.mpf) :
  Mpf.mpf_cmp s t = -1 \/ Mpf.mpf_cmp s t = 0 \/ Mpf.mpf_cmp s t = 1.
Proof.
  destruct s as [| | | |ss sm se], t as [| | | |ts tm te]; simpl; auto;
    try (destruct ts; auto); try (destruct ss; auto);
    repeat match goal with
           | |- context [if ?c then _ else _] => destruct c; auto
           end.
Qed.

(** [mpf_cmp] answers 0 for identical tuples only. *)
Lemma mpf_cmp_zero_iff (s t : Mpf.mpf) :
  Mpf.is_nan s = false -> Mpf.is_nan t = false ->
  (Mpf.mpf_cmp s t = 0 <-> s = t).
Proof.
  intros Hs Ht. split; [|intros ->; apply mpf_cmp_refl].
  destruct s as [| | | |ss sm se], t as [| | | |ts tm te];
    try discriminate; try reflexivity; simpl;
    try (destruct ts; discriminate); try (destruct ss; discriminate).
  destruct (Bool.eqb ss ts) eqn:Hsg; cbn [negb].
  - apply Bool.eqb_prop in Hsg. subst ts.
    destruct (Z.eqb_spec se te) as [->|Hne].
    + destruct (Pos.eqb_spec sm tm) as [->|Hm]; [reflexivity|].
      destruct (Zpos tm <? Zpos sm); destruct ss; discriminate.
    + destruct (_ <? 0); discriminate.
  - destruct ss; discriminate.
Qed.

Lemma signed_mul (s : bool) (m k : Z) : signed s (m * k) = signed s m * k.
Proof. destruct s; simpl; ring. Qed.

Lemma even_signed (s : bool) (x : Z) : Z.even (signed s x) = Z.even x.
Proof. destruct s; simpl; [apply Z.even_opp | reflexivity]. Qed.

Lemma signed_shiftl (s : bool) (m : positive) (k : Z) :
  0 <= k -> signed s (Z.shiftl (Zpos m) k) = signed s (Zpos m) * 2 ^ k.
Proof. intros Hk. now rewrite Z.shiftl_mul_pow2, signed_mul. Qed.

Lemma odd_times_pow2 (m : positive) (k : Z) :
  0 < k -> Z.even (Zpos m * 2 ^ k) = true.
Proof.
  intros Hk. replace k with (Z.succ (k - 1)) by lia.
  rewrite Z.pow_succ_r by lia.
  rewrite Z.even_mul, (Z.even_mul 2). cbn [Z.even]. now rewrite orb_true_r.
Qed.

(** On regular numbers and zero, [mpf_cmp] is the order of the values. *)
Lemma mpf_cmp_value (s t : Mpf.mpf) :
  Mpf.is_finite s = true -> Mpf.is_finite t = true ->
  Mpf.is_normal s = true -> Mpf.is_normal t = true ->
  (Mpf.mpf_cmp s t < 0 <-> (Mpf.value s < Mpf.value t)%Q) /\
  (0 < Mpf.mpf_cmp s t <-> (Mpf.value t < Mpf.value s)%Q).
Proof.
  intros Hfs Hft Hns Hnt.
  destruct s as [| | | |ss sm se], t as [| | | |ts tm te]; try discriminate.
  - simpl. split; split; intros H; try lia; now apply Qlt_irrefl in H.
  - cbn [Mpf.mpf_cmp Mpf.mpf_sign Mpf.value].
    rewrite dyadic_pos, dyadic_neg. destruct ts; simpl; lia.
  - cbn [Mpf.mpf_cmp Mpf.mpf_sign Mpf.value].
    rewrite dyadic_pos, dyadic_neg. destruct ss; simpl; lia.
  - cbn [Mpf.value].
    rewrite (dyadic_lt _ se _ te (Z.min se te)) by lia.
    rewrite (dyadic_lt _ te _ se (Z.min se te)) by lia.
    pose proof (pow2_pos (se - Z.min se te) ltac:(lia)) as Hps.
    pose proof (pow2_pos (te - Z.min se te) ltac:(lia)) as Hpt.
    cbn [Mpf.mpf_cmp].
    destruct (Bool.eqb ss ts) eqn:Hsg; cbn [negb].
    + apply Bool.eqb_prop in Hsg. subst ts.
      destruct (Z.eqb_spec se te) as [->|Hne].
      * rewrite Z.min_id, Z.sub_diag, Z.pow_0_r, !Z.mul_1_r.
        destruct (Pos.eqb_spec sm tm) as [->|Hm]; [lia|].
        assert (Zpos sm <> Zpos tm) by congruence.
        destruct (Z.ltb_spec (Zpos tm) (Zpos sm)); destruct ss; simpl; lia.
      * rewrite !signed_shiftl by lia.
        assert (Hneq : signed ss (Zpos sm) * 2 ^ (se - Z.min se te)
                       <> signed ss (Zpos tm) * 2 ^ (te - Z.min se te)).
        { intros Heq. apply (f_equal Z.even) in Heq.
          destruct (Z_lt_le_dec se te) as [Hlt|Hge].
          - rewrite Z.min_l, Z.sub_diag, Z.pow_0_r, Z.mul_1_r in Heq by lia.
            rewrite <- signed_mul, !even_signed, odd_times_pow2 in Heq by lia.
            destruct sm; simpl in Heq, Hns; discriminate.
          - rewrite Z.min_r, Z.sub_diag, Z.pow_0_r, Z.mul_1_r in Heq by lia.
            rewrite <- signed_mul, !even_signed, odd_times_pow2 in Heq by lia.
            destruct tm; simpl in Heq, Hnt; discriminate. }
        destruct (Z.ltb_spec (signed ss (Zpos sm) * 2 ^ (se - Z.min se te)
                              - signed ss (Zpos tm) * 2 ^ (te - Z.min se te)) 0); lia.
    + destruct ss, ts; try discriminate; simpl signed; nia.
Qed.

(** ** Normalized results *)

Lemma strip_zeros_odd (p : positive) :
  match fst (Mpf.strip_zeros p) with xO _ => False | _ => True end.
Proof.
  induction p as [p IH|p IH|]; simpl; auto.
  now destruct (Mpf.strip_zeros p).
Qed.

Lemma normalize_normal (sign : bool) (man exp prec : Z) :
  Mpf.is_normal (Mpf.normalize sign man exp prec) = true.
Proof.
  unfold Mpf.normalize.
  destruct (if 0 <? Mpf.bitcount man - prec then _ else _) as [m e].
  destruct m as [|p|p]; try reflexivity.
  pose proof (strip_zeros_odd p) as H.
  destruct (Mpf.strip_zeros p) as [q t]. simpl in *.
  now destruct q.
Qed.

Lemma mpf_abs_normal (s : Mpf.mpf) (prec : Z) :
  Mpf.is_normal (Mpf.mpf_abs s prec) = true.
Proof. destruct s; try reflexivity. apply normalize_normal. Qed.

Lemma abs_error_normal (prec : Z) (a : F64.float) (b : Mpf.mpf) :
  Mpf.is_normal (abs_error prec a b) = true.
Proof. apply mpf_abs_normal. Qed.

Lemma err_orig_normal (prec : Z) (ro : list F64.float) (rf : list Mpf.mpf) (k : nat) (e : Mpf.mpf) :
  nth_error (err_orig prec ro rf) k = Some e -> Mpf.is_normal e = true.
Proof.
  unfold err_orig. rewrite nth_error_map.
  destruct (nth_error (combine ro rf) k) as [[a b]|]; [|discriminate].
  intros H. injection H as <-. apply abs_error_normal.
Qed.

(** ** Broadcasting *)

Lemma nth_error_combine {A B : Type} (l1 : list A) (l2 : list B) (k : nat) (a : A) (b : B) :
  nth_error l1 k = Some a -> nth_error l2 k = Some b ->
  nth_error (combine l1 l2) k = Some (a, b).
Proof.
  revert l2 k; induction l1 as [|x l1 IH]; intros l2 k H1 H2.
  - destruct k; discriminate.
  - destruct l2 as [|y l2]; [destruct k; discriminate|].
    destruct k as [|k]; simpl in *.
    + congruence.
    + now apply IH.
Qed.

Lemma broadcast_at {B : Type} (op : Mpf.mpf -> Mpf.mpf -> B)
  (eo : list Mpf.mpf) (es : list (list Mpf.mpf))
  (j k : nat) (row : list Mpf.mpf) (a b : Mpf.mpf) :
  nth_error es j = Some row ->
  nth_error eo k = Some a ->
  nth_error row k = Some b ->
  exists out, nth_error (broadcast op eo es) j = Some out /\
              nth_error out k = Some (op a b).
Proof.
  intros Hrow Ha Hb. unfold broadcast.
  rewrite nth_error_map, Hrow. cbn [option_map].
  eexists. split; [reflexivity|].
  rewrite nth_error_map, (nth_error_combine _ _ _ _ _ Ha Hb). reflexivity.
Qed.

Lemma mask_broadcast_at (op : Mpf.mpf -> Mpf.mpf -> bool)
  (eo : list Mpf.mpf) (es : list (list Mpf.mpf))
  (j k : nat) (row : list Mpf.mpf) (a b : Mpf.mpf) :
  nth_error es j = Some row ->
  nth_error eo k = Some a ->
  nth_error row k = Some b ->
  entry (broadcast op eo es) j k = Some (op a b).
Proof.
  intros Hrow Ha Hb.
  destruct (broadcast_at op _ _ _ _ _ _ _ Hrow Ha Hb) as [out [H1 H2]].
  unfold entry. now rewrite H1.
Qed.

(** ** The three-way classification *)

Lemma classify_exactly_one (a b : Mpf.mpf) :
  Mpf.is_nan a = false -> Mpf.is_nan b = false ->
  exactly_one (Mpf.mpf_lt a b) (Mpf.mpf_eq a b) (Mpf.mpf_gt a b) /\
  (Mpf.mpf_eq a b = true <-> a = b).
Proof.
  intros Ha Hb. unfold Mpf.mpf_lt, Mpf.mpf_eq, Mpf.mpf_gt, exactly_one.
  rewrite Ha, Hb. cbn [orb].
  pose proof (mpf_cmp_zero_iff a b Ha Hb) as Hz.
  pose proof (mpf_eqb_eq a b) as He.
  pose proof (mpf_cmp_values a b) as Hv.
  split; [|exact He].
  destruct (Mpf.eqb a b) eqn:Heq.
  - assert (Hc : Mpf.mpf_cmp a b = 0) by (apply Hz, He; reflexivity).
    rewrite Hc. right; left. repeat split; reflexivity.
  - assert (Hc : Mpf.mpf_cmp a b <> 0).
    { intros Hc. apply Hz, He in Hc. congruence. }
    destruct Hv as [Hv|[Hv|Hv]]; [|contradiction|]; rewrite Hv.
    + left. repeat split; reflexivity.
    + right; right. repeat split; reflexivity.
Qed.





(** ** The order of binary64 *)

Lemma leb_key (x y : F64.float) :
  F64.is_nan x = false -> F64.is_nan y = false ->
  (F64.leb x y = true <-> lex_le (fkey x) (fkey y)).
Proof.
  intros Hx Hy. unfold F64.leb, SFleb.
  destruct x as [sx|sx| |sx mx ex], y as [sy|sy| |sy my ey]; try discriminate;
    try (destruct sx); try (destruct sy); simpl; try (split; [intros _; lia | reflexivity]);
    try (split; [discriminate | lia]).
  - destruct (Z.compare_spec ex ey) as [->|Hlt|Hgt].
    + rewrite Pos.compare_cont_spec. cbn [Pos.switch_Eq].
      destruct (Pos.compare_spec mx my) as [->|Hm|Hm]; simpl;
        (split; [try discriminate; intros _; lia | try reflexivity; lia]).
    + split; [discriminate | lia].
    + split; [intros _; lia | reflexivity].
  - destruct (Z.compare_spec ex ey) as [->|Hlt|Hgt].
    + rewrite Pos.compare_cont_spec. cbn [Pos.switch_Eq].
      destruct (Pos.compare_spec mx my) as [->|Hm|Hm]; simpl;
        (split; [try discriminate; intros _; lia | try reflexivity; lia]).
    + split; [intros _; lia | reflexivity].
    + split; [discriminate | lia].
Qed.

Lemma lex_le_refl (a : Z * Z * Z) : lex_le a a.
Proof. destruct a as [[c e] m]. simpl. lia. Qed.

Lemma lex_le_trans (a b c : Z * Z * Z) : lex_le a b -> lex_le b c -> lex_le a c.
Proof. destruct a as [[? ?] ?], b as [[? ?] ?], c as [[? ?] ?]. simpl. lia. Qed.

Lemma lex_le_total (a b : Z * Z * Z) : lex_le a b \/ lex_le b a.
Proof. destruct a as [[? ?] ?], b as [[? ?] ?]. simpl. lia. Qed.

Lemma leb_refl (x : F64.float) : F64.is_nan x = false -> F64.leb x x = true.
Proof. intros Hx. apply leb_key; auto using lex_le_refl. Qed.

Lemma leb_trans (x y z : F64.float) :
  F64.is_nan x = false -> F64.is_nan y = false -> F64.is_nan z = false ->
  F64.leb x y = true -> F64.leb y z = true -> F64.leb x z = true.
Proof.
  intros Hx Hy Hz Hxy Hyz. apply leb_key; auto.
  apply (lex_le_trans _ (fkey y)); apply leb_key; auto.
Qed.

Lemma leb_total (x y : F64.float) :
  F64.is_nan x = false -> F64.is_nan y = false ->
  F64.leb x y = true \/ F64.leb y x = true.
Proof.
  intros Hx Hy.
  destruct (lex_le_total (fkey x) (fkey y)); [left | right]; apply leb_key; auto.
Qed.

(** ** Reductions *)

Lemma fold_minimum (l : list F64.float) :
  forall x,
  (forall y, In y (x :: l) -> F64.is_nan y = false) ->
  In (fold_left np_minimum l x) (x :: l) /\
  forall y, In y (x :: l) -> F64.leb (fold_left np_minimum l x) y = true.
Proof.
  induction l as [|a l IH]; intros x Hnan.
  - split; [now left|]. intros y [<-|[]]. apply leb_refl, Hnan. now left.
  - assert (Hx : F64.is_nan x = false) by (apply Hnan; now left).
    assert (Ha : F64.is_nan a = false) by (apply Hnan; right; now left).
    assert (Hstep : (np_minimum x a = x \/ np_minimum x a = a) /\
                    F64.leb (np_minimum x a) x = true /\
                    F64.leb (np_minimum x a) a = true).
    { unfold np_minimum. rewrite Hx, orb_false_r.
      destruct (F64.leb x a) eqn:Hle.
      - auto using leb_refl.
      - destruct (leb_total x a Hx Ha) as [H|H]; [congruence|]. auto using leb_refl. }
    destruct Hstep as [Hsel [Hlx Hla]].
    assert (Hm : F64.is_nan (np_minimum x a) = false) by (destruct Hsel as [-> | ->]; assumption).
    cbn [fold_left].
    destruct (IH (np_minimum x a)) as [Hin Hle].
    { intros y [<-|Hy]; [assumption | apply Hnan; right; now right]. }
    assert (Hr : F64.is_nan (fold_left np_minimum l (np_minimum x a)) = false).
    { destruct Hin as [<-|Hin]; [assumption | apply Hnan; right; now right]. }
    split.
    + destruct Hin as [<-|Hin]; [|right; now right].
      destruct Hsel as [-> | ->]; [now left | right; now left].
    + intros y [<-|[<-|Hy]].
      * apply (leb_trans _ (np_minimum x a)); auto. apply Hle. now left.
      * apply (leb_trans _ (np_minimum x a)); auto. apply Hle. now left.
      * apply Hle. now right.
Qed.

Lemma fold_maximum (l : list F64.float) :
  forall x,
  (forall y, In y (x :: l) -> F64.is_nan y = false) ->
  In (fold_left np_maximum l x) (x :: l) /\
  forall y, In y (x :: l) -> F64.leb y (fold_left np_maximum l x) = true.
Proof.
  induction l as [|a l IH]; intros x Hnan.
  - split; [now left|]. intros y [<-|[]]. apply leb_refl, Hnan. now left.
  - assert (Hx : F64.is_nan x = false) by (apply Hnan; now left).
    assert (Ha : F64.is_nan a = false) by (apply Hnan; right; now left).
    assert (Hstep : (np_maximum x a = x \/ np_maximum x a = a) /\
                    F64.leb x (np_maximum x a) = true /\
                    F64.leb a (np_maximum x a) = true).
    { unfold np_maximum. rewrite Hx, orb_false_r.
      destruct (F64.leb a x) eqn:Hle.
      - auto using leb_refl.
      - destruct (leb_total x a Hx Ha) as [H|H]; [|congruence]. auto using leb_refl. }
    destruct Hstep as [Hsel [Hlx Hla]].
    assert (Hm : F64.is_nan (np_maximum x a) = false) by (destruct Hsel as [-> | ->]; assumption).
    cbn [fold_left].
    destruct (IH (np_maximum x a)) as [Hin Hle].
    { intros y [<-|Hy]; [assumption | apply Hnan; right; now right]. }
    assert (Hr : F64.is_nan (fold_left np_maximum l (np_maximum x a)) = false).
    { destruct Hin as [<-|Hin]; [assumption | apply Hnan; right; now right]. }
    split.
    + destruct Hin as [<-|Hin]; [|right; now right].
      destruct Hsel as [-> | ->]; [now left | right; now left].
    + intros y [<-|[<-|Hy]].
      * apply (leb_trans _ (np_maximum x a)); auto. apply Hle. now left.
      * apply (leb_trans _ (np_maximum x a)); auto. apply Hle. now left.
      * apply Hle. now right.
Qed.

Lemma np_min_spec (l : list F64.float) (r : F64.float) :
  (forall y, In y l -> F64.is_nan y = false) ->
  np_min l = Ok r ->
  In r l /\ forall y, In y l -> F64.leb r y = true.
Proof.
  destruct l as [|x l]; [discriminate|]. intros Hnan H. injection H as <-.
  now apply fold_minimum.
Qed.

Lemma np_max_spec (l : list F64.float) (r : F64.float) :
  (forall y, In y l -> F64.is_nan y = false) ->
  np_max l = Ok r ->
  In r l /\ forall y, In y l -> F64.leb y r = true.
Proof.
  destruct l as [|x l]; [discriminate|]. intros Hnan H. injection H as <-.
  now apply fold_maximum.
Qed.

(** ** Rounding never produces a NaN *)

Lemma shr_1_nonneg (mrs : shr_record) : 0 <= shr_m mrs -> 0 <= shr_m (shr_1 mrs).
Proof. destruct mrs as [m r s]. destruct m as [|[p|p|]|p]; simpl; lia. Qed.

Lemma iter_shr_1_nonneg (p : positive) :
  forall mrs, 0 <= shr_m mrs -> 0 <= shr_m (iter_pos shr_1 p mrs).
Proof.
  induction p as [p IH|p IH|]; intros mrs H; cbn [iter_pos].
  - apply IH, IH, shr_1_nonneg, H.
  - apply IH, IH, H.
  - apply shr_1_nonneg, H.
Qed.

Lemma shr_fexp_nonneg (prec emax m e : Z) (l : location) :
  0 <= m -> 0 <= shr_m (fst (shr_fexp prec emax m e l)).
Proof.
  intros Hm. unfold shr_fexp, shr.
  assert (H0 : 0 <= shr_m (shr_record_of_loc m l))
    by (now rewrite (proj2 (shr_record_loc_inv m l))).
  destruct (fexp prec emax (Zdigits2 m + e) - e); cbn [fst]; auto.
  now apply iter_shr_1_nonneg.
Qed.

Lemma binary_round_aux_not_nan (prec emax : Z) (sx : bool) (mx ex : Z) (lx : location) :
  0 <= mx -> F64.is_nan (binary_round_aux prec emax sx mx ex lx) = false.
Proof.
  intros Hm. unfold binary_round_aux.
  pose proof (shr_fexp_nonneg prec emax mx ex lx Hm) as H1.
  destruct (shr_fexp prec emax mx ex lx) as [mrs' e']. cbn [fst] in H1.
  pose proof (round_nearest_even_bounds (shr_m mrs') (loc_of_shr_record mrs')) as Hr.
  pose proof (shr_fexp_nonneg prec emax
                (round_nearest_even (shr_m mrs') (loc_of_shr_record mrs')) e' loc_Exact
                ltac:(lia)) as H2.
  destruct (shr_fexp prec emax _ e' loc_Exact) as [mrs'' e'']. cbn [fst] in H2.
  destruct (shr_m mrs'') as [|p|p]; try reflexivity; [|lia].
  now destruct (e'' <=? emax - prec).
Qed.

Lemma binary_normalize_not_nan (prec emax m e : Z) (szero : bool) :
  F64.is_nan (binary_normalize prec emax m e szero) = false.
Proof.
  destruct m as [|p|p]; cbn [binary_normalize]; try reflexivity;
    unfold binary_round;
    destruct (shl_align _ _ _) as [mz ez];
    apply binary_round_aux_not_nan; lia.
Qed.

Lemma normalize_not_nan (sign : bool) (man exp prec : Z) :
  Mpf.is_nan (Mpf.normalize sign man exp prec) = false.
Proof.
  unfold Mpf.normalize.
  destruct (if 0 <? Mpf.bitcount man - prec then _ else _) as [m e].
  destruct m as [|p|p]; try reflexivity.
  now destruct (Mpf.strip_zeros p).
Qed.

Lemma to_float_not_nan (s : Mpf.mpf) :
  Mpf.is_nan s = false -> F64.is_nan (Mpf.to_float s) = false.
Proof.
  destruct s as [| | | |sign man exp]; try reflexivity; try discriminate.
  intros _. cbn [Mpf.to_float].
  destruct (Mpf.normalize sign (Zpos man) exp 53); try reflexivity.
  apply binary_normalize_not_nan.
Qed.

Lemma abs_not_nan (x : F64.float) : F64.is_nan x = false -> F64.is_nan (F64.abs x) = false.
Proof. now destruct x. Qed.

(** A strictly greater error can be subtracted: the only NaN differences are
    those of equal infinities and of NaNs. *)
Lemma mpf_sub_gt_not_nan (a b : Mpf.mpf) (prec : Z) :
  Mpf.mpf_gt a b = true -> Mpf.is_nan (Mpf.mpf_sub a b prec) = false.
Proof.
  unfold Mpf.mpf_gt, Mpf.mpf_sub.
  destruct a as [| | | |sa ma ea], b as [| | | |sb mb eb]; simpl;
    try discriminate; try reflexivity; intros _; apply normalize_not_nan.
Qed.

Lemma difference_gt_not_nan (a b : Mpf.mpf) (prec : Z) :
  Mpf.mpf_gt a b = true ->
  F64.is_nan (F64.abs (Mpf.to_float (Mpf.mpf_sub a b prec))) = false.
Proof.
  intros H. now apply abs_not_nan, to_float_not_nan, mpf_sub_gt_not_nan.
Qed.

(** ** The reporting step *)

Lemma nth_error_combine_inv {A B : Type} (l1 : list A) (l2 : list B) (k : nat) (a : A) (b : B) :
  nth_error (combine l1 l2) k = Some (a, b) ->
  nth_error l1 k = Some a /\ nth_error l2 k = Some b.
Proof.
  revert l2 k; induction l1 as [|x l1 IH]; intros l2 k H.
  - destruct k; discriminate.
  - destruct l2 as [|y l2]; [destruct k; discriminate|].
    destruct k as [|k]; simpl in *.
    + injection H as -> ->. auto.
    + now apply IH.
Qed.

Lemma entry_broadcast {B : Type} (op : Mpf.mpf -> Mpf.mpf -> B)
  (eo : list Mpf.mpf) (es : list (list Mpf.mpf)) (j k : nat) (v : B) :
  entry (broadcast op eo es) j k = Some v <->
  exists row a b,
    nth_error es j = Some row /\
    nth_error eo k = Some a /\
    nth_error row k = Some b /\
    v = op a b.
Proof.
  split.
  - unfold entry, broadcast. rewrite nth_error_map.
    destruct (nth_error es j) as [row|]; [|discriminate].
    cbn [option_map]. rewrite nth_error_map.
    destruct (nth_error (combine eo row) k) as [[a b]|] eqn:Hk; [|discriminate].
    cbn [option_map]. intros H. injection H as <-.
    apply nth_error_combine_inv in Hk. destruct Hk as [Ha Hb].
    now exists row, a, b.
  - intros [row [a [b [Hrow [Ha [Hb ->]]]]]].
    destruct (broadcast_at op _ _ _ _ _ _ _ Hrow Ha Hb) as [out [H1 H2]].
    unfold entry. now rewrite H1.
Qed.

Lemma mask_select_map {A B : Type} (f : A -> bool) (g : A -> B) (l : list A) :
  mask_select (map f l) (map g l) = map g (filter f l).
Proof.
  unfold mask_select. induction l as [|x l IH]; [reflexivity|].
  cbn [map combine filter fst]. destruct (f x); cbn [map snd]; now rewrite IH.
Qed.

Lemma rmap_nth_error_inv {A B : Type} (f : A -> result B) (xs : list A) (ys : list B) :
  rmap f xs = Ok ys ->
  forall k y, nth_error ys k = Some y ->
  exists x, nth_error xs k = Some x /\ f x = Ok y.
Proof.
  revert ys; induction xs as [|a tl IH]; simpl; intros ys H k y Hk.
  - injection H as <-. destruct k; discriminate.
  - destruct (f a) as [b|] eqn:Hfa; simpl in H; [|discriminate].
    destruct (rmap f tl) as [ys'|]; simpl in H; [|discriminate].
    injection H as <-. destruct k as [|k]; simpl in *.
    + injection Hk as <-. now exists a.
    + now apply (IH ys').
Qed.

(** Row [j] of the report is the (min, max) of the selected differences of
    row [j] of [es]. *)
Lemma report_row (prec : Z) (eo : list Mpf.mpf) (es : list (list Mpf.mpf))
  (pairs : list (F64.float * F64.float)) (j : nat) (lo hi : F64.float) :
  report (difference prec eo es) (worse eo es) = Ok pairs ->
  nth_error pairs j = Some (lo, hi) ->
  exists row,
    nth_error es j = Some row /\
    let sel := map (fun '(a, b) => F64.abs (Mpf.to_float (Mpf.mpf_sub a b prec)))
                   (filter (fun '(a, b) => Mpf.mpf_gt a b) (combine eo row)) in
    np_min sel = Ok lo /\ np_max sel = Ok hi.
Proof.
  intros Hrep Hj. unfold report in Hrep.
  destruct (rmap_nth_error_inv _ _ _ Hrep j (lo, hi) Hj) as [[d w] [Hdw Hmm]].
  apply nth_error_combine_inv in Hdw. destruct Hdw as [Hd Hw].
  unfold difference, worse, broadcast in Hd, Hw.
  rewrite nth_error_map in Hd, Hw.
  destruct (nth_error es j) as [row|]; [|discriminate].
  cbn [option_map] in Hd, Hw. injection Hd as <-. injection Hw as <-.
  exists row. split; [reflexivity|].
  unfold min_max in Hmm. rewrite mask_select_map in Hmm.
  cbv zeta.
  destruct (np_min _) as [lo'|]; cbn [rbind] in Hmm; [|discriminate].
  destruct (np_max _) as [hi'|]; cbn [rbind] in Hmm; [|discriminate].
  injection Hmm as -> ->. auto.
Qed.

Lemma report_length (ds : list (list F64.float)) (ws : list (list bool))
  (pairs : list (F64.float * F64.float)) :
  report ds ws = Ok pairs ->
  length pairs = Nat.min (length ds) (length ws).
Proof.
  unfold report. intros H. apply rmap_length in H. now rewrite length_combine in H.
Qed.

(** The differences selected in row [j] are those of the (order, sample)
    pairs of that row whose mask [worse] holds. *)
Lemma selection_entries (prec : Z) (eo : list Mpf.mpf) (es : list (list Mpf.mpf))
  (j : nat) (row : list Mpf.mpf) (y : F64.float) :
  nth_error es j = Some row ->
  In y (map (fun '(a, b) => F64.abs (Mpf.to_float (Mpf.mpf_sub a b prec)))
            (filter (fun '(a, b) => Mpf.mpf_gt a b) (combine eo row))) <->
  exists k, entry (worse eo es) j k = Some true /\
            entry (difference prec eo es) j k = Some y.
Proof.
  intros Hrow. rewrite in_map_iff. split.
  - intros [[a b] [<- Hin]]. apply filter_In in Hin. destruct Hin as [Hin Hg].
    apply In_nth_error in Hin. destruct Hin as [k Hk].
    apply nth_error_combine_inv in Hk. destruct Hk as [Ha Hb].
    exists k. unfold worse, difference. rewrite !entry_broadcast.
    split; exists row, a, b; repeat split; auto.
  - intros [k [Hw Hd]]. unfold worse, difference in Hw, Hd.
    apply entry_broadcast in Hw. destruct Hw as [row1 [a1 [b1 [Hr1 [Ha1 [Hb1 Hg]]]]]].
    apply entry_broadcast in Hd. destruct Hd as [row2 [a2 [b2 [Hr2 [Ha2 [Hb2 Hy]]]]]].
    assert (row1 = row) by congruence. assert (row2 = row) by congruence. subst row1 row2.
    assert (a2 = a1) by congruence. assert (b2 = b1) by congruence. subst a2 b2.
    exists (a1, b1). split; [now symmetry|].
    apply filter_In. split; [|now symmetry].
    eapply nth_error_In. apply nth_error_combine; eassumption.
Qed.

Lemma selection_not_nan (prec : Z) (l : list (Mpf.mpf * Mpf.mpf)) (y : F64.float) :
  In y (map (fun '(a, b) => F64.abs (Mpf.to_float (Mpf.mpf_sub a b prec)))
            (filter (fun '(a, b) => Mpf.mpf_gt a b) l)) ->
  F64.is_nan y = false.
Proof.
  intros Hy. apply in_map_iff in Hy. destruct Hy as [[a b] [<- Hin]].
  apply filter_In in Hin. destruct Hin as [_ Hg]. now apply difference_gt_not_nan.
Qed.

Lemma report_rows (prec : Z) (eo : list Mpf.mpf) (es : list (list Mpf.mpf))
  (pairs : list (F64.float * F64.float)) :
  report (difference prec eo es) (worse eo es) = Ok pairs ->
  length pairs = length es.
Proof.
  intros Hrep. rewrite (report_length _ _ _ Hrep).
  unfold difference, worse, broadcast. rewrite !length_map. apply Nat.min_id.
Qed.

(** The report is defined exactly when every series order has at least one
    sample classified "series better": [min] and [max] of an empty
    selection raise [ValueError]. *)
Lemma report_defined_iff (prec : Z) (eo : list Mpf.mpf) (es : list (list Mpf.mpf)) :
  (exists pairs,
     report (difference prec eo es) (worse eo es) = Ok pairs) <->
  (forall j, (j < length es)%nat ->
     exists k, entry (worse eo es) j k = Some true).
Proof.
  split.
  - intros [pairs Hrep] j Hj.
    destruct (nth_error pairs j) as [[lo hi]|] eqn:Hp.
    + destruct (report_row _ _ _ _ _ _ _ Hrep Hp) as [row [Hrow [Hmin _]]].
      cbv zeta in Hmin.
      assert (Hin : exists y, In y (map (fun '(a, b) => F64.abs (Mpf.to_float (Mpf.mpf_sub a b prec)))
                        (filter (fun '(a, b) => Mpf.mpf_gt a b) (combine eo row)))).
      { destruct (map _ (filter _ _)) as [|x l]; [discriminate|]. exists x. now left. }
      destruct Hin as [y Hy].
      apply (selection_entries prec eo es j row y Hrow) in Hy.
      destruct Hy as [k [Hk _]]. now exists k.
    + apply nth_error_None in Hp. rewrite (report_rows _ _ _ _ Hrep) in Hp. lia.
  - intros Hall. unfold report. apply rmap_total.
    intros [d w] Hin. apply In_nth_error in Hin. destruct Hin as [j Hj].
    apply nth_error_combine_inv in Hj. destruct Hj as [Hd Hw].
    destruct (Hall j) as [k Hk].
    { apply nth_error_Some. unfold difference, broadcast in Hd.
      rewrite nth_error_map in Hd. destruct (nth_error es j); discriminate. }
    unfold difference, worse in Hd, Hw, Hk.
    apply entry_broadcast in Hk. destruct Hk as [row [a [b [Hrow [Ha [Hb Hg]]]]]].
    unfold broadcast in Hd, Hw. rewrite nth_error_map, Hrow in Hd, Hw.
    cbn [option_map] in Hd, Hw. injection Hd as <-. injection Hw as <-.
    unfold min_max. rewrite mask_select_map.
    assert (Hne : In (F64.abs (Mpf.to_float (Mpf.mpf_sub a b prec)))
                     (map (fun '(a, b) => F64.abs (Mpf.to_float (Mpf.mpf_sub a b prec)))
                          (filter (fun '(a, b) => Mpf.mpf_gt a b) (combine eo row)))).
    { apply in_map_iff. exists (a, b). split; [reflexivity|].
      apply filter_In. split; [|now symmetry].
      eapply nth_error_In. apply nth_error_combine; eassumption. }
    destruct (map _ (filter _ _)) as [|x l]; [destruct Hne|].
    cbn [np_min np_max rbind]. eauto.
Qed.

(** C1 as stated fails: with one order and two samples, the first "direct
    better" and the second "series better", the reported minimum is the
    difference at the second sample and is attained at no "direct better"
    sample. *)
Lemma report_direct_better_counterexample :
  let eo := [Mpf.fin false 1 0; Mpf.fin false 3 0] in
  let es := [[Mpf.fin false 1 1; Mpf.fin false 1 0]] in
  exists lo hi,
    report (difference 53 eo es) (worse eo es) = Ok [(lo, hi)] /\
    ~ (exists k, entry (better eo es) 0 k = Some true /\
                 entry (difference 53 eo es) 0 k = Some lo).
Proof.
  cbv zeta. eexists. eexists. split; [vm_compute; reflexivity|].
  intros [k [Hb Hd]].
  destruct k as [|[|[|k]]]; vm_compute in Hb, Hd; discriminate.
Qed.

(** C1, amended: for every series order [j], the reported pair is the
    minimum and the maximum of the error-difference magnitudes over exactly
    the samples classified "series better" (direct-formula error strictly
    greater than the series error): both are attained at such a sample and
    they bound the difference at every such sample. *)
Theorem report_over_series_better
  (prec : Z) (eo : list Mpf.mpf) (es : list (list Mpf.mpf))
  (pairs : list (F64.float * F64.float)) :
  report (difference prec eo es) (worse eo es) = Ok pairs ->
  length pairs = length es /\
  forall j lo hi, nth_error pairs j = Some (lo, hi) ->
    (exists k, entry (worse eo es) j k = Some true /\
               entry (difference prec eo es) j k = Some lo) /\
    (exists k, entry (worse eo es) j k = Some true /\
               entry (difference prec eo es) j k = Some hi) /\
    (forall k d, entry (worse eo es) j k = Some true ->
                 entry (difference prec eo es) j k = Some d ->
                 F64.leb lo d = true /\ F64.leb d hi = true).
Proof.
  intros Hrep. split; [now apply report_rows in Hrep|].
  intros j lo hi Hj.
  destruct (report_row _ _ _ _ _ _ _ Hrep Hj) as [row [Hrow [Hmin Hmax]]].
  cbv zeta in Hmin, Hmax.
  pose proof (fun y => selection_entries prec eo es j row y Hrow) as Hsel.
  pose proof (selection_not_nan prec (combine eo row)) as Hnan.
  destruct (np_min_spec _ lo Hnan Hmin) as [Hlo_in Hlo].
  destruct (np_max_spec _ hi Hnan Hmax) as [Hhi_in Hhi].
  split; [now apply Hsel|]. split; [now apply Hsel|].
  intros k d Hw Hd.
  assert (Hin : In d (map (fun '(a, b) => F64.abs (Mpf.to_float (Mpf.mpf_sub a b prec)))
                          (filter (fun '(a, b) => Mpf.mpf_gt a b) (combine eo row))))
    by (apply Hsel; eauto).
  auto.
Qed.

Lemma report_over_series_better_witness :
  let eo := [Mpf.fin false 1 0; Mpf.fin false 3 0] in
  let es := [[Mpf.fin false 1 1; Mpf.fin false 1 0]] in
  let pairs := [(S754_finite false 4503599627370496 (-51),
                 S754_finite false 4503599627370496 (-51))] in
  length pairs = length es /\
  forall j lo hi, nth_error pairs j = Some (lo, hi) ->
    (exists k, entry (worse eo es) j k = Some true /\
               entry (difference 53 eo es) j k = Some lo) /\
    (exists k, entry (worse eo es) j k = Some true /\
               entry (difference 53 eo es) j k = Some hi) /\
    (forall k d, entry (worse eo es) j k = Some true ->
                 entry (difference 53 eo es) j k = Some d ->
                 F64.leb lo d = true /\ F64.leb d hi = true).
Proof.
  apply (report_over_series_better 53
           [Mpf.fin false 1 0; Mpf.fin false 3 0]
           [[Mpf.fin false 1 1; Mpf.fin false 1 0]]).
  vm_compute. reflexivity.
Defined.

(** ** Running the notebook again *)

Ltac run_cells :=
  unfold run_all, cell1, cell2, cell3, cell4, cell5, cell6;
  unfold bind, lift, load, ret, set_dps, set_prec, get_prec,
    store_x_range, store_series, store_ref, store_r_orig, store_r_series,
    store_better, store_similar, store_worse;
  cbn [mp_prec nb_x_range nb_series nb_ref nb_r_orig nb_r_series
       nb_better nb_similar nb_worse].

Ltac step_on r :=
  destruct r; [|reflexivity];
  cbn [mp_prec nb_x_range nb_series nb_ref nb_r_orig nb_r_series
       nb_better nb_similar nb_worse].

(** C10: running the whole notebook again gives the same result.  Whatever
    state the interpreter is in when the run starts (the working precision
    of [mp.mp], the names left bound by earlier runs), the run ends with
    the same exception, or with the same outputs, among them the
    (min, max) pairs, and the same final state, among it the masks
    [better], [similar] and [worse], that is the classification label of
    every (order, sample) pair.  In particular a second run, started from
    the state the first one left, repeats it. *)
Theorem run_all_deterministic (L : libm) (st1 st2 : notebook) :
  run_all L st1 = run_all L st2 /\
  (forall out st', run_all L st1 = Ok (out, st') -> run_all L st' = Ok (out, st')).
Proof.
  assert (Hany : forall a b : notebook, run_all L a = run_all L b).
  { intros a b. run_cells.
    step_on (x_range L).
    step_on (series N).
    match goal with |- context [ref L ?p ?x] => step_on (ref L p x) end.
    match goal with |- context [match ?r with [] => _ | _ :: _ => _ end] =>
      destruct r; [reflexivity|] end.
    cbn [mp_prec nb_x_range nb_series nb_ref nb_r_orig nb_r_series
         nb_better nb_similar nb_worse].
    match goal with |- context [report ?d ?w] => step_on (report d w) end.
    match goal with |- context [yticks ?y] => step_on (yticks y) end.
    reflexivity. }
  split; [apply Hany|].
  intros out st' H. now rewrite (Hany st' st1).
Qed.

(** ** The accuracy of the quotient [1 / n] *)

(** Rounding to nearest: the rounded quotient is within half a unit of the
    exact one. *)
Lemma round_div_half (n : positive) (P : Z) :
  0 <= P ->
  2 * Z.abs (round_nearest_even (P / Zpos n) (new_location (Zpos n) (P mod Zpos n)) * Zpos n - P)
  <= Zpos n.
Proof.
  intros HP.
  pose proof (Z.div_mod P (Zpos n) ltac:(lia)) as Hdm.
  pose proof (Z.mod_pos_bound P (Zpos n) ltac:(lia)) as Hr.
  set (q := P / Zpos n) in *. set (r := P mod Zpos n) in *.
  unfold new_location, new_location_even, new_location_odd.
  destruct (Z.even (Zpos n)) eqn:Hev.
  - destruct (Z.eqb_spec r 0) as [Hr0|Hr0]; cbn [round_nearest_even]; [nia|].
    destruct (Z.compare_spec (2 * r) (Zpos n)) as [Heq|Hlt|Hgt]; [|nia|nia].
    destruct (Z.even q); nia.
  - destruct (Z.eqb_spec r 0) as [Hr0|Hr0]; cbn [round_nearest_even]; [nia|].
    destruct (Z.compare_spec (2 * r + 1) (Zpos n)) as [Heq|Hlt|Hgt]; [nia|nia|].
    assert (2 * r <> Zpos n).
    { intros Heq. apply (f_equal Z.even) in Heq.
      rewrite Z.even_mul, Hev in Heq. discriminate. }
    nia.
Qed.

Lemma dyadic_eq (m1 e1 m2 e2 e : Z) :
  e <= e1 -> e <= e2 ->
  m1 * 2 ^ (e1 - e) = m2 * 2 ^ (e2 - e) ->
  (dyadic m1 e1 == dyadic m2 e2)%Q.
Proof.
  intros H1 H2 Heq.
  destruct (Qlt_le_dec (dyadic m1 e1) (dyadic m2 e2)) as [Hlt|Hle].
  - apply (dyadic_lt _ _ _ _ e H1 H2) in Hlt. lia.
  - apply Qle_lteq in Hle. destruct Hle as [Hlt|Heq']; [|now symmetry].
    apply (dyadic_lt _ _ _ _ e H2 H1) in Hlt. lia.
Qed.

(** The value of the quotient is the rounded integer quotient, scaled. *)
Lemma SFdiv_one_value (s : bool) (n : positive) :
  (F64.to_Q (F64.div (S754_finite s 1 0) (S754_finite false n 0))
   == dyadic (signed s (round_nearest_even (2 ^ (- div_exp n) / Zpos n)
                          (new_location (Zpos n) (2 ^ (- div_exp n) mod Zpos n))))
             (div_exp n))%Q.
Proof.
  rewrite SFdiv_one.
  pose proof (div_quot_bounds n) as Hq.
  pose proof (round_nearest_even_bounds (2 ^ (- div_exp n) / Zpos n)
                (new_location (Zpos n) (2 ^ (- div_exp n) mod Zpos n))) as Hm.
  destruct (round_nearest_even _ _) as [|p|p]; [| |lia].
  - cbn [F64.to_Q]. replace (signed s 0) with 0 by (now destruct s).
    symmetry. apply dyadic_0.
  - destruct (Z.eqb_spec (Zpos p) (2 ^ 53)) as [H53|H53]; cbn [F64.to_Q]; [|reflexivity].
    apply (dyadic_eq _ _ _ _ (div_exp n)); try lia.
    rewrite H53, Z.sub_diag.
    replace (div_exp n + 1 - div_exp n) with 1 by lia.
    destruct s; reflexivity.
Qed.

Lemma abs_signed_diff (s : bool) (a b c : Z) :
  Z.abs (signed s a * b + - signed s 1 * c) = Z.abs (a * b - c).
Proof. destruct s; unfold signed; lia. Qed.

Lemma div_exp_scale (n : positive) :
  2 * 2 ^ (- div_exp n) = 2 ^ 1075 \/
  (exists D, Zpos n < D /\ 2 * 2 ^ (- div_exp n) = 2 ^ 53 * D).
Proof.
  unfold div_exp.
  destruct (Z_le_gt_dec (-52 - Zpos (digits2_pos n)) (-1074)) as [Hle|Hgt].
  - left. rewrite Z.max_r by lia. reflexivity.
  - right. rewrite Z.max_l by lia.
    exists (2 ^ Zpos (digits2_pos n)). split; [apply digits2_pos_bounds|].
    replace (- (-52 - Zpos (digits2_pos n))) with (52 + Zpos (digits2_pos n)) by lia.
    rewrite Z.pow_add_r by lia.
    change (2 ^ 53) with (2 * 2 ^ 52). ring.
Qed.

(** The correctly rounded quotient of [1] or [-1] by [n] meets the standard
    model. *)
Lemma SFdiv_one_tolerance (s : bool) (n : positive) :
  within_tolerance (F64.div (S754_finite s 1 0) (S754_finite false n 0))
                   (Qmake (signed s 1) n).
Proof.
  unfold within_tolerance. rewrite SFdiv_one_value.
  pose proof (div_exp_bounds n) as He.
  pose proof (round_div_half n (2 ^ (- div_exp n)) ltac:(apply Z.pow_nonneg; lia)) as Hhalf.
  pose proof (div_exp_scale n) as Hscale.
  set (m1 := round_nearest_even _ _) in *.
  destruct (div_exp n) as [|p|p] eqn:Ee; try lia.
  cbn [dyadic]. change (- Zneg p) with (Zpos p) in *.
  assert (HP : Zpos (2 ^ p) = 2 ^ Zpos p) by apply Pos2Z.inj_pow.
  apply (Qle_trans _ (Qmake 1 (2 * 2 ^ p))).
  - unfold Qminus, Qplus, Qopp, Qabs, Qle. cbn [Qnum Qden].
    rewrite abs_signed_diff, !Pos2Z.inj_mul, HP.
    assert (0 < 2 ^ Zpos p) by (apply pow2_pos; lia).
    change (Zpos 2) with 2. nia.
  - unfold unit_roundoff, half_subnormal, Qmult, Qplus, Qabs, Qle. cbn [Qnum Qden].
    rewrite !Pos2Z.inj_mul, !Pos2Z.inj_pow.
    replace (Z.abs (signed s 1)) with 1 by (now destruct s).
    change (Zpos 2) with 2. change (Zpos 53) with 53. change (Zpos 1075) with 1075.
    assert (HU : 0 < 2 ^ 53) by (apply pow2_pos; lia).
    assert (HV : 0 < 2 ^ 1075) by (apply pow2_pos; lia).
    assert (Hn : 0 < Zpos n) by lia.
    clear Hhalf HP. clearbody m1. clear m1 He Ee.
    set (U := 2 ^ 53) in *. set (V := 2 ^ 1075) in *.
    set (PP := 2 ^ Zpos p) in *. set (N := Zpos n) in *.
    clearbody U V PP N.
    destruct Hscale as [Hs|[D [HD Hs]]]; rewrite Hs.
    + assert (0 <= V * V) by nia. nia.
    + assert (0 <= U * V * (D - N)) by (apply Z.mul_nonneg_nonneg; nia).
      assert (0 <= U * N * (U * D)) by (apply Z.mul_nonneg_nonneg; nia).
      nia.
Qed.

(** ** The coefficients of the generated polynomials *)

Lemma poly_of_prefix_trimmed (sc : list F64.float) (m : nat) :
  (m < length sc)%nat ->
  F64.eqb (nth 0 sc F64.zero) F64.zero = false ->
  let p := np_poly1d (rev (firstn (S m) sc)) in
  forall k, poly_order p < k <= Z.of_nat m ->
    F64.eqb (nth (Z.to_nat k) sc F64.zero) F64.zero = true.
Proof.
  intros Hm H0 p k Hk.
  set (l := firstn (S m) sc) in *.
  assert (Hl : length l = S m) by (unfold l; rewrite length_firstn; lia).
  assert (Hne : trim_zeros (rev l) <> []).
  { destruct sc as [|x tl]; [simpl in Hm; lia|].
    unfold l. cbn [firstn rev]. now apply trim_zeros_last. }
  assert (Hc : coeffs p = trim_zeros (rev l)) by (now apply np_poly1d_coeffs).
  destruct (trim_zeros_suffix (rev l)) as [zs [Hsplit Hzs]].
  assert (Hlen : (length zs + length (coeffs p) = S m)%nat).
  { rewrite Hc, <- length_app, <- Hsplit, length_rev. exact Hl. }
  unfold poly_order in Hk.
  set (j := (m - Z.to_nat k)%nat).
  assert (Hj : (j < length zs)%nat) by (unfold j; lia).
  assert (Hnth : nth j (rev l) F64.zero = nth (Z.to_nat k) sc F64.zero).
  { rewrite rev_nth by (rewrite Hl; unfold j; lia).
    unfold l at 2. rewrite nth_firstn.
    replace (length l - S j)%nat with (Z.to_nat k) by (rewrite Hl; unfold j; lia).
    destruct (Nat.ltb_spec (Z.to_nat k) (S m)); [reflexivity | lia]. }
  rewrite <- Hnth, Hsplit, app_nth1 by assumption.
  apply Hzs, nth_In, Hj.
Qed.

Lemma eqb_zero_value (x : F64.float) :
  F64.eqb x F64.zero = true -> F64.to_Q x = 0%Q.
Proof. destruct x as [s|s| |s m e]; try reflexivity; destruct s; discriminate. Qed.

Lemma exact_coef_signed (i : Z) (f : positive) :
  0 <= i -> fact_nat (Z.to_nat (2 * i + 1)) = Zpos f ->
  exact_coef i = Qmake (signed (Z.odd i) 1) f.
Proof.
  intros Hi Hf. unfold exact_coef. rewrite Hf, (pow_m1 i Hi).
  now destruct (Z.odd i).
Qed.

(** Every Taylor coefficient that is computed meets the standard model. *)
Lemma taylor_coef_tolerance (i : Z) (c : F64.float) :
  0 <= i -> taylor_coef i = Ok c -> within_tolerance c (exact_coef i).
Proof.
  intros Hi Hc.
  destruct (taylor_coef_div i Hi) as [f [Hf Hdiv]].
  rewrite Hdiv in Hc. injection Hc as <-.
  rewrite (exact_coef_signed i f Hi Hf).
  apply SFdiv_one_tolerance.
Qed.

(** C6: in every polynomial generated by the series builder, for whatever
    bound [n], the coefficient of each odd power is zero, and the
    coefficient of [x^(2i)], for [i] from 0 to the polynomial's order, is
    [(-1)^i / (2i+1)!] within the tolerance of a correctly rounded binary64
    (relative error at most [2^-53], or absolute error at most [2^-1075]
    where the quotient underflows). *)
Theorem series_coefficients (n : Z) (ps : list poly1d) (o : Z) (p : poly1d) :
  series n = Ok ps ->
  1 <= o ->
  nth_error ps (Z.to_nat (o - 1)) = Some p ->
  (forall k, Z.odd k = true -> poly_getitem p k = F64.zero) /\
  (forall i, 0 <= i <= o -> within_tolerance (poly_getitem p (2 * i)) (exact_coef i)).
Proof.
  intros Hps Ho Hp.
  assert (Hon : o <= n - 1).
  { unfold series in Hps. destruct (series_coef n) as [sc0|]; cbn [rbind] in Hps; [|discriminate].
    injection Hps as Hps.
    assert (Hlt : (Z.to_nat (o - 1) < length ps)%nat)
      by (apply nth_error_Some; congruence).
    rewrite <- Hps, length_map, range_length in Hlt. lia. }
  destruct (series_coef_spec n ltac:(lia)) as [sc [Hsc [Hlen [Heven Hodd]]]].
  destruct (series_nth n sc o Hsc ltac:(lia)) as [ps' [Hps' [_ Hnth]]].
  assert (ps' = ps) by congruence. subst ps'.
  assert (Hpe : p = np_poly1d (rev (firstn (S (Z.to_nat (2 * o))) sc))).
  { rewrite getitem_down_firstn in Hnth by lia.
    replace (Z.to_nat (2 * o + 1)) with (S (Z.to_nat (2 * o))) in Hnth by lia.
    congruence. }
  assert (H0 : nth 0 sc F64.zero = F64.one).
  { pose proof (Heven 0 ltac:(lia)) as H. rewrite taylor_coef_0 in H.
    change (Z.to_nat (2 * 0)) with 0%nat in H. congruence. }
  assert (H0' : F64.eqb (nth 0 sc F64.zero) F64.zero = false) by (now rewrite H0).
  pose proof (poly_of_prefix sc (Z.to_nat (2 * o)) ltac:(lia) H0') as Hin.
  pose proof (poly_of_prefix_trimmed sc (Z.to_nat (2 * o)) ltac:(lia) H0') as Hout.
  cbv zeta in Hin, Hout. rewrite <- Hpe, Z2Nat.id in Hin, Hout by lia.
  destruct Hin as [Hord Hget].
  split.
  - intros k Hk.
    destruct (Z_lt_le_dec k 0) as [Hneg|Hnn].
    { unfold poly_getitem. destruct (Z.ltb_spec k 0); [|lia]. now rewrite orb_true_r. }
    destruct (Z_lt_le_dec (poly_order p) k) as [Hbig|Hsmall].
    { unfold poly_getitem. destruct (Z.ltb_spec (poly_order p) k); [reflexivity|lia]. }
    rewrite Hget by lia.
    pose proof (Zdiv2_odd_eqn k) as E. rewrite Hk in E.
    rewrite E. apply Hodd. lia.
  - intros i Hi.
    pose proof (taylor_coef_tolerance i (nth (Z.to_nat (2 * i)) sc F64.zero)
                  ltac:(lia) (Heven i ltac:(lia))) as Htol.
    destruct (Z_lt_le_dec (poly_order p) (2 * i)) as [Hbig|Hsmall].
    + pose proof (Hout (2 * i) ltac:(lia)) as Hz. apply eqb_zero_value in Hz.
      unfold within_tolerance in *.
      unfold poly_getitem. destruct (Z.ltb_spec (poly_order p) (2 * i)); [|lia].
      cbn [orb]. change (F64.to_Q F64.zero) with 0%Q. now rewrite <- Hz.
    + now rewrite Hget by lia.
Qed.

Lemma series_coefficients_witness :
  let p := Poly1d [S754_finite true 6004799503160661 (-55); S754_zero false;
                   S754_finite false 4503599627370496 (-52)] in
  (forall k, Z.odd k = true -> poly_getitem p k = F64.zero) /\
  (forall i, 0 <= i <= 1 -> within_tolerance (poly_getitem p (2 * i)) (exact_coef i)).
Proof.
  apply (series_coefficients 2
           [Poly1d [S754_finite true 6004799503160661 (-55); S754_zero false;
                    S754_finite false 4503599627370496 (-52)]] 1);
    [vm_compute; reflexivity | lia | reflexivity].
Defined.

(** ** The reference evaluator and the sampling grid *)

Lemma normalize_regular (sign : bool) (m : positive) (exp prec : Z) :
  1 <= prec ->
  exists sign' m' exp', Mpf.normalize sign (Zpos m) exp prec = Mpf.fin sign' m' exp'.
Proof.
  intros Hprec. unfold Mpf.normalize, Mpf.bitcount. cbn [Zdigits2].
  pose proof (digits2_pos_bounds m) as [Hlo _].
  set (bc := Zpos (digits2_pos m)) in *.
  assert (Hpos : forall man e, 0 < man ->
            exists sign' m' exp',
              match man with
              | Zpos p => let '(m0, t) := Mpf.strip_zeros p in Mpf.fin sign m0 (e + t)
              | _ => Mpf.fzero
              end = Mpf.fin sign' m' exp').
  { intros man e Hman. destruct man as [|p|p]; try lia.
    destruct (Mpf.strip_zeros p) as [m0 t]. eauto. }
  destruct (Z.ltb_spec 0 (bc - prec)) as [Hn|Hn]; [|apply (Hpos (Zpos m) exp); lia].
  assert (Hshift : 1 <= Z.shiftr (Z.shiftr (Zpos m) (bc - prec - 1)) 1).
  { rewrite Z.shiftr_shiftr by lia.
    replace (bc - prec - 1 + 1) with (bc - prec) by lia.
    rewrite Z.shiftr_div_pow2 by lia.
    apply Z.div_le_lower_bound; [apply pow2_pos; lia|].
    rewrite Z.mul_1_r.
    apply (Z.le_trans _ (2 ^ (bc - 1))); [|assumption].
    apply Z.pow_le_mono_r; lia. }
  destruct (Z.odd _ && _);
    [apply (Hpos (Z.shiftr (Z.shiftr (Zpos m) (bc - prec - 1)) 1 + 1) (exp + (bc - prec)))
    |apply (Hpos (Z.shiftr (Z.shiftr (Zpos m) (bc - prec - 1)) 1) (exp + (bc - prec)))]; lia.
Qed.

Lemma mp_mpf_nonzero (prec : Z) (z : F64.float) :
  1 <= prec -> F64.eqb z F64.zero = false -> mp_mpf prec z <> Mpf.fzero.
Proof.
  intros Hprec Hz. unfold mp_mpf.
  destruct z as [s|s| |s m e].
  - destruct s; discriminate.
  - destruct s; discriminate.
  - discriminate.
  - cbn [Mpf.from_float].
    destruct (normalize_regular s m e 53 ltac:(lia)) as [s1 [m1 [e1 H1]]].
    rewrite H1. cbn [Mpf.mpf_pos].
    destruct (normalize_regular s1 m1 e1 prec Hprec) as [s2 [m2 [e2 H2]]].
    rewrite H2. discriminate.
Qed.

Lemma mpf_div_defined (s t : Mpf.mpf) (prec : Z) :
  t <> Mpf.fzero -> exists q, Mpf.mpf_div s t prec = Ok q.
Proof.
  intros Ht.
  destruct s as [| | | |ss sm se], t as [| | | |ts tm te]; try congruence;
    cbn [Mpf.mpf_div]; eauto.
  destruct (Pos.eqb tm 1); eauto.
  destruct (Z.div_eucl _ _) as [quot rem].
  destruct (rem =? 0); eauto.
Qed.

(** The reference evaluator divides by zero only at a sample equal to
    zero. *)
Lemma ref_defined (L : libm) (prec : Z) (xs : list F64.float) :
  1 <= prec ->
  (forall z, In z xs -> F64.eqb z F64.zero = false) ->
  exists r, ref L prec xs = Ok r.
Proof.
  intros Hprec Hnz. unfold ref. apply rmap_total.
  intros z Hz. cbv zeta. apply mpf_div_defined, mp_mpf_nonzero; auto.
Qed.

(** The exponents handed to [np.power] are fifty finite numbers between
    -10 and 0. *)
Lemma linspace_grid :
  exists y, linspace (F64.of_Z (-10)) (F64.of_Z 0) 50 = Ok y /\
            length y = 50%nat /\
            forall v, In v y ->
              F64.leb (F64.of_Z (-10)) v = true /\ F64.leb v (F64.of_Z 0) = true.
Proof.
  eexists. split; [vm_compute; reflexivity|]. split; [reflexivity|].
  intros v Hv. repeat (destruct Hv as [<-|Hv]; [vm_compute; split; reflexivity|]).
  destruct Hv.
Qed.

Lemma x_range_length (L : libm) :
  exists xr, x_range L = Ok xr /\ length xr = 50%nat.
Proof.
  destruct linspace_grid as [y [Hy [Hlen _]]].
  unfold x_range, logspace. rewrite Hy. cbn [rbind]. eexists. split; [reflexivity|].
  now rewrite length_map.
Qed.

(** ** Division by zero in a run *)

Lemma rmap_raise {A B : Type} (f : A -> result B) (xs : list A) (e : exn) :
  rmap f xs = Raise e -> exists x, In x xs /\ f x = Raise e.
Proof.
  induction xs as [|a tl IH]; simpl; intros H; [discriminate|].
  destruct (f a) as [y|e'] eqn:Hfa; cbn [rbind] in H.
  - destruct (rmap f tl) as [ys|e'']; cbn [rbind] in H; [discriminate|].
    injection H as ->. destruct (IH eq_refl) as [x [Hx Hfx]]. eauto.
  - injection H as ->. eauto.
Qed.

Lemma mpf_div_raise (s t : Mpf.mpf) (prec : Z) (e : exn) :
  Mpf.mpf_div s t prec = Raise e -> t = Mpf.fzero.
Proof.
  intros H.
  assert (Hdec : t = Mpf.fzero \/ t <> Mpf.fzero)
    by (destruct t; [now left | right; discriminate ..]).
  destruct Hdec as [Ht|Ht]; [assumption|].
  destruct (mpf_div_defined s t prec Ht) as [q Hq]. congruence.
Qed.

Lemma ref_raise (L : libm) (prec : Z) (xs : list F64.float) (e : exn) :
  1 <= prec ->
  ref L prec xs = Raise e ->
  exists z, In z xs /\ F64.eqb z F64.zero = true.
Proof.
  intros Hprec H. apply rmap_raise in H. destruct H as [z [Hz Hdiv]].
  exists z. split; [assumption|].
  cbv zeta in Hdiv. apply mpf_div_raise in Hdiv.
  destruct (F64.eqb z F64.zero) eqn:Hz0; [reflexivity|].
  now apply (mp_mpf_nonzero prec z Hprec) in Hz0.
Qed.

Lemma report_raise (ds : list (list F64.float)) (ws : list (list bool)) (e : exn) :
  report ds ws = Raise e -> e = ValueError.
Proof.
  intros H. apply rmap_raise in H. destruct H as [[d w] [_ H]].
  unfold min_max in H.
  destruct (mask_select w d) as [|x l]; cbn [np_min np_max rbind] in H;
    [now injection H | discriminate].
Qed.

Lemma yticks_raise (rows : list (list Z)) (e : exn) :
  yticks rows = Raise e -> e = IndexError.
Proof.
  intros H. apply rmap_raise in H. destruct H as [[|v y] [_ H]];
    [now injection H | discriminate].
Qed.

(** A run of the notebook ends in [ZeroDivisionError] only if one of the
    fifty samples returned by [np.power] is zero. *)
Lemma zero_division_needs_zero_sample (L : libm) (st : notebook) :
  run_all L st = Raise ZeroDivisionError ->
  exists xr z, x_range L = Ok xr /\ In z xr /\ F64.eqb z F64.zero = true.
Proof.
  destruct (x_range_length L) as [xr [Hxr _]].
  destruct series_N_coefficient_counts as [ps [Hps _]].
  run_cells. rewrite Hxr, Hps.
  cbn [mp_prec nb_x_range nb_series nb_ref nb_r_orig nb_r_series
       nb_better nb_similar nb_worse].
  destruct (ref L (Mpf.dps_to_prec dps) xr) as [r|e] eqn:Href.
  - destruct r as [|r0 r]; [discriminate|].
    cbn [mp_prec nb_x_range nb_series nb_ref nb_r_orig nb_r_series
         nb_better nb_similar nb_worse].
    match goal with |- context [report ?d ?w] =>
      destruct (report d w) as [pairs|e] eqn:Hrep end.
    + cbn [mp_prec nb_x_range nb_series nb_ref nb_r_orig nb_r_series
           nb_better nb_similar nb_worse].
      match goal with |- context [yticks ?y] =>
        destruct (yticks y) as [t|e] eqn:Ht end; [discriminate|].
      apply yticks_raise in Ht. subst e. discriminate.
    + apply report_raise in Hrep. subst e. discriminate.
  - intros _. apply ref_raise in Href; [|vm_compute; discriminate].
    destruct Href as [z [Hz Hz0]]. exists xr, z. split; [reflexivity|]. split; assumption.
Qed.

(** ** One run by computation *)

(** With the stand-in primitives every cell runs: seven (min, max) pairs
    are reported, the working precision ends at 3325 bits (1000 decimal
    digits) and the rows of the plot sit at 3, 5, .., 15. *)
Example run_all_stand_in :
  exists out st',
    run_all stand_in fresh = Ok (out, st') /\
    length (out_pairs out) = 7%nat /\
    mp_prec st' = 3325 /\
    snd (out_plot out) = [3; 5; 7; 9; 11; 13; 15].
Proof. eexists. eexists. split; [vm_compute; reflexivity|]. repeat split. Qed.

(** The constant printed by cell 5 is [2^-53], the unit roundoff. *)
Lemma half_epsilon_value : (F64.to_Q half_epsilon == unit_roundoff)%Q.
Proof. vm_compute. reflexivity. Qed.

(** * Further properties of the code *)

(** ** The first exception of a comprehension *)

Lemma rmap_raise_at {A B : Type} (f : A -> result B) (xs : list A) (x : A) (e : exn) :
  In x xs -> f x = Raise e -> exists e', rmap f xs = Raise e'.
Proof.
  induction xs as [|a tl IH]; intros Hin Hx; [destruct Hin|].
  cbn [rmap]. destruct (f a) as [y|e'] eqn:Hfa; cbn [rbind]; [|eauto].
  destruct Hin as [->|Hin]; [congruence|].
  destruct (IH Hin Hx) as [e'' He'']. rewrite He''. cbn [rbind]. eauto.
Qed.

Lemma mpf_div_raise_exn (s t : Mpf.mpf) (prec : Z) (e : exn) :
  Mpf.mpf_div s t prec = Raise e -> e = ZeroDivisionError.
Proof.
  destruct s as [| | | |ss sm se], t as [| | | |ts tm te];
    cbn [Mpf.mpf_div]; intros H; try discriminate; try (now injection H).
  destruct (Pos.eqb tm 1); [discriminate|].
  destruct (Z.div_eucl _ _) as [quot rem].
  destruct (rem =? 0); discriminate.
Qed.

Lemma mp_mpf_zero (prec : Z) (z : F64.float) :
  F64.eqb z F64.zero = true -> mp_mpf prec z = Mpf.fzero.
Proof.
  destruct z as [s|s| |s m e]; try (destruct s; discriminate); try discriminate.
  reflexivity.
Qed.

Lemma mpf_div_by_zero (s : Mpf.mpf) (prec : Z) :
  Mpf.mpf_div s Mpf.fzero prec = Raise ZeroDivisionError.
Proof. destruct s; reflexivity. Qed.

(** X1: the reference evaluator ([ref = [mp.sin(x)/x ...]]) fails exactly
    when one of the samples is a zero (of either sign), and then with
    [ZeroDivisionError], whatever [mp.sin] returns; at every other sample
    set it returns a list. *)
Theorem ref_zero_division (L : libm) (prec : Z) (xs : list F64.float) :
  1 <= prec ->
  ((exists e, ref L prec xs = Raise e) <->
   (exists z, In z xs /\ F64.eqb z F64.zero = true)) /\
  (forall e, ref L prec xs = Raise e -> e = ZeroDivisionError).
Proof.
  intros Hprec. split; [split|].
  - intros [e He]. now apply (ref_raise L prec xs e).
  - intros [z [Hz Hz0]]. unfold ref.
    apply (rmap_raise_at _ xs z ZeroDivisionError Hz).
    cbv zeta. rewrite (mp_mpf_zero prec z Hz0). apply mpf_div_by_zero.
  - intros e He. apply rmap_raise in He. destruct He as [z [_ Hz]].
    cbv zeta in Hz. now apply mpf_div_raise_exn in Hz.
Qed.

Lemma ref_zero_division_witness :
  ((exists e, ref stand_in 53 [F64.one; S754_zero true] = Raise e) <->
   (exists z, In z [F64.one; S754_zero true] /\ F64.eqb z F64.zero = true)) /\
  (forall e, ref stand_in 53 [F64.one; S754_zero true] = Raise e -> e = ZeroDivisionError).
Proof.
  apply (ref_zero_division stand_in 53 [F64.one; S754_zero true]). lia.
Defined.

(** X2: the report of cell 4 ([pprint([(d[w].min(), d[w].max()) ...])])
    is printed exactly when every series order has at least one sample at
    which the direct error is strictly greater than the series error; when
    one order has none, the reduction of the empty selection raises, and
    the exception is [ValueError]. *)
Theorem report_needs_a_selection (prec : Z) (eo : list Mpf.mpf) (es : list (list Mpf.mpf)) :
  ((exists pairs, report (difference prec eo es) (worse eo es) = Ok pairs) <->
   (forall j, (j < length es)%nat -> exists k, entry (worse eo es) j k = Some true)) /\
  (forall e, report (difference prec eo es) (worse eo es) = Raise e -> e = ValueError).
Proof.
  split; [apply report_defined_iff|].
  intros e. apply report_raise.
Qed.

(** ** The exceptions of a run *)

Lemma yticks_defined (ps : list poly1d) (xs : list F64.float) :
  xs <> [] -> exists t, yticks (y_data ps xs) = Ok t.
Proof.
  intros Hxs. unfold yticks. apply rmap_total.
  intros y Hy. unfold y_data in Hy. apply in_map_iff in Hy.
  destruct Hy as [p [<- _]].
  destruct xs as [|x xs']; [congruence|]. cbn [length repeat]. eauto.
Qed.

(** X3: a run of the whole notebook, started in any interpreter state and
    with any implementation of [np.sin], [np.power] and [mp.sin], can fail
    in two ways only: with [ZeroDivisionError], and then [np.power] has
    returned a zero among the fifty samples, or with [ValueError].  No
    name is read before it is bound, no index is out of range and the
    series builder neither overflows nor divides by zero.  (The drawing
    calls of matplotlib are not part of a run as it is modelled.) *)
Theorem run_all_exceptions (L : libm) (st : notebook) (e : exn) :
  run_all L st = Raise e ->
  (e = ZeroDivisionError /\
   exists xr z, x_range L = Ok xr /\ In z xr /\ F64.eqb z F64.zero = true) \/
  e = ValueError.
Proof.
  destruct (x_range_length L) as [xr [Hxr Hlen]].
  destruct series_N_coefficient_counts as [ps [Hps _]].
  run_cells. rewrite Hxr, Hps.
  cbn [mp_prec nb_x_range nb_series nb_ref nb_r_orig nb_r_series
       nb_better nb_similar nb_worse].
  destruct (ref L (Mpf.dps_to_prec dps) xr) as [r|e'] eqn:Href.
  - pose proof (rmap_length _ _ _ Href) as Hr.
    destruct r as [|r0 r]; [rewrite Hlen in Hr; discriminate|].
    cbn [mp_prec nb_x_range nb_series nb_ref nb_r_orig nb_r_series
         nb_better nb_similar nb_worse].
    match goal with |- context [report ?d ?w] =>
      destruct (report d w) as [pairs|e'] eqn:Hrep end.
    + cbn [mp_prec nb_x_range nb_series nb_ref nb_r_orig nb_r_series
           nb_better nb_similar nb_worse].
      assert (Hxs : xr <> []) by (destruct xr; [discriminate|congruence]).
      destruct (yticks_defined ps xr Hxs) as [t Ht]. rewrite Ht. discriminate.
    + intros H. right. apply report_raise in Hrep. congruence.
  - intros H. left.
    assert (He : e = e') by congruence. subst e'.
    assert (H1 : 1 <= Mpf.dps_to_prec dps) by (vm_compute; discriminate).
    split.
    + apply rmap_raise in Href. destruct Href as [z [_ Hz]].
      cbv zeta in Hz. now apply mpf_div_raise_exn in Hz.
    + apply ref_raise in Href; [|assumption].
      destruct Href as [z [Hz Hz0]]. exists xr, z.
      split; [reflexivity|]. split; assumption.
Qed.

Lemma run_all_exceptions_witness :
  (ZeroDivisionError = ZeroDivisionError /\
   exists xr z,
     x_range (Libm (fun _ => F64.zero) (fun _ _ => F64.zero) (fun _ x => x)) = Ok xr /\
     In z xr /\ F64.eqb z F64.zero = true) \/
  ZeroDivisionError = ValueError.
Proof.
  apply (run_all_exceptions
           (Libm (fun _ => F64.zero) (fun _ _ => F64.zero) (fun _ x => x))
           fresh ZeroDivisionError).
  vm_compute. reflexivity.
Defined.

(** ** The builder at small [N] *)

(** X4: for [N <= 1], negative values included, the series builder raises
    nothing and builds no polynomial: [series] is the empty list. *)
Theorem series_empty_below_two (n : Z) : n <= 1 -> series n = Ok [].
Proof.
  intros Hn. destruct (Z.eq_dec n 1) as [->|Hne]; [vm_compute; reflexivity|].
  unfold series, series_coef, range, list_mul.
  replace (Z.to_nat (n - 0)) with 0%nat by lia.
  replace (Z.to_nat (2 * n - 1)) with 0%nat by lia.
  replace (Z.to_nat (n - 1)) with 0%nat by lia.
  reflexivity.
Qed.

Lemma series_empty_below_two_witness : series (-3) = Ok [].
Proof. apply (series_empty_below_two (-3)). lia. Defined.

(** ** Evaluating the polynomials *)

Lemma polyval_fold (c : list F64.float) (x : F64.float) :
  polyval c x = fold_left (horner_step x) c F64.zero.
Proof. reflexivity. Qed.

Lemma trim_zeros_hd (c : list F64.float) (x : F64.float) (t : list F64.float) :
  trim_zeros c = x :: t -> F64.eqb x F64.zero = false.
Proof.
  induction c as [|a tl IH]; simpl; [discriminate|].
  destruct (F64.eqb a F64.zero) eqn:Ha; [assumption|].
  intros H. injection H as <- _. assumption.
Qed.

(** Over leading zeros Horner's accumulator stays a zero, or, at a point
    that is an infinity or a NaN, becomes a NaN. *)
Lemma horner_zeros (x : F64.float) (zs : list F64.float) :
  (forall z, In z zs -> F64.eqb z F64.zero = true) ->
  forall y,
  (match y with
   | S754_zero _ => true
   | S754_nan => negb (is_number x)
   | _ => false
   end) = true ->
  (match fold_left (horner_step x) zs y with
   | S754_zero _ => true
   | S754_nan => negb (is_number x)
   | _ => false
   end) = true.
Proof.
  induction zs as [|z tl IH]; intros Hz y Hy; [exact Hy|].
  cbn [fold_left]. apply IH; [intros z' Hz'; apply Hz; now right|].
  assert (Hz0 : F64.eqb z F64.zero = true) by (apply Hz; now left).
  destruct z as [sz|sz| |sz mz ez]; try (destruct sz; discriminate); try discriminate.
  destruct y as [sy|sy| |sy my ey]; try discriminate;
    destruct x as [sx|sx| |sx mx ex]; try discriminate;
    try reflexivity;
    destruct sy, sx, sz; reflexivity.
Qed.

Lemma horner_first (x y c : F64.float) :
  (match y with
   | S754_zero _ => true
   | S754_nan => negb (is_number x)
   | _ => false
   end) = true ->
  F64.eqb c F64.zero = false ->
  horner_step x y c = horner_step x F64.zero c.
Proof.
  intros Hy Hc.
  destruct c as [sc|sc| |sc mc ec]; try (destruct sc; discriminate);
    destruct y as [sy|sy| |sy my ey]; try discriminate;
    destruct x as [sx|sx| |sx mx ex]; try discriminate;
    reflexivity.
Qed.

(** X5: [np.poly1d] drops the leading zero coefficients, and the value of
    the polynomial at any point (a zero, a finite number, an infinity or a
    NaN) is the one Horner's scheme gives on the coefficients as they were
    passed, provided that one of them is not zero. *)
Theorem poly1d_trim_keeps_value (c : list F64.float) (x : F64.float) :
  trim_zeros c <> [] ->
  polyval (coeffs (np_poly1d c)) x = polyval c x.
Proof.
  intros Hne. rewrite np_poly1d_coeffs by assumption.
  destruct (trim_zeros_suffix c) as [zs [Hsplit Hzs]].
  destruct (trim_zeros c) as [|c0 t] eqn:Ht; [congruence|].
  pose proof (trim_zeros_hd c c0 t Ht) as Hc0.
  rewrite Hsplit. rewrite !polyval_fold, fold_left_app.
  cbn [fold_left]. f_equal. symmetry.
  apply horner_first; [|assumption].
  apply horner_zeros; [assumption | reflexivity].
Qed.

Lemma poly1d_trim_keeps_value_witness :
  polyval (coeffs (np_poly1d [S754_zero true; F64.one; F64.zero])) (S754_infinity false)
  = polyval [S754_zero true; F64.one; F64.zero] (S754_infinity false).
Proof.
  apply (poly1d_trim_keeps_value [S754_zero true; F64.one; F64.zero] (S754_infinity false)).
  vm_compute. discriminate.
Defined.

(** ** The polynomials of the series, one by one *)

(** What [series n] holds at position [o - 1]. *)
Lemma series_poly (n : Z) (ps : list poly1d) (o : Z) (p : poly1d) :
  series n = Ok ps ->
  1 <= o ->
  nth_error ps (Z.to_nat (o - 1)) = Some p ->
  o <= n - 1 /\
  exists sc,
    series_coef n = Ok sc /\
    length sc = Z.to_nat (2 * n - 1) /\
    (forall i, 0 <= i < n -> taylor_coef i = Ok (nth (Z.to_nat (2 * i)) sc F64.zero)) /\
    (forall i, 0 <= i -> nth (Z.to_nat (2 * i + 1)) sc F64.zero = F64.zero) /\
    nth 0 sc F64.zero = F64.one /\
    p = np_poly1d (rev (firstn (S (Z.to_nat (2 * o))) sc)).
Proof.
  intros Hps Ho Hp.
  assert (Hon : o <= n - 1).
  { unfold series in Hps. destruct (series_coef n) as [sc0|]; cbn [rbind] in Hps; [|discriminate].
    injection Hps as Hps.
    assert (Hlt : (Z.to_nat (o - 1) < length ps)%nat)
      by (apply nth_error_Some; congruence).
    rewrite <- Hps, length_map, range_length in Hlt. lia. }
  split; [assumption|].
  destruct (series_coef_spec n ltac:(lia)) as [sc [Hsc [Hlen [Heven Hodd]]]].
  destruct (series_nth n sc o Hsc ltac:(lia)) as [ps' [Hps' [_ Hnth]]].
  assert (ps' = ps) by congruence. subst ps'.
  exists sc. do 4 (split; [assumption|]). split.
  - pose proof (Heven 0 ltac:(lia)) as H. rewrite taylor_coef_0 in H.
    change (Z.to_nat (2 * 0)) with 0%nat in H. congruence.
  - rewrite getitem_down_firstn in Hnth by lia.
    replace (Z.to_nat (2 * o + 1)) with (S (Z.to_nat (2 * o))) in Hnth by lia.
    congruence.
Qed.

Lemma In_series (n : Z) (ps : list poly1d) (p : poly1d) :
  series n = Ok ps -> In p ps ->
  exists o, 1 <= o /\ nth_error ps (Z.to_nat (o - 1)) = Some p.
Proof.
  intros _ Hin. apply In_nth_error in Hin. destruct Hin as [j Hj].
  exists (Z.of_nat j + 1). split; [lia|].
  now replace (Z.to_nat (Z.of_nat j + 1 - 1)) with j by lia.
Qed.

(** *** The value at zero *)

Lemma div_one_number (s : bool) (n : positive) :
  is_number (F64.div (S754_finite s 1 0) (S754_finite false n 0)) = true.
Proof.
  rewrite SFdiv_one.
  destruct (round_nearest_even _ _) as [|p|p]; try reflexivity.
  destruct (Zpos p =? 2 ^ 53); reflexivity.
Qed.

Lemma series_coef_numbers (n : Z) (sc : list F64.float) :
  1 <= n ->
  length sc = Z.to_nat (2 * n - 1) ->
  (forall i, 0 <= i < n -> taylor_coef i = Ok (nth (Z.to_nat (2 * i)) sc F64.zero)) ->
  (forall i, 0 <= i -> nth (Z.to_nat (2 * i + 1)) sc F64.zero = F64.zero) ->
  forall c, In c sc -> is_number c = true.
Proof.
  intros Hn Hlen Heven Hodd c Hc.
  destruct (In_nth _ _ F64.zero Hc) as [k [Hk <-]].
  pose proof (Zdiv2_odd_eqn (Z.of_nat k)) as E.
  set (i := Z.div2 (Z.of_nat k)) in *.
  destruct (Z.odd (Z.of_nat k)).
  - replace k with (Z.to_nat (2 * i + 1)) by lia. now rewrite Hodd by lia.
  - replace k with (Z.to_nat (2 * i)) by lia.
    pose proof (Heven i ltac:(lia)) as Hi.
    destruct (taylor_coef_div i ltac:(lia)) as [f [_ Hdiv]].
    rewrite Hdiv in Hi.
    assert (Hx : nth (Z.to_nat (2 * i)) sc F64.zero
                 = F64.div (S754_finite (Z.odd i) 1 0) (S754_finite false f 0))
      by congruence.
    rewrite Hx. apply div_one_number.
Qed.

Lemma trim_zeros_app_last (l : list F64.float) (x : F64.float) :
  F64.eqb x F64.zero = false ->
  exists l', trim_zeros (l ++ [x]) = l' ++ [x] /\ forall c, In c l' -> In c l.
Proof.
  intros Hx. induction l as [|a tl [l' [Hl' Hin]]]; cbn [app trim_zeros].
  - rewrite Hx. exists []. split; [reflexivity | intros c []].
  - destruct (F64.eqb a F64.zero).
    + exists l'. split; [assumption | intros c Hc; right; auto].
    + exists (a :: tl). split; [reflexivity | auto].
Qed.

(** At a zero, Horner's accumulator over coefficients that are numbers
    stays a number. *)
Lemma horner_at_zero (s : bool) (l : list F64.float) :
  (forall c, In c l -> is_number c = true) ->
  forall y, is_number y = true ->
  is_number (fold_left (horner_step (S754_zero s)) l y) = true.
Proof.
  induction l as [|c tl IH]; intros Hl y Hy; [exact Hy|].
  cbn [fold_left]. apply IH; [intros c' Hc'; apply Hl; now right|].
  assert (Hc : is_number c = true) by (apply Hl; now left).
  destruct y as [sy|sy| |sy my ey]; try discriminate;
    destruct c as [sc|sc| |sc mc ec]; try discriminate;
    try reflexivity; destruct sy, s, sc; reflexivity.
Qed.

(** X6: every polynomial of the series, for whatever bound [N], evaluates
    to exactly 1.0 at a sample that is a zero of either sign, the limit of
    sin(x)/x there, while the direct formula [np.sin(x) / x] gives a NaN
    or an infinity at such a sample, whatever [np.sin] returns. *)
Theorem series_value_at_zero (n : Z) (ps : list poly1d) (p : poly1d) (s : bool) :
  series n = Ok ps ->
  In p ps ->
  poly_call p [S754_zero s] = [F64.one] /\
  forall L, exists v, r_orig L [S754_zero s] = [v] /\ is_number v = false.
Proof.
  intros Hps Hin. split.
  - destruct (In_series n ps p Hps Hin) as [o [Ho Hnth]].
    destruct (series_poly n ps o p Hps Ho Hnth)
      as [Hon [sc [Hsc [Hlen [Heven [Hodd [H0 Hp]]]]]]].
    pose proof (series_coef_numbers n sc ltac:(lia) Hlen Heven Hodd) as Hnum.
    destruct sc as [|c0 rest]; [cbn [length] in Hlen; lia|].
    cbn [nth] in H0. subst c0.
    cbn [firstn rev] in Hp.
    destruct (trim_zeros_app_last (rev (firstn (Z.to_nat (2 * o)) rest)) F64.one eq_refl)
      as [l' [Hl' Hsub]].
    assert (Hc : coeffs p = l' ++ [F64.one]).
    { subst p. rewrite np_poly1d_coeffs; [assumption|].
      rewrite Hl'. now destruct l'. }
    unfold poly_call. cbn [map]. f_equal.
    rewrite Hc, polyval_fold, fold_left_app. cbn [fold_left].
    assert (Hacc : is_number (fold_left (horner_step (S754_zero s)) l' F64.zero) = true).
    { apply horner_at_zero; [|reflexivity].
      intros c Hc'. apply Hnum. right.
      apply Hsub, in_rev in Hc'.
      rewrite <- (firstn_skipn (Z.to_nat (2 * o)) rest).
      apply in_or_app. now left. }
    destruct (fold_left _ l' F64.zero) as [sy|sy| |sy my ey]; try discriminate;
      destruct sy, s; reflexivity.
  - intros L. unfold r_orig. cbn [map]. eexists. split; [reflexivity|].
    destruct (np_sin L (S754_zero s)) as [sv|sv| |sv mv ev]; reflexivity.
Qed.

Lemma series_value_at_zero_witness :
  poly_call (Poly1d [S754_finite true 6004799503160661 (-55); S754_zero false;
                     S754_finite false 4503599627370496 (-52)]) [S754_zero true]
  = [F64.one] /\
  forall L, exists v, r_orig L [S754_zero true] = [v] /\ is_number v = false.
Proof.
  apply (series_value_at_zero 2
           [Poly1d [S754_finite true 6004799503160661 (-55); S754_zero false;
                    S754_finite false 4503599627370496 (-52)]]);
    [vm_compute; reflexivity | left; reflexivity].
Defined.

(** *** The degree *)

Lemma fact_nat_mono (a b : nat) : (a <= b)%nat -> fact_nat a <= fact_nat b.
Proof.
  induction 1 as [|b Hab IH]; [lia|].
  pose proof (fact_nat_pos b). change (fact_nat (S b)) with (Z.of_nat (S b) * fact_nat b).
  nia.
Qed.

(** Below [2^-1075] a quotient [1 / n] is rounded to zero. *)
Lemma div_one_underflow (s : bool) (n : positive) :
  2 ^ 1075 < Zpos n ->
  F64.div (S754_finite s 1 0) (S754_finite false n 0) = S754_zero s.
Proof.
  intros Hn. rewrite SFdiv_one.
  assert (He : div_exp n = -1074).
  { unfold div_exp. pose proof (digits2_pos_bounds n) as [_ Hhi].
    destruct (Z_le_gt_dec (Zpos (digits2_pos n)) 1075) as [Hle|Hgt]; [exfalso|lia].
    pose proof (Z.pow_le_mono_r 2 _ _ ltac:(lia) Hle). lia. }
  rewrite He. change (- -1074) with 1074.
  pose proof (round_div_half n (2 ^ 1074) ltac:(lia)) as Hhalf.
  pose proof (round_nearest_even_bounds (2 ^ 1074 / Zpos n)
                (new_location (Zpos n) (2 ^ 1074 mod Zpos n))) as Hb.
  assert (Hq : 2 ^ 1074 / Zpos n = 0).
  { apply Z.div_small. split; [lia|].
    apply (Z.lt_trans _ (2 ^ 1075)); [|assumption].
    apply Z.pow_lt_mono_r; lia. }
  rewrite Hq in *.
  set (r := round_nearest_even 0 (new_location (Zpos n) (2 ^ 1074 mod Zpos n))) in *.
  assert (Hr : r = 0).
  { assert (Hpow : 2 ^ 1075 = 2 * 2 ^ 1074) by reflexivity.
    set (P := 2 ^ 1074) in *. clearbody P.
    destruct (Z.eq_dec r 0) as [|Hne]; [assumption|exfalso].
    assert (H1 : r = 1) by lia. rewrite H1 in Hhalf. lia. }
  now rewrite Hr.
Qed.

Lemma taylor_coef_underflow (i : Z) (c : F64.float) :
  89 <= i -> taylor_coef i = Ok c -> F64.eqb c F64.zero = true.
Proof.
  intros Hi Hc.
  destruct (taylor_coef_div i ltac:(lia)) as [f [Hf Hdiv]].
  rewrite Hdiv in Hc.
  rewrite div_one_underflow in Hc.
  - assert (Hx : c = S754_zero (Z.odd i)) by congruence. now rewrite Hx.
  - rewrite <- Hf.
    apply (Z.lt_le_trans _ (fact_nat 179)); [vm_compute; reflexivity|].
    apply fact_nat_mono. lia.
Qed.

Lemma taylor_coef_regular (i : Z) (c : F64.float) :
  0 <= i <= 88 -> taylor_coef i = Ok c -> F64.eqb c F64.zero = false.
Proof.
  intros Hi Hc.
  assert (Hall : forallb (fun i => match taylor_coef i with
                                   | Ok c => negb (F64.eqb c F64.zero)
                                   | Raise _ => false
                                   end) (range 0 89) = true)
    by (vm_compute; reflexivity).
  rewrite forallb_forall in Hall.
  specialize (Hall i ltac:(apply range_In; lia)).
  rewrite Hc in Hall. now apply negb_true_iff in Hall.
Qed.

(** The leading coefficient that [np.poly1d] keeps is not zero. *)
Lemma poly_of_prefix_leading (sc : list F64.float) (m : nat) :
  (m < length sc)%nat ->
  F64.eqb (nth 0 sc F64.zero) F64.zero = false ->
  let p := np_poly1d (rev (firstn (S m) sc)) in
  F64.eqb (nth (Z.to_nat (poly_order p)) sc F64.zero) F64.zero = false.
Proof.
  intros Hm H0 p.
  pose proof (poly_of_prefix sc m Hm H0) as [Hord Hget]. fold p in Hord, Hget.
  rewrite <- Hget by lia.
  assert (Hne : trim_zeros (rev (firstn (S m) sc)) <> []).
  { destruct sc as [|x tl]; [simpl in Hm; lia|].
    cbn [firstn rev]. now apply trim_zeros_last. }
  assert (Hc : coeffs p = trim_zeros (rev (firstn (S m) sc)))
    by (now apply np_poly1d_coeffs).
  unfold poly_getitem.
  destruct (Z.ltb_spec (poly_order p) (poly_order p)); [lia|].
  destruct (Z.ltb_spec (poly_order p) 0); [lia|]. cbn [orb].
  rewrite Z.sub_diag. change (Z.to_nat 0) with 0%nat. rewrite Hc.
  destruct (trim_zeros (rev (firstn (S m) sc))) as [|x t] eqn:Ht; [congruence|].
  cbn [nth]. exact (trim_zeros_hd _ _ _ Ht).
Qed.

(** The degree of the polynomial at position [o - 1] of [series n]. *)
Lemma series_degree (n : Z) (ps : list poly1d) (o : Z) (p : poly1d) :
  series n = Ok ps ->
  1 <= o ->
  nth_error ps (Z.to_nat (o - 1)) = Some p ->
  poly_order p = 2 * Z.min o 88.
Proof.
  intros Hps Ho Hnth.
  destruct (series_poly n ps o p Hps Ho Hnth)
    as [Hon [sc [Hsc [Hlen [Heven [Hodd [H0 Hp]]]]]]].
  assert (H0' : F64.eqb (nth 0 sc F64.zero) F64.zero = false) by (now rewrite H0).
  pose proof (poly_of_prefix sc (Z.to_nat (2 * o)) ltac:(lia) H0') as Hin.
  pose proof (poly_of_prefix_trimmed sc (Z.to_nat (2 * o)) ltac:(lia) H0') as Hout.
  pose proof (poly_of_prefix_leading sc (Z.to_nat (2 * o)) ltac:(lia) H0') as Hlead.
  cbv zeta in Hin, Hout, Hlead. rewrite <- Hp in Hin, Hout, Hlead.
  rewrite Z2Nat.id in Hin, Hout by lia.
  destruct Hin as [Hord _].
  set (d := poly_order p) in *.
  (* the degree is even and at most 2 * 88 *)
  pose proof (Zdiv2_odd_eqn d) as E.
  set (i := Z.div2 d) in *.
  assert (Hd : d = 2 * i /\ i <= 88).
  { destruct (Z.odd d).
    - exfalso. replace (Z.to_nat d) with (Z.to_nat (2 * i + 1)) in Hlead by lia.
      rewrite Hodd in Hlead by lia. discriminate.
    - split; [lia|].
      destruct (Z_le_gt_dec i 88) as [|Hbig]; [assumption|exfalso].
      replace (Z.to_nat d) with (Z.to_nat (2 * i)) in Hlead by lia.
      pose proof (taylor_coef_underflow i _ ltac:(lia) (Heven i ltac:(lia))).
      congruence. }
  (* the coefficient of power 2 * min o 88 is kept *)
  destruct (Z_lt_le_dec d (2 * Z.min o 88)) as [Hlt|Hge]; [exfalso|lia].
  pose proof (Hout (2 * Z.min o 88) ltac:(lia)) as Hz.
  pose proof (taylor_coef_regular (Z.min o 88) _ ltac:(lia)
                (Heven (Z.min o 88) ltac:(lia))).
  congruence.
Qed.

(** X7: the polynomial of Taylor order [o] has exactly degree [2*o], that
    is [2*o + 1] coefficients, for every order up to 88.  From order 89 on
    the quotient [1 / (2*o+1)!] underflows to zero, [np.poly1d] trims it
    as a leading zero, and every later polynomial has degree 176 and is
    drawn on the row of 177 coefficients. *)
Theorem series_degree_saturates (n : Z) (ps : list poly1d) (o : Z) (p : poly1d) :
  series n = Ok ps ->
  1 <= o ->
  nth_error ps (Z.to_nat (o - 1)) = Some p ->
  poly_order p = 2 * Z.min o 88 /\
  taylor_order p = Z.min o 88 /\
  Z.of_nat (length (coeffs p)) = 2 * Z.min o 88 + 1 /\
  (forall xs row, nth_error (y_data ps xs) (Z.to_nat (o - 1)) = Some row ->
                  row = repeat (2 * Z.min o 88 + 1) (length xs)).
Proof.
  intros Hps Ho Hnth.
  pose proof (series_degree n ps o p Hps Ho Hnth) as Hd.
  split; [assumption|]. split; [|split].
  - unfold taylor_order. rewrite Hd, Z.mul_comm. apply Z.div_mul. lia.
  - unfold poly_order in Hd. lia.
  - intros xs row Hrow. apply y_data_nth in Hrow.
    destruct Hrow as [p' [Hp' ->]].
    assert (p' = p) by congruence. subst p'.
    f_equal. unfold poly_order in Hd. lia.
Qed.

Lemma series_degree_saturates_witness :
  let p1 := Poly1d [S754_finite true 6004799503160661 (-55); S754_zero false;
                    S754_finite false 4503599627370496 (-52)] in
  let p2 := Poly1d [S754_finite false 4803839602528529 (-59); S754_zero false;
                    S754_finite true 6004799503160661 (-55); S754_zero false;
                    S754_finite false 4503599627370496 (-52)] in
  poly_order p2 = 2 * Z.min 2 88 /\
  taylor_order p2 = Z.min 2 88 /\
  Z.of_nat (length (coeffs p2)) = 2 * Z.min 2 88 + 1 /\
  (forall xs row, nth_error (y_data [p1; p2] xs) (Z.to_nat (2 - 1)) = Some row ->
                  row = repeat (2 * Z.min 2 88 + 1) (length xs)).
Proof.
  intros p1 p2.
  apply (series_degree_saturates 3 [p1; p2] 2 p2);
    [vm_compute; reflexivity | lia | reflexivity].
Defined.

(** X8: the polynomials of one series are truncations of one another: a
    polynomial of a higher order has, at every power up to the degree of a
    polynomial of a lower order, the same coefficient, bit for bit. *)
Theorem series_truncations (n : Z) (ps : list poly1d) (o o' : Z) (p p' : poly1d) :
  series n = Ok ps ->
  1 <= o <= o' ->
  nth_error ps (Z.to_nat (o - 1)) = Some p ->
  nth_error ps (Z.to_nat (o' - 1)) = Some p' ->
  poly_order p <= poly_order p' /\
  forall k, k <= poly_order p -> poly_getitem p' k = poly_getitem p k.
Proof.
  intros Hps Ho Hp Hp'.
  pose proof (series_degree n ps o p Hps ltac:(lia) Hp) as Hd.
  pose proof (series_degree n ps o' p' Hps ltac:(lia) Hp') as Hd'.
  split; [lia|].
  intros k Hk.
  destruct (Z_lt_le_dec k 0) as [Hneg|Hnn].
  { unfold poly_getitem. destruct (Z.ltb_spec k 0); [|lia]. now rewrite !orb_true_r. }
  destruct (series_poly n ps o p Hps ltac:(lia) Hp)
    as [Hon [sc [Hsc [Hlen [_ [_ [H0 Hpe]]]]]]].
  destruct (series_poly n ps o' p' Hps ltac:(lia) Hp')
    as [Hon' [sc' [Hsc' [_ [_ [_ [_ Hpe']]]]]]].
  assert (sc' = sc) by congruence. subst sc'.
  assert (H0' : F64.eqb (nth 0 sc F64.zero) F64.zero = false) by (now rewrite H0).
  pose proof (poly_of_prefix sc (Z.to_nat (2 * o)) ltac:(lia) H0') as [_ Hget].
  pose proof (poly_of_prefix sc (Z.to_nat (2 * o')) ltac:(lia) H0') as [_ Hget'].
  rewrite <- Hpe in Hget. rewrite <- Hpe' in Hget'.
  rewrite Hget, Hget' by lia. reflexivity.
Qed.

Lemma series_truncations_witness :
  let p1 := Poly1d [S754_finite true 6004799503160661 (-55); S754_zero false;
                    S754_finite false 4503599627370496 (-52)] in
  let p2 := Poly1d [S754_finite false 4803839602528529 (-59); S754_zero false;
                    S754_finite true 6004799503160661 (-55); S754_zero false;
                    S754_finite false 4503599627370496 (-52)] in
  poly_order p1 <= poly_order p2 /\
  forall k, k <= poly_order p1 -> poly_getitem p2 k = poly_getitem p1 k.
Proof.
  intros p1 p2.
  apply (series_truncations 3 [p1; p2] 1 2 p1 p2);
    [vm_compute; reflexivity | lia | reflexivity | reflexivity].
Defined.


(** ** The reported pairs *)

Lemma abs_nonneg (x : F64.float) :
  F64.is_nan x = false -> F64.leb F64.zero (F64.abs x) = true.
Proof. destruct x as [s|s| |s m e]; try reflexivity. discriminate. Qed.

(** X9: every (min, max) pair that cell 4 prints is made of two numbers
    that are not NaN, with [0 <= min <= max]: the differences that enter
    the reduction are absolute values of differences of two comparable
    errors. *)
Theorem report_pairs_ordered (prec : Z) (eo : list Mpf.mpf) (es : list (list Mpf.mpf))
  (pairs : list (F64.float * F64.float)) (lo hi : F64.float) :
  report (difference prec eo es) (worse eo es) = Ok pairs ->
  In (lo, hi) pairs ->
  F64.is_nan lo = false /\ F64.is_nan hi = false /\
  F64.leb F64.zero lo = true /\ F64.leb lo hi = true.
Proof.
  intros Hrep Hin. apply In_nth_error in Hin. destruct Hin as [j Hj].
  destruct (report_row prec eo es pairs j lo hi Hrep Hj) as [row [_ Hsel]].
  cbv zeta in Hsel. destruct Hsel as [Hmin Hmax].
  set (sel := map (fun '(a, b) => F64.abs (Mpf.to_float (Mpf.mpf_sub a b prec)))
                  (filter (fun '(a, b) => Mpf.mpf_gt a b) (combine eo row))) in *.
  assert (Hnn : forall y, In y sel -> F64.is_nan y = false)
    by (intros y Hy; exact (selection_not_nan prec _ y Hy)).
  destruct (np_min_spec sel lo Hnn Hmin) as [Hlo Hle].
  destruct (np_max_spec sel hi Hnn Hmax) as [Hhi _].
  split; [auto|]. split; [auto|]. split; [|auto].
  unfold sel in Hlo. apply in_map_iff in Hlo. destruct Hlo as [[a b] [Hab Hf]].
  apply filter_In in Hf. destruct Hf as [_ Hgt].
  rewrite <- Hab. apply abs_nonneg. apply to_float_not_nan.
  now apply mpf_sub_gt_not_nan.
Qed.

Lemma report_pairs_ordered_witness :
  let lo := S754_finite false 4503599627370496 (-51) in
  F64.is_nan lo = false /\ F64.is_nan lo = false /\
  F64.leb F64.zero lo = true /\ F64.leb lo lo = true.
Proof.
  apply (report_pairs_ordered 53
           [Mpf.fin false 1 0; Mpf.fin false 3 0]
           [[Mpf.fin false 1 1; Mpf.fin false 1 0]]
           [(S754_finite false 4503599627370496 (-51),
             S754_finite false 4503599627370496 (-51))]);
    [vm_compute; reflexivity | left; reflexivity].
Defined.

(** ** The markers of the plot *)

Lemma mask_select_cons {A : Type} (m : bool) (ms : list bool) (x : A) (xs : list A) :
  mask_select (m :: ms) (x :: xs) = if m then x :: mask_select ms xs else mask_select ms xs.
Proof. unfold mask_select. cbn [combine filter fst]. now destruct m. Qed.

(** Three masks of which exactly one holds at every position split an
    array into three selections. *)
Lemma mask_select_split {A : Type} (l : list (Mpf.mpf * Mpf.mpf)) :
  (forall a b, In (a, b) l -> Mpf.is_nan a = false /\ Mpf.is_nan b = false) ->
  forall xs : list A, length xs = length l ->
  Permutation
    (mask_select (map (fun '(a, b) => Mpf.mpf_lt a b) l) xs
     ++ mask_select (map (fun '(a, b) => Mpf.mpf_eq a b) l) xs
     ++ mask_select (map (fun '(a, b) => Mpf.mpf_gt a b) l) xs)
    xs.
Proof.
  induction l as [|[a b] tl IH]; intros Hnn xs Hlen.
  - destruct xs; [constructor | discriminate].
  - destruct xs as [|x xs']; [discriminate|].
    cbn [map]. rewrite !mask_select_cons.
    assert (IH' := IH (fun a' b' H => Hnn a' b' (or_intror H)) xs'
                      ltac:(cbn [length] in Hlen; congruence)).
    destruct (Hnn a b (or_introl eq_refl)) as [Ha Hb].
    destruct (classify_exactly_one a b Ha Hb) as [Hone _].
    destruct Hone as [[-> [-> ->]]|[[-> [-> ->]]|[-> [-> ->]]]].
    + cbn [app]. now constructor.
    + apply Permutation_sym, Permutation_cons_app, Permutation_sym. exact IH'.
    + rewrite app_assoc. apply Permutation_sym, Permutation_cons_app, Permutation_sym.
      rewrite <- app_assoc. exact IH'.
Qed.

Lemma mask_select_length {A B : Type} (m : list bool) :
  forall (xs : list A) (ys : list B), length xs = length ys ->
  length (mask_select m xs) = length (mask_select m ys).
Proof.
  induction m as [|b tl IH]; intros xs ys Hlen; [reflexivity|].
  destruct xs as [|x xs'], ys as [|y ys']; try discriminate; [reflexivity|].
  rewrite !mask_select_cons.
  assert (length xs' = length ys') by (cbn [length] in Hlen; congruence).
  destruct b; cbn [length]; auto.
Qed.

Lemma plot_rows_at (xs : list F64.float) (j : nat) :
  forall (rows : list (list Z)) (bm sm wm : list (list bool)) (y : list Z) (b s w : list bool),
  nth_error rows j = Some y ->
  nth_error bm j = Some b ->
  nth_error sm j = Some s ->
  nth_error wm j = Some w ->
  nth_error (plot_rows xs rows bm sm wm) (3 * j)
    = Some (Scatter (mask_select b xs) (mask_select b y) triangle_up) /\
  nth_error (plot_rows xs rows bm sm wm) (3 * j + 1)
    = Some (Scatter (mask_select s xs) (mask_select s y) circle) /\
  nth_error (plot_rows xs rows bm sm wm) (3 * j + 2)
    = Some (Scatter (mask_select w xs) (mask_select w y) triangle_down).
Proof.
  induction j as [|j IH]; intros rows bm sm wm y b s w Hy Hb Hs Hw;
    destruct rows as [|y0 rows], bm as [|b0 bm], sm as [|s0 sm], wm as [|w0 wm];
    try discriminate.
  - cbn [nth_error] in Hy, Hb, Hs, Hw.
    injection Hy as ->. injection Hb as ->. injection Hs as ->. injection Hw as ->.
    repeat split.
  - cbn [nth_error] in Hy, Hb, Hs, Hw.
    cbn [plot_rows].
    replace (3 * S j)%nat with (S (S (S (3 * j)))) by lia.
    cbn [Nat.add nth_error]. now apply IH.
Qed.

(** X10: on the row of each series order the three [scatter] calls
    (markers [^], [o], [v]) draw every sample exactly once, provided that
    no error of that row is a NaN: the plotted abscissas of the three
    calls are, together, a permutation of [x_range], and each call gets as
    many ordinates as abscissas. *)
Theorem scatter_draws_each_sample_once
  (xs : list F64.float) (rows : list (list Z))
  (eo : list Mpf.mpf) (es : list (list Mpf.mpf))
  (j : nat) (row : list Mpf.mpf) (y : list Z) :
  nth_error es j = Some row ->
  nth_error rows j = Some y ->
  length eo = length xs ->
  length row = length xs ->
  length y = length xs ->
  (forall a, In a eo -> Mpf.is_nan a = false) ->
  (forall b, In b row -> Mpf.is_nan b = false) ->
  let plot := plot_rows xs rows (better eo es) (similar eo es) (worse eo es) in
  exists up mid down,
    nth_error plot (3 * j) = Some up /\
    nth_error plot (3 * j + 1) = Some mid /\
    nth_error plot (3 * j + 2) = Some down /\
    sc_marker up = triangle_up /\
    sc_marker mid = circle /\
    sc_marker down = triangle_down /\
    Permutation (sc_x up ++ sc_x mid ++ sc_x down) xs /\
    length (sc_y up) = length (sc_x up) /\
    length (sc_y mid) = length (sc_x mid) /\
    length (sc_y down) = length (sc_x down).
Proof.
  intros Hrow Hy Heo Hlrow Hly Ha Hb plot.
  assert (Hm : forall op : Mpf.mpf -> Mpf.mpf -> bool,
            nth_error (broadcast op eo es) j
            = Some (map (fun '(a, b) => op a b) (combine eo row))).
  { intros op. unfold broadcast. now rewrite nth_error_map, Hrow. }
  destruct (plot_rows_at xs j rows _ _ _ y _ _ _ Hy
              (Hm Mpf.mpf_lt) (Hm Mpf.mpf_eq) (Hm Mpf.mpf_gt)) as [H1 [H2 H3]].
  do 3 eexists.
  split; [exact H1|]. split; [exact H2|]. split; [exact H3|].
  do 3 (split; [reflexivity|]).
  cbn [sc_x sc_y]. split.
  - apply mask_select_split.
    + intros a b Hab. split.
      * apply Ha. eapply in_combine_l. eassumption.
      * apply Hb. eapply in_combine_r. eassumption.
    + rewrite length_combine. lia.
  - repeat split; apply mask_select_length; lia.
Qed.

Lemma scatter_draws_each_sample_once_witness :
  let xs := [F64.one; F64.zero] in
  let eo := [Mpf.fin false 1 0; Mpf.fin false 3 0] in
  let es := [[Mpf.fin false 1 1; Mpf.fin false 1 0]] in
  let plot := plot_rows xs [[3; 3]] (better eo es) (similar eo es) (worse eo es) in
  exists up mid down,
    nth_error plot (3 * 0) = Some up /\
    nth_error plot (3 * 0 + 1) = Some mid /\
    nth_error plot (3 * 0 + 2) = Some down /\
    sc_marker up = triangle_up /\
    sc_marker mid = circle /\
    sc_marker down = triangle_down /\
    Permutation (sc_x up ++ sc_x mid ++ sc_x down) xs /\
    length (sc_y up) = length (sc_x up) /\
    length (sc_y mid) = length (sc_x mid) /\
    length (sc_y down) = length (sc_x down).
Proof.
  apply (scatter_draws_each_sample_once
           [F64.one; F64.zero] [[3; 3]]
           [Mpf.fin false 1 0; Mpf.fin false 3 0]
           [[Mpf.fin false 1 1; Mpf.fin false 1 0]]
           0 [Mpf.fin false 1 1; Mpf.fin false 1 0] [3; 3]);
    try reflexivity.
  - intros a [<-|[<-|[]]]; reflexivity.
  - intros b [<-|[<-|[]]]; reflexivity.
Defined.

(** ** The shapes of what a run computes *)

Lemma broadcast_shape {B : Type} (op : Mpf.mpf -> Mpf.mpf -> B)
  (eo : list Mpf.mpf) (es : list (list Mpf.mpf)) (n : nat) :
  length eo = n ->
  Forall (fun row => length row = n) es ->
  length (broadcast op eo es) = length es /\
  Forall (fun row => length row = n) (broadcast op eo es).
Proof.
  intros Heo Hes. unfold broadcast. split; [apply length_map|].
  apply Forall_map. revert Hes. apply Forall_impl.
  intros row Hrow. rewrite length_map, length_combine. lia.
Qed.

Lemma err_series_shape (prec : Z) (rss : list (list F64.float)) (rf : list Mpf.mpf) (n : nat) :
  length rf = n ->
  Forall (fun rs => length rs = n) rss ->
  length (err_series prec rss rf) = length rss /\
  Forall (fun row => length row = n) (err_series prec rss rf).
Proof.
  intros Hrf Hrss. unfold err_series. split; [apply length_map|].
  apply Forall_map. revert Hrss. apply Forall_impl.
  intros rs Hrs. rewrite length_map, length_combine. lia.
Qed.

Lemma r_series_shape (ps : list poly1d) (x : list F64.float) :
  length (r_series ps x) = length ps /\
  Forall (fun rs => length rs = length x) (r_series ps x).
Proof.
  unfold r_series. split; [apply length_map|].
  apply Forall_map, Forall_forall. intros p _. unfold poly_call. apply length_map.
Qed.

Lemma plot_rows_length (xs : list F64.float) (n : nat) :
  forall (rows : list (list Z)) (bm sm wm : list (list bool)),
  length rows = n -> length bm = n -> length sm = n -> length wm = n ->
  length (plot_rows xs rows bm sm wm) = (3 * n)%nat.
Proof.
  induction n as [|n IH]; intros rows bm sm wm Hr Hb Hs Hw;
    destruct rows, bm, sm, wm; try discriminate; [reflexivity|].
  cbn [plot_rows length]. cbn [length] in Hr, Hb, Hs, Hw.
  rewrite (IH rows bm sm wm) by congruence. lia.
Qed.

Lemma yticks_y_data (ps : list poly1d) (xs : list F64.float) :
  xs <> [] ->
  yticks (y_data ps xs) = Ok (map (fun s => Z.of_nat (length (coeffs s))) ps).
Proof.
  intros Hxs. destruct xs as [|x xs']; [congruence|].
  unfold yticks, y_data. induction ps as [|p tl IH]; [reflexivity|].
  cbn [map rmap]. rewrite IH. reflexivity.
Qed.

(** X11: when a run of the notebook succeeds, whatever the library
    primitives return and whatever state it started from, it leaves the
    working precision at 3325 bits (1000 decimal digits), fifty samples
    and fifty reference values, seven polynomials, three masks of seven
    rows of fifty labels each, seven (min, max) pairs, and a plot of
    twenty-one [scatter] calls on the rows 3, 5, .., 15. *)
Theorem run_all_shapes (L : libm) (st st' : notebook) (out : outputs) :
  run_all L st = Ok (out, st') ->
  mp_prec st' = 3325 /\
  length (out_series out) = 7%nat /\
  length (out_pairs out) = 7%nat /\
  length (fst (out_plot out)) = 21%nat /\
  snd (out_plot out) = [3; 5; 7; 9; 11; 13; 15] /\
  exists xr rf b s w,
    nb_x_range st' = Some xr /\ length xr = 50%nat /\
    nb_ref st' = Some rf /\ length rf = 50%nat /\
    hd_error rf = Some (out_ref0 out) /\
    nb_better st' = Some b /\ nb_similar st' = Some s /\ nb_worse st' = Some w /\
    length b = 7%nat /\ length s = 7%nat /\ length w = 7%nat /\
    Forall (fun row => length row = 50%nat) b /\
    Forall (fun row => length row = 50%nat) s /\
    Forall (fun row => length row = 50%nat) w.
Proof.
  destruct (x_range_length L) as [xr [Hxr Hlen]].
  destruct series_N_coefficient_counts as [ps [Hps Hcounts]].
  assert (Hlps : length ps = 7%nat).
  { apply (f_equal (@length Z)) in Hcounts.
    now rewrite !length_map, range_length in Hcounts. }
  run_cells. rewrite Hxr, Hps.
  cbn [mp_prec nb_x_range nb_series nb_ref nb_r_orig nb_r_series
       nb_better nb_similar nb_worse].
  destruct (ref L (Mpf.dps_to_prec dps) xr) as [rf|e'] eqn:Href; [|discriminate].
  pose proof (rmap_length _ _ _ Href) as Hrf. rewrite Hlen in Hrf.
  destruct rf as [|r0 rf']; [discriminate|].
  set (rf := r0 :: rf') in *.
  cbn [mp_prec nb_x_range nb_series nb_ref nb_r_orig nb_r_series
       nb_better nb_similar nb_worse].
  set (prec := Mpf.dps_to_prec dps).
  set (eo := err_orig prec (r_orig L xr) rf).
  set (es := err_series prec (r_series ps xr) rf).
  assert (Heo : length eo = 50%nat).
  { unfold eo, err_orig, r_orig. rewrite length_map, length_combine, length_map. lia. }
  destruct (r_series_shape ps xr) as [Hrs1 Hrs2]. rewrite Hlen in Hrs2.
  destruct (err_series_shape prec (r_series ps xr) rf 50 Hrf Hrs2) as [Hes1 Hes2].
  fold es in Hes1, Hes2. rewrite Hrs1, Hlps in Hes1.
  destruct (report (difference prec eo es) (worse eo es)) as [pairs|e'] eqn:Hrep;
    [|discriminate].
  cbn [mp_prec nb_x_range nb_series nb_ref nb_r_orig nb_r_series
       nb_better nb_similar nb_worse].
  assert (Hxs : xr <> []) by (destruct xr; [discriminate|congruence]).
  rewrite (yticks_y_data ps xr Hxs).
  intros H. injection H as <- <-.
  cbn [mp_prec nb_x_range nb_series nb_ref nb_r_orig nb_r_series
       nb_better nb_similar nb_worse
       out_series out_ref0 out_pairs out_half_epsilon out_plot fst snd].
  destruct (broadcast_shape Mpf.mpf_lt eo es 50 Heo Hes2) as [Hb1 Hb2].
  destruct (broadcast_shape Mpf.mpf_eq eo es 50 Heo Hes2) as [Hs1 Hs2].
  destruct (broadcast_shape Mpf.mpf_gt eo es 50 Heo Hes2) as [Hw1 Hw2].
  rewrite Hes1 in Hb1, Hs1, Hw1.
  split; [vm_compute; reflexivity|].
  split; [assumption|].
  split; [rewrite (report_rows prec eo es pairs Hrep); assumption|].
  split.
  { apply (plot_rows_length xr 7); try assumption.
    unfold y_data. now rewrite length_map. }
  split; [rewrite Hcounts; reflexivity|].
  exists xr, rf, (better eo es), (similar eo es), (worse eo es).
  repeat (split; [first [reflexivity | assumption]|]). assumption.
Qed.

Lemma run_all_shapes_witness :
  exists out st',
    run_all stand_in fresh = Ok (out, st') /\
    mp_prec st' = 3325 /\
    length (out_series out) = 7%nat /\
    length (out_pairs out) = 7%nat /\
    length (fst (out_plot out)) = 21%nat /\
    snd (out_plot out) = [3; 5; 7; 9; 11; 13; 15] /\
    exists xr rf b s w,
      nb_x_range st' = Some xr /\ length xr = 50%nat /\
      nb_ref st' = Some rf /\ length rf = 50%nat /\
      hd_error rf = Some (out_ref0 out) /\
      nb_better st' = Some b /\ nb_similar st' = Some s /\ nb_worse st' = Some w /\
      length b = 7%nat /\ length s = 7%nat /\ length w = 7%nat /\
      Forall (fun row => length row = 50%nat) b /\
      Forall (fun row => length row = 50%nat) s /\
      Forall (fun row => length row = 50%nat) w.
Proof.
  destruct run_all_stand_in as [out [st' [Hrun _]]].
  exists out, st'. split; [exact Hrun|].
  exact (run_all_shapes stand_in fresh st' out Hrun).
Defined.

(** ** Conversions between binary64 and [mpf] *)

Lemma valid_finite (s : bool) (m : positive) (e : Z) :
  valid_binary F64.prec F64.emax (S754_finite s m e) = true ->
  Zpos (digits2_pos m) <= 53 /\ -1074 <= e <= 971 /\
  fexp F64.prec F64.emax (Zpos (digits2_pos m) + e) = e.
Proof.
  unfold valid_binary, bounded, canonical_mantissa. intros H.
  apply andb_true_iff in H. destruct H as [Hc Hb].
  apply Z.eqb_eq in Hc. apply Z.leb_le in Hb.
  split; [|split; [|exact Hc]];
    unfold fexp, emin, F64.prec, F64.emax in *; lia.
Qed.

Lemma strip_zeros_spec (p : positive) :
  forall m t, Mpf.strip_zeros p = (m, t) ->
  0 <= t /\ Zpos p = Zpos m * 2 ^ t /\
  Zpos (digits2_pos p) = Zpos (digits2_pos m) + t /\
  ((t = 0 /\ m = p) \/ (0 < t /\ Pos.iter xO m (Z.to_pos t) = p)) /\
  Mpf.strip_zeros m = (m, 0).
Proof.
  induction p as [q IH|q IH|]; intros m t H.
  - cbn [Mpf.strip_zeros] in H. injection H as <- <-.
    split; [lia|]. split; [lia|]. split; [lia|]. split; [now left | reflexivity].
  - cbn [Mpf.strip_zeros] in H.
    destruct (Mpf.strip_zeros q) as [m0 t0] eqn:E. injection H as <- <-.
    destruct (IH m0 t0 eq_refl) as (Ht & Hv & Hd & Hi & Hf).
    split; [lia|]. split; [|split; [|split; [|exact Hf]]].
    + rewrite Z.pow_add_r, Pos2Z.inj_xO, Hv by lia. ring.
    + cbn [digits2_pos]. rewrite Pos2Z.inj_succ. lia.
    + right. split; [lia|].
      destruct Hi as [[-> ->]|[Hpos Hit]]; [reflexivity|].
      replace (Z.to_pos (t0 + 1)) with (Pos.succ (Z.to_pos t0)) by lia.
      now rewrite Pos.iter_succ, Hit.
  - cbn [Mpf.strip_zeros] in H. injection H as <- <-.
    split; [lia|]. split; [lia|]. split; [lia|]. split; [now left | reflexivity].
Qed.

(** A mantissa that fits the precision is not rounded. *)
Lemma normalize_small (sign : bool) (m : positive) (exp prec : Z) (m' : positive) (t : Z) :
  Mpf.strip_zeros m = (m', t) ->
  Zpos (digits2_pos m) <= prec ->
  Mpf.normalize sign (Zpos m) exp prec = Mpf.fin sign m' (exp + t).
Proof.
  intros Hs Hd. unfold Mpf.normalize, Mpf.bitcount. cbn [Zdigits2].
  destruct (Z.ltb_spec 0 (Zpos (digits2_pos m) - prec)); [lia|].
  now rewrite Hs.
Qed.

Lemma binary_round_aux_exact (s : bool) (m : positive) (e : Z) :
  Zpos (digits2_pos m) <= 53 -> -1074 <= e <= 971 ->
  binary_round_aux F64.prec F64.emax s (Zpos m) e loc_Exact = S754_finite s m e.
Proof.
  intros Hd He.
  assert (Hm : Zpos m < 2 ^ 53).
  { pose proof (digits2_pos_bounds m) as [_ Hhi].
    apply (Z.lt_le_trans _ _ _ Hhi). apply Z.pow_le_mono_r; lia. }
  unfold binary_round_aux.
  rewrite shr_fexp_noshift by lia.
  change (round_nearest_even _ _) with (Zpos m).
  rewrite shr_fexp_noshift by lia.
  change (shr_m (shr_record_of_loc (Zpos m) loc_Exact)) with (Zpos m).
  cbv iota beta. unfold F64.emax, F64.prec.
  destruct (Z.leb_spec e (1024 - 53)); [reflexivity|lia].
Qed.

(** X12: [mp.mpf(z)] is exact.  At a working precision of at least 53
    bits (the notebook works at 3325) a binary64 sample and the [mpf] the
    reference evaluator makes of it are the same rational number, and a
    zero or finite sample gives a zero or finite [mpf]. *)
Theorem mp_mpf_exact (prec : Z) (z : F64.float) :
  valid_binary F64.prec F64.emax z = true ->
  53 <= prec ->
  (Mpf.value (mp_mpf prec z) == F64.to_Q z)%Q /\
  Mpf.is_finite (mp_mpf prec z) = is_number z /\
  Mpf.is_nan (mp_mpf prec z) = F64.is_nan z.
Proof.
  intros Hv Hprec. unfold mp_mpf.
  destruct z as [s|s| |s m e]; try (destruct s; repeat split; reflexivity);
    [repeat split; reflexivity|].
  destruct (valid_finite s m e Hv) as (Hd & He & _).
  cbn [Mpf.from_float].
  destruct (Mpf.strip_zeros m) as [m' t] eqn:Es.
  destruct (strip_zeros_spec m m' t Es) as (Ht & Hval & Hdig & _ & Hfix).
  rewrite (normalize_small s m e 53 m' t Es Hd). cbn [Mpf.mpf_pos].
  rewrite (normalize_small s m' (e + t) prec m' 0 Hfix)
    by (pose proof (Pos2Z.is_pos (digits2_pos m)); lia).
  split; [|split; reflexivity].
  cbn [Mpf.value F64.to_Q].
  apply (dyadic_eq _ _ _ _ e); try lia.
  replace (e + t + 0 - e) with t by lia. rewrite Z.sub_diag, Z.mul_1_r.
  now rewrite Hval, signed_mul.
Qed.

Lemma mp_mpf_exact_witness :
  (Mpf.value (mp_mpf 3325 (S754_finite true 6004799503160661 (-55)))
   == F64.to_Q (S754_finite true 6004799503160661 (-55)))%Q /\
  Mpf.is_finite (mp_mpf 3325 (S754_finite true 6004799503160661 (-55)))
  = is_number (S754_finite true 6004799503160661 (-55)) /\
  Mpf.is_nan (mp_mpf 3325 (S754_finite true 6004799503160661 (-55)))
  = F64.is_nan (S754_finite true 6004799503160661 (-55)).
Proof.
  apply (mp_mpf_exact 3325 (S754_finite true 6004799503160661 (-55)));
    [reflexivity | lia].
Defined.

(** X13: a binary64 converted to [mpf] (as in [a - b] and [mp.mpf(z)])
    and back ([.astype(float)]) is the same binary64, bit for bit; the
    one exception is the negative zero, which comes back as the positive
    zero, an [mpf] zero having no sign. *)
Theorem float_mpf_round_trip (z : F64.float) :
  valid_binary F64.prec F64.emax z = true ->
  Mpf.to_float (Mpf.from_float z) =
  match z with
  | S754_zero _ => S754_zero false
  | _ => z
  end.
Proof.
  intros Hv.
  destruct z as [s|s| |s m e]; try (destruct s; reflexivity); [reflexivity|].
  destruct (valid_finite s m e Hv) as (Hd & He & Hc).
  cbn [Mpf.from_float].
  destruct (Mpf.strip_zeros m) as [m' t] eqn:Es.
  destruct (strip_zeros_spec m m' t Es) as (Ht & Hval & Hdig & Hit & Hfix).
  rewrite (normalize_small s m e 53 m' t Es Hd). cbn [Mpf.to_float].
  rewrite (normalize_small s m' (e + t) 53 m' 0 Hfix)
    by (pose proof (Pos2Z.is_pos (digits2_pos m)); lia).
  rewrite Z.add_0_r.
  assert (Hr : binary_round F64.prec F64.emax s m' (e + t) = S754_finite s m e).
  { unfold binary_round.
    replace (Zpos (digits2_pos m') + (e + t)) with (Zpos (digits2_pos m) + e) by lia.
    rewrite Hc. unfold shl_align.
    destruct Hit as [[-> ->]|[Hpos Hiter]].
    - rewrite Z.add_0_r, Z.sub_diag. now apply binary_round_aux_exact.
    - replace (e - (e + t)) with (- t) by lia.
      destruct t as [|pt|pt]; try lia.
      cbn [Z.opp]. cbn [Z.to_pos] in Hiter. rewrite Hiter.
      now apply binary_round_aux_exact. }
  destruct s; exact Hr.
Qed.

Lemma float_mpf_round_trip_witness :
  Mpf.to_float (Mpf.from_float (S754_finite true 6004799503160661 (-55)))
  = S754_finite true 6004799503160661 (-55).
Proof.
  apply (float_mpf_round_trip (S754_finite true 6004799503160661 (-55))).
  reflexivity.
Defined.

(** ** The sampling grid *)

Lemma set_last_length {A : Type} (l : list A) (v : A) : length (set_last l v) = length l.
Proof.
  induction l as [|a [|b tl] IH]; try reflexivity.
  change (set_last (a :: b :: tl) v) with (a :: set_last (b :: tl) v).
  cbn [length] in *. now rewrite IH.
Qed.

Lemma last_set_last {A : Type} (l : list A) (v d : A) :
  l <> [] -> last (set_last l v) d = v.
Proof.
  induction l as [|a [|b tl] IH]; intros Hne; [congruence | reflexivity |].
  change (set_last (a :: b :: tl) v) with (a :: set_last (b :: tl) v).
  assert (Hs : set_last (b :: tl) v <> []).
  { intros E. apply (f_equal (@length A)) in E. rewrite set_last_length in E. discriminate. }
  destruct (set_last (b :: tl) v) as [|c tl'] eqn:E; [congruence|].
  change (last (a :: c :: tl') d) with (last (c :: tl') d).
  apply IH. discriminate.
Qed.

Lemma last_map {A B : Type} (f : A -> B) (l : list A) (d : A) (d' : B) :
  l <> [] -> last (map f l) d' = f (last l d).
Proof.
  induction l as [|a [|b tl] IH]; intros Hne; [congruence | reflexivity |].
  change (last (map f (a :: b :: tl)) d') with (last (map f (b :: tl)) d').
  change (last (a :: b :: tl) d) with (last (b :: tl) d).
  apply IH. discriminate.
Qed.

(** X14: [np.logspace(start, stop, num)] raises [ValueError] for a
    negative [num]; otherwise it returns exactly [num] samples, and for
    [num >= 2] the last one is [np.power(10, stop)] with [stop] itself,
    not a value accumulated along the grid. *)
Theorem logspace_shape (L : libm) (start stop : F64.float) (num : Z) :
  (num < 0 -> logspace L start stop num = Raise ValueError) /\
  (0 <= num ->
   exists y, logspace L start stop num = Ok y /\
             length y = Z.to_nat num /\
             (2 <= num -> last y F64.zero = np_power L (F64.of_Z 10) stop)).
Proof.
  unfold logspace, linspace. split; intros Hnum.
  - destruct (Z.ltb_spec num 0); [reflexivity|lia].
  - destruct (Z.ltb_spec num 0); [lia|]. cbv zeta. cbn [rbind].
    set (g := if 0 <? num - 1
              then if F64.eqb (F64.div (F64.sub stop start) (F64.of_Z (num - 1))) F64.zero
                   then map (fun v => F64.mul (F64.div v (F64.of_Z (num - 1))) (F64.sub stop start))
                            (arange num)
                   else map (fun v => F64.mul v (F64.div (F64.sub stop start) (F64.of_Z (num - 1))))
                            (arange num)
              else map (fun v => F64.mul v (F64.sub stop start)) (arange num)).
    assert (Hg : length g = Z.to_nat num).
    { assert (Ha : length (arange num) = Z.to_nat num).
      { unfold arange. rewrite length_map, range_length. f_equal. lia. }
      unfold g. destruct (0 <? num - 1); [destruct (F64.eqb _ _)|];
        now rewrite length_map. }
    eexists. split; [reflexivity|]. split.
    + rewrite length_map. destruct (1 <? num);
        [rewrite set_last_length|]; now rewrite length_map.
    + intros H2. destruct (Z.ltb_spec 1 num); [|lia].
      assert (Hne : map (fun v => F64.add v start) g <> []).
      { intros E. apply (f_equal (@length F64.float)) in E.
        rewrite length_map, Hg in E. cbn [length] in E. lia. }
      rewrite (last_map _ _ F64.zero).
      * now rewrite last_set_last.
      * intros E. apply (f_equal (@length F64.float)) in E.
        rewrite set_last_length, length_map, Hg in E. cbn [length] in E. lia.
Qed.

(** ** Reductions and NaN *)

Lemma fold_minimum_nan (l : list F64.float) :
  forall x, x = S754_nan \/ In S754_nan l -> fold_left np_minimum l x = S754_nan.
Proof.
  induction l as [|a tl IH]; intros x H; cbn [fold_left].
  - destruct H as [->|[]]. reflexivity.
  - apply IH. destruct H as [->|[->|Hin]]; [left; reflexivity | left | now right].
    unfold np_minimum. destruct x as [s|s| |s m e]; reflexivity.
Qed.

Lemma fold_maximum_nan (l : list F64.float) :
  forall x, x = S754_nan \/ In S754_nan l -> fold_left np_maximum l x = S754_nan.
Proof.
  induction l as [|a tl IH]; intros x H; cbn [fold_left].
  - destruct H as [->|[]]. reflexivity.
  - apply IH. destruct H as [->|[->|Hin]]; [left | left | now right].
    + unfold np_maximum. destruct a as [s|s| |s m e]; reflexivity.
    + unfold np_maximum. destruct x as [s|s| |s m e]; reflexivity.
Qed.

(** X15: the limits handed to [ax.set_xlim].  On an empty sample array the
    reduction raises [ValueError]; a single NaN among the samples makes
    both limits NaN; and when no sample is a NaN the limits are [m / 10]
    and [M * 10] for two of the samples, [m] below and [M] above every
    sample. *)
Theorem xlim_spec (xs : list F64.float) :
  (xs = [] -> xlim xs = Raise ValueError) /\
  (In S754_nan xs -> xlim xs = Ok (S754_nan, S754_nan)) /\
  (xs <> [] -> (forall v, In v xs -> F64.is_nan v = false) ->
   exists m M,
     In m xs /\ In M xs /\
     (forall v, In v xs -> F64.leb m v = true /\ F64.leb v M = true) /\
     xlim xs = Ok (F64.div m (F64.of_Z 10), F64.mul M (F64.of_Z 10))).
Proof.
  split; [intros ->; reflexivity|]. split.
  - intros Hin. destruct xs as [|x tl]; [destruct Hin|].
    unfold xlim, np_min, np_max.
    assert (H : x = S754_nan \/ In S754_nan tl) by (destruct Hin; auto).
    rewrite (fold_minimum_nan tl x H), (fold_maximum_nan tl x H). reflexivity.
  - intros Hne Hnn. unfold xlim.
    destruct (np_min xs) as [m|e] eqn:Hmin; [|destruct xs; [congruence|discriminate]].
    destruct (np_max xs) as [M|e] eqn:Hmax; [|destruct xs; [congruence|discriminate]].
    destruct (np_min_spec xs m Hnn Hmin) as [Hm Hlo].
    destruct (np_max_spec xs M Hnn Hmax) as [HM Hhi].
    exists m, M. cbn [rbind]. repeat split; auto.
Qed.

(** ** The comparator at its edges *)

(** X16: where the mask [similar] holds, the two errors are the same
    [mpf], and the printed difference is exactly 0.0 when that error is
    finite; when both errors are the same infinity, their difference is
    undefined and the entry of [difference] is a NaN. *)
Theorem difference_where_similar (prec : Z) (eo : list Mpf.mpf) (es : list (list Mpf.mpf))
  (j k : nat) (d : F64.float) :
  entry (similar eo es) j k = Some true ->
  entry (difference prec eo es) j k = Some d ->
  exists row a,
    nth_error es j = Some row /\
    nth_error eo k = Some a /\
    nth_error row k = Some a /\
    d = if Mpf.is_finite a then F64.zero else S754_nan.
Proof.
  intros Hs Hd. unfold similar, difference in *.
  apply entry_broadcast in Hs. destruct Hs as [row [a [b [Hrow [Ha [Hb Heq]]]]]].
  apply entry_broadcast in Hd. destruct Hd as [row' [a' [b' [Hrow' [Ha' [Hb' Hd]]]]]].
  assert (row' = row) by congruence. subst row'.
  assert (a' = a) by congruence. assert (b' = b) by congruence. subst a' b'.
  symmetry in Heq. unfold Mpf.mpf_eq in Heq.
  destruct (Mpf.is_nan a || Mpf.is_nan b) eqn:Hnan; [discriminate|].
  apply mpf_eqb_eq in Heq. subst b.
  exists row, a. do 3 (split; [assumption|]).
  subst d. destruct a as [| | | |s m e]; try reflexivity.
  unfold Mpf.mpf_sub. cbn [Mpf.mpf_neg Mpf.mpf_add Mpf.is_finite].
  rewrite Z.min_id, Z.sub_diag, Z.shiftl_0_r.
  assert (H0 : signed s (Zpos m) + signed (negb s) (Zpos m) = 0)
    by (destruct s; cbn [signed negb]; lia).
  rewrite H0. change (Z.abs 0) with 0. change (0 <? 0) with false.
  assert (Hz : forall e' p, Mpf.normalize false 0 e' p = Mpf.fzero).
  { intros e' p. unfold Mpf.normalize, Mpf.bitcount. cbn [Zdigits2].
    destruct (0 <? 0 - p); [|reflexivity].
    rewrite Z.shiftr_0_l. cbn [Z.odd andb]. rewrite Z.shiftr_0_l. reflexivity. }
  rewrite Hz. reflexivity.
Qed.

Lemma difference_where_similar_witness :
  exists row a,
    nth_error [[Mpf.fin false 3 0; Mpf.finf]] 0 = Some row /\
    nth_error [Mpf.fin false 3 0; Mpf.finf] 1 = Some a /\
    nth_error row 1 = Some a /\
    S754_nan = if Mpf.is_finite a then F64.zero else S754_nan.
Proof.
  apply (difference_where_similar 53
           [Mpf.fin false 3 0; Mpf.finf] [[Mpf.fin false 3 0; Mpf.finf]] 0 1 S754_nan);
    reflexivity.
Defined.

(** ** The errors *)

Lemma err_orig_entry (prec : Z) (ro : list F64.float) (rf : list Mpf.mpf)
  (k : nat) (e : Mpf.mpf) :
  nth_error (err_orig prec ro rf) k = Some e ->
  exists a r, nth_error ro k = Some a /\ nth_error rf k = Some r /\ e = abs_error prec a r.
Proof.
  unfold err_orig. rewrite nth_error_map.
  destruct (nth_error (combine ro rf) k) as [[a r]|] eqn:E; [|discriminate].
  intros H. injection H as <-. apply nth_error_combine_inv in E.
  exists a, r. tauto.
Qed.

Lemma err_series_entry (prec : Z) (rss : list (list F64.float)) (rf : list Mpf.mpf)
  (j k : nat) (row : list Mpf.mpf) (e : Mpf.mpf) :
  nth_error (err_series prec rss rf) j = Some row ->
  nth_error row k = Some e ->
  exists rs a r,
    nth_error rss j = Some rs /\ nth_error rs k = Some a /\ nth_error rf k = Some r /\
    e = abs_error prec a r.
Proof.
  unfold err_series. rewrite nth_error_map.
  destruct (nth_error rss j) as [rs|]; [|discriminate].
  intros H. injection H as <-. rewrite nth_error_map.
  destruct (nth_error (combine rs rf) k) as [[a r]|] eqn:E; [|discriminate].
  intros H. injection H as <-. apply nth_error_combine_inv in E.
  exists rs, a, r. tauto.
Qed.

Lemma normalize_sign (sign : bool) (man exp prec : Z) :
  match Mpf.normalize sign man exp prec with
  | Mpf.fin s _ _ => s = sign
  | Mpf.fzero => True
  | _ => False
  end.
Proof.
  unfold Mpf.normalize.
  destruct (if 0 <? Mpf.bitcount man - prec then _ else _) as [m e].
  destruct m as [|p|p]; try exact I.
  now destruct (Mpf.strip_zeros p).
Qed.

Lemma abs_error_nonneg (prec : Z) (a : F64.float) (b : Mpf.mpf) :
  0 <= Mpf.mpf_sign (abs_error prec a b) /\ (0 <= Mpf.value (abs_error prec a b))%Q.
Proof.
  unfold abs_error.
  destruct (Mpf.mpf_sub (Mpf.from_float a) b prec) as [| | | |s m e];
    try (split; [cbn; lia | apply Qle_refl]).
  cbn [Mpf.mpf_abs].
  pose proof (normalize_sign false (Zpos m) e prec) as H.
  destruct (Mpf.normalize false (Zpos m) e prec) as [| | | |s' m' e'];
    try (split; [cbn; lia | apply Qle_refl]); try contradiction.
  subst s'. split; [cbn; lia|].
  cbn [Mpf.value signed]. apply Qlt_le_weak, dyadic_pos. lia.
Qed.

(** X17: the errors the comparator works on are absolute values: every
    entry of [err_orig] and of [err_series] is a normalized [mpf] (odd
    mantissa) that is zero, positive, plus infinity or NaN, never a
    negative number and never minus infinity. *)
Theorem errors_are_nonnegative (prec : Z) (ro : list F64.float)
  (rss : list (list F64.float)) (rf : list Mpf.mpf) :
  (forall k e, nth_error (err_orig prec ro rf) k = Some e ->
     Mpf.is_normal e = true /\ 0 <= Mpf.mpf_sign e /\ (0 <= Mpf.value e)%Q) /\
  (forall j k row e, nth_error (err_series prec rss rf) j = Some row ->
     nth_error row k = Some e ->
     Mpf.is_normal e = true /\ 0 <= Mpf.mpf_sign e /\ (0 <= Mpf.value e)%Q).
Proof.
  split.
  - intros k e He. apply err_orig_entry in He. destruct He as [a [r [_ [_ ->]]]].
    split; [apply abs_error_normal | apply abs_error_nonneg].
  - intros j k row e Hrow He.
    destruct (err_series_entry prec rss rf j k row e Hrow He) as [rs [a [r [_ [_ [_ ->]]]]]].
    split; [apply abs_error_normal | apply abs_error_nonneg].
Qed.

(** ** The comparator, mirrored *)

Lemma mpf_lt_gt_swap (s t : Mpf.mpf) :
  Mpf.is_normal s = true -> Mpf.is_normal t = true ->
  Mpf.mpf_gt s t = Mpf.mpf_lt t s.
Proof.
  intros Hs Ht.
  destruct (Mpf.is_finite s) eqn:Hfs, (Mpf.is_finite t) eqn:Hft.
  - destruct (mpf_cmp_value s t Hfs Hft Hs Ht) as [_ H1].
    destruct (mpf_cmp_value t s Hft Hfs Ht Hs) as [H2 _].
    unfold Mpf.mpf_gt, Mpf.mpf_lt.
    assert (Hns : Mpf.is_nan s = false) by (destruct s; try reflexivity; discriminate).
    assert (Hnt : Mpf.is_nan t = false) by (destruct t; try reflexivity; discriminate).
    rewrite Hns, Hnt. cbn [orb].
    apply Bool.eq_iff_eq_true. rewrite Z.ltb_lt, Z.ltb_lt. tauto.
  - destruct s as [| | | |ss sm se], t as [| | | |ts tm te]; try discriminate; reflexivity.
  - destruct s as [| | | |ss sm se], t as [| | | |ts tm te]; try discriminate; reflexivity.
  - destruct s as [| | | |ss sm se], t as [| | | |ts tm te]; try discriminate; reflexivity.
Qed.

(** X18: the masks [worse] and [better] mirror each other: at every
    (order, sample) pair, [err_orig > err_series] is computed to the same
    truth value as [err_series < err_orig], and [err_orig < err_series] to
    the same as [err_series > err_orig], NaN and infinite errors
    included. *)
Theorem worse_mirrors_better
  (prec : Z) (ro : list F64.float) (rss : list (list F64.float))
  (rf : list Mpf.mpf) (j k : nat) (row : list Mpf.mpf) (a b : Mpf.mpf) :
  let eo := err_orig prec ro rf in
  let es := err_series prec rss rf in
  nth_error eo k = Some a ->
  nth_error es j = Some row ->
  nth_error row k = Some b ->
  entry (worse eo es) j k = Some (Mpf.mpf_lt b a) /\
  entry (better eo es) j k = Some (Mpf.mpf_gt b a).
Proof.
  intros eo es Ha Hrow Hb.
  assert (Hna : Mpf.is_normal a = true) by (exact (err_orig_normal _ _ _ _ _ Ha)).
  assert (Hnb : Mpf.is_normal b = true).
  { destruct (err_series_entry prec rss rf j k row b Hrow Hb) as [rs [x [r [_ [_ [_ ->]]]]]].
    apply abs_error_normal. }
  unfold worse, better.
  rewrite (mask_broadcast_at Mpf.mpf_gt eo es j k row a b Hrow Ha Hb).
  rewrite (mask_broadcast_at Mpf.mpf_lt eo es j k row a b Hrow Ha Hb).
  now rewrite (mpf_lt_gt_swap a b Hna Hnb), (mpf_lt_gt_swap b a Hnb Hna).
Qed.

Lemma worse_mirrors_better_witness :
  let eo := err_orig 53 [F64.one] [Mpf.fin false 3 (-2)] in
  let es := err_series 53 [[F64.zero]] [Mpf.fin false 3 (-2)] in
  entry (worse eo es) 0 0 = Some (Mpf.mpf_lt (Mpf.fin false 3 (-2)) (Mpf.fin false 1 (-2))) /\
  entry (better eo es) 0 0 = Some (Mpf.mpf_gt (Mpf.fin false 3 (-2)) (Mpf.fin false 1 (-2))).
Proof.
  apply (worse_mirrors_better 53 [F64.one] [[F64.zero]] [Mpf.fin false 3 (-2)] 0 0
           [Mpf.fin false 3 (-2)]); reflexivity.
Defined.



(** ** The signs of the coefficients *)

(** X20: the series alternates.  In the polynomial of order [o], the
    coefficient of [x^(2i)], for [i] up to [o] and up to 88, is a finite
    binary64 that is not zero, negative for odd [i] and positive for even
    [i]. *)
Theorem series_signs_alternate (n : Z) (ps : list poly1d) (o : Z) (p : poly1d) (i : Z) :
  series n = Ok ps ->
  1 <= o ->
  nth_error ps (Z.to_nat (o - 1)) = Some p ->
  0 <= i <= Z.min o 88 ->
  exists m e, poly_getitem p (2 * i) = S754_finite (Z.odd i) m e.
Proof.
  intros Hps Ho Hnth Hi.
  pose proof (series_degree n ps o p Hps Ho Hnth) as Hd.
  destruct (series_poly n ps o p Hps Ho Hnth)
    as [Hon [sc [Hsc [Hlen [Heven [_ [H0 Hp]]]]]]].
  assert (H0' : F64.eqb (nth 0 sc F64.zero) F64.zero = false) by (now rewrite H0).
  pose proof (poly_of_prefix sc (Z.to_nat (2 * o)) ltac:(lia) H0') as [_ Hget].
  rewrite <- Hp in Hget. rewrite Hget by lia.
  pose proof (Heven i ltac:(lia)) as Hc.
  pose proof (taylor_coef_regular i _ ltac:(lia) Hc) as Hnz.
  destruct (taylor_coef_div i ltac:(lia)) as [f [_ Hdiv]].
  assert (Hx : nth (Z.to_nat (2 * i)) sc F64.zero
               = F64.div (S754_finite (Z.odd i) 1 0) (S754_finite false f 0))
    by congruence.
  rewrite Hx in *. rewrite SFdiv_one in *.
  destruct (round_nearest_even _ _) as [|q|q]; try discriminate.
  destruct (Zpos q =? 2 ^ 53); eauto.
Qed.

Lemma series_signs_alternate_witness :
  exists m e,
    poly_getitem (Poly1d [S754_finite true 6004799503160661 (-55); S754_zero false;
                          S754_finite false 4503599627370496 (-52)]) (2 * 1)
    = S754_finite (Z.odd 1) m e.
Proof.
  apply (series_signs_alternate 2
           [Poly1d [S754_finite true 6004799503160661 (-55); S754_zero false;
                    S754_finite false 4503599627370496 (-52)]] 1);
    [vm_compute; reflexivity | lia | reflexivity | lia].
Defined.

(** ** The accuracy of the errors *)

(** *** Arithmetic of dyadic numbers *)

Lemma dyadic_le (m1 m2 e : Z) : (dyadic m1 e <= dyadic m2 e)%Q <-> m1 <= m2.
Proof.
  assert (Hiff : (dyadic m2 e < dyadic m1 e)%Q <-> m2 < m1).
  { rewrite (dyadic_lt m2 e m1 e e) by lia. rewrite Z.sub_diag. lia. }
  split; intros H.
  - destruct (Z_le_gt_dec m1 m2) as [|Hgt]; [assumption|exfalso].
    apply (Qle_not_lt _ _ H). apply Hiff. lia.
  - apply Qnot_lt_le. intros Hlt. apply Hiff in Hlt. lia.
Qed.

Lemma dyadic_shift (m e e' : Z) :
  e <= e' -> (dyadic m e' == dyadic (m * 2 ^ (e' - e)) e)%Q.
Proof.
  intros He. apply (dyadic_eq _ _ _ _ e); try lia.
  now rewrite Z.sub_diag, Z.pow_0_r, Z.mul_1_r.
Qed.

Lemma dyadic_plus (a b e : Z) : (dyadic a e + dyadic b e == dyadic (a + b) e)%Q.
Proof.
  unfold dyadic. destruct e as [|p|p]; unfold Qeq, Qplus, inject_Z; cbn [Qnum Qden];
    rewrite ?Pos2Z.inj_mul; ring.
Qed.

Lemma dyadic_opp (a e : Z) : (- dyadic a e == dyadic (- a) e)%Q.
Proof.
  unfold dyadic. destruct e as [|p|p]; unfold Qeq, Qopp, inject_Z; cbn [Qnum Qden]; ring.
Qed.

Lemma dyadic_minus (a b e : Z) : (dyadic a e - dyadic b e == dyadic (a - b) e)%Q.
Proof.
  unfold Qminus. rewrite dyadic_opp, dyadic_plus.
  now replace (a + - b) with (a - b) by lia.
Qed.

Lemma dyadic_abs (a e : Z) : (Qabs (dyadic a e) == dyadic (Z.abs a) e)%Q.
Proof.
  unfold dyadic. destruct e as [|p|p]; unfold inject_Z, Qabs.
  - now rewrite Z.abs_mul.
  - rewrite Z.abs_mul, (Z.abs_eq (2 ^ Zpos p)) by (apply Z.pow_nonneg; lia). reflexivity.
  - reflexivity.
Qed.

Lemma dyadic_times (a e k : Z) : (dyadic a e * inject_Z k == dyadic (a * k) e)%Q.
Proof.
  unfold dyadic. destruct e as [|p|p]; unfold Qeq, Qmult, inject_Z; cbn [Qnum Qden];
    rewrite ?Pos2Z.inj_mul; ring.
Qed.

Lemma abs_signed (s : bool) (x : Z) : Z.abs (signed s x) = Z.abs x.
Proof. destruct s; unfold signed; lia. Qed.

Lemma signed_minus (s : bool) (x y : Z) : signed s x - signed s y = signed s (x - y).
Proof. destruct s; unfold signed; lia. Qed.

(** *** Rounding to the working precision *)

Lemma strip_zeros_fits (p : positive) (prec : Z) (m0 : positive) (t : Z) :
  1 <= prec ->
  Zpos p <= 2 ^ prec ->
  Mpf.strip_zeros p = (m0, t) ->
  Zpos (digits2_pos m0) <= prec.
Proof.
  intros Hprec Hp Hs.
  destruct (strip_zeros_spec p m0 t Hs) as (Ht & Hval & Hdig & Hi & _).
  destruct Hi as [[-> ->]|[Hpos _]].
  - assert (Hodd : Z.odd (Zpos p) = true).
    { pose proof (strip_zeros_odd p) as Ho. rewrite Hs in Ho. cbn [fst] in Ho.
      destruct p; [reflexivity | contradiction | reflexivity]. }
    assert (Hne : Zpos p <> 2 ^ prec).
    { intros E. rewrite E, Z.odd_pow in Hodd by lia. discriminate. }
    pose proof (Zdigits2_le (Zpos p) prec ltac:(lia) ltac:(lia) ltac:(lia)) as Hd.
    exact Hd.
  - assert (Hlt : Zpos p < 2 ^ (prec + 1)).
    { rewrite Z.pow_add_r by lia. pose proof (pow2_pos prec ltac:(lia)). lia. }
    pose proof (Zdigits2_le (Zpos p) (prec + 1) ltac:(lia) ltac:(lia) Hlt) as Hd.
    cbn [Zdigits2] in Hd. lia.
Qed.

(** [normalize] rounds to nearest.  With [n] the number of bits that are
    cut, the result is a regular number of at most [prec] bits, a multiple
    of [2^n] units of the given exponent, within half of [2^n] units of the
    number it is given. *)
Lemma normalize_round_ulp (sign : bool) (m : positive) (exp prec : Z) :
  1 <= prec ->
  exists (m' : positive) (e' : Z) (c : Z),
    Mpf.normalize sign (Zpos m) exp prec = Mpf.fin sign m' e' /\
    exp <= e' /\
    Zpos (digits2_pos m') <= prec /\
    Mpf.strip_zeros m' = (m', 0) /\
    let n := Z.max 0 (Zpos (digits2_pos m) - prec) in
    Zpos m' * 2 ^ (e' - exp) = c * 2 ^ n /\
    2 * Z.abs (c * 2 ^ n - Zpos m) <= 2 ^ n /\
    (n = 0 -> c = Zpos m).
Proof.
  intros Hprec.
  pose proof (digits2_pos_bounds m) as [Hlo Hhi].
  assert (Hfin : forall man' n, 0 <= n -> 0 < man' -> man' <= 2 ^ prec ->
            exists (m' : positive) (e' : Z),
              match man' with
              | Zpos p => let '(m0, t) := Mpf.strip_zeros p in Mpf.fin sign m0 (exp + n + t)
              | _ => Mpf.fzero
              end = Mpf.fin sign m' e' /\
              exp <= e' /\
              Zpos (digits2_pos m') <= prec /\
              Mpf.strip_zeros m' = (m', 0) /\
              Zpos m' * 2 ^ (e' - exp) = man' * 2 ^ n).
  { intros man' n Hn Hpos Hle. destruct man' as [|p|p]; try lia.
    destruct (Mpf.strip_zeros p) as [m0 t] eqn:Es.
    destruct (strip_zeros_spec p m0 t Es) as (Ht & Hval & Hdig & _ & Hfix).
    exists m0, (exp + n + t). split; [reflexivity|]. split; [lia|].
    split; [exact (strip_zeros_fits p prec m0 t Hprec Hle Es)|].
    split; [exact Hfix|].
    replace (exp + n + t - exp) with (t + n) by lia.
    now rewrite Z.pow_add_r, Z.mul_assoc, <- Hval by lia. }
  unfold Mpf.normalize, Mpf.bitcount. cbn [Zdigits2]. cbv zeta.
  set (bc := Zpos (digits2_pos m)) in *.
  destruct (Z.ltb_spec 0 (bc - prec)) as [Hn|Hn].
  - rewrite Z.max_r by lia.
    set (n := bc - prec) in *.
    set (P := 2 ^ (n - 1)).
    set (Q := 2 ^ prec).
    assert (HP : 0 < P) by (apply pow2_pos; lia).
    assert (HQ : 2 <= Q).
    { unfold Q. replace prec with (1 + (prec - 1)) by lia.
      rewrite Z.pow_add_r by lia. pose proof (pow2_pos (prec - 1) ltac:(lia)). lia. }
    assert (HnP : 2 ^ n = 2 * P).
    { unfold P. replace n with (1 + (n - 1)) at 1 by lia.
      now rewrite Z.pow_add_r by lia. }
    assert (HloM : Q * P <= Zpos m).
    { unfold Q, P. rewrite <- Z.pow_add_r by lia.
      replace (prec + (n - 1)) with (bc - 1) by (unfold n; lia). exact Hlo. }
    assert (HhiM : Zpos m < 2 * (Q * P)).
    { unfold Q, P. rewrite <- Z.pow_add_r by lia.
      replace (prec + (n - 1)) with (bc - 1) by (unfold n; lia).
      replace (2 * 2 ^ (bc - 1)) with (2 ^ bc); [exact Hhi|].
      replace bc with (1 + (bc - 1)) at 1 by lia.
      now rewrite Z.pow_add_r by (unfold bc; lia). }
    rewrite Z.land_ones by lia.
    rewrite (Z.shiftr_div_pow2 (Zpos m)) by lia. fold P.
    rewrite (Z.shiftr_div_pow2 _ 1) by lia. change (2 ^ 1) with 2.
    pose proof (Z.div_mod (Zpos m) P ltac:(lia)) as Hdm.
    pose proof (Z.mod_pos_bound (Zpos m) P HP) as Hlow.
    set (t := Zpos m / P) in *. set (low := Zpos m mod P) in *.
    pose proof (Z.div2_odd t) as Ht2. rewrite Z.div2_div in Ht2.
    set (q := t / 2) in *.
    assert (Htlo : Q <= t).
    { unfold t. apply Z.div_le_lower_bound; [assumption|]. lia. }
    assert (Hthi : t < 2 * Q).
    { unfold t. apply Z.div_lt_upper_bound; [assumption|]. lia. }
    assert (Hb2z : 0 <= Z.b2z (Z.odd t) <= 1) by (destruct (Z.odd t); cbn; lia).
    destruct (Z.odd t && (Z.testbit t 1 || negb (low =? 0))) eqn:Hup.
    + apply andb_true_iff in Hup. destruct Hup as [Hodd _].
      rewrite Hodd in Ht2. cbn [Z.b2z] in Ht2.
      destruct (Hfin (q + 1) n ltac:(lia) ltac:(lia) ltac:(lia))
        as (m' & e' & H1 & H2 & H3 & H4 & H5).
      exists m', e', (q + 1).
      split; [exact H1|]. do 3 (split; [assumption|]).
      split; [exact H5|]. split; [|lia].
      rewrite HnP.
      replace ((q + 1) * (2 * P) - Zpos m) with (P - low) by nia.
      rewrite Z.abs_eq by lia. lia.
    + assert (Hcase : Z.odd t = false \/ (Z.odd t = true /\ low = 0)).
      { destruct (Z.odd t); [right|now left]. split; [reflexivity|].
        cbn [andb] in Hup. apply orb_false_iff in Hup. destruct Hup as [_ Hl].
        apply negb_false_iff, Z.eqb_eq in Hl. exact Hl. }
      destruct (Hfin q n ltac:(lia) ltac:(lia) ltac:(lia))
        as (m' & e' & H1 & H2 & H3 & H4 & H5).
      exists m', e', q.
      split; [exact H1|]. do 3 (split; [assumption|]).
      split; [exact H5|]. split; [|lia].
      rewrite HnP.
      destruct Hcase as [Hev|[Hodd Hl0]].
      * rewrite Hev in Ht2. cbn [Z.b2z] in Ht2.
        replace (q * (2 * P) - Zpos m) with (- low) by nia.
        rewrite Z.abs_neq by lia. lia.
      * rewrite Hodd in Ht2. cbn [Z.b2z] in Ht2.
        replace (q * (2 * P) - Zpos m) with (- P) by nia.
        rewrite Z.abs_neq by lia. lia.
  - rewrite Z.max_l by lia.
    destruct (Hfin (Zpos m) 0 ltac:(lia) ltac:(lia))
      as (m' & e' & H1 & H2 & H3 & H4 & H5).
    + apply Z.lt_le_incl, (Z.lt_le_trans _ _ _ Hhi). apply Z.pow_le_mono_r; lia.
    + exists m', e', (Zpos m). cbv beta iota in H1.
      destruct (Mpf.strip_zeros m) as [m0 t0].
      replace (exp + 0 + t0) with (exp + t0) in H1 by lia.
      split; [exact H1|]. do 3 (split; [assumption|]).
      split; [exact H5|].
      rewrite Z.pow_0_r, Z.mul_1_r, Z.sub_diag. cbn [Z.abs]. split; [lia|reflexivity].
Qed.

(** In relative terms: within [2^-prec] of the number given. *)
Lemma normalize_round (sign : bool) (m : positive) (exp prec : Z) :
  1 <= prec ->
  exists (m' : positive) (e' : Z),
    Mpf.normalize sign (Zpos m) exp prec = Mpf.fin sign m' e' /\
    exp <= e' /\
    Zpos (digits2_pos m') <= prec /\
    Mpf.strip_zeros m' = (m', 0) /\
    2 ^ prec * Z.abs (Zpos m' * 2 ^ (e' - exp) - Zpos m) <= Zpos m.
Proof.
  intros Hprec.
  destruct (normalize_round_ulp sign m exp prec Hprec)
    as (m' & e' & c & H1 & H2 & H3 & H4 & H5 & H6 & H7).
  exists m', e'. split; [exact H1|]. do 3 (split; [assumption|]).
  rewrite H5.
  pose proof (digits2_pos_bounds m) as [Hlo _].
  set (bc := Zpos (digits2_pos m)) in *.
  destruct (Z_le_gt_dec (bc - prec) 0) as [Hle|Hgt].
  - rewrite Z.max_l in * by lia. rewrite (H7 eq_refl).
    rewrite Z.pow_0_r, Z.mul_1_r, Z.sub_diag. cbn [Z.abs]. lia.
  - rewrite Z.max_r in * by lia.
    set (n := bc - prec) in *.
    assert (Hpw : 2 ^ prec * 2 ^ n = 2 * 2 ^ (bc - 1)).
    { rewrite <- Z.pow_add_r by lia.
      replace (prec + n) with (1 + (bc - 1)) by (unfold n; lia).
      now rewrite Z.pow_add_r by lia. }
    pose proof (pow2_pos prec ltac:(lia)) as HQ.
    set (D := Z.abs (c * 2 ^ n - Zpos m)) in *.
    assert (HD : 0 <= D) by (unfold D; lia).
    clearbody D. nia.
Qed.

Lemma normalize_accuracy (sign : bool) (man exp prec : Z) :
  1 <= prec -> 0 <= man ->
  (Mpf.normalize sign man exp prec = Mpf.fzero \/
   exists m' e', Mpf.normalize sign man exp prec = Mpf.fin sign m' e' /\
                 Zpos (digits2_pos m') <= prec /\
                 Mpf.strip_zeros m' = (m', 0)) /\
  (Qabs (Mpf.value (Mpf.normalize sign man exp prec) - dyadic (signed sign man) exp)
   * inject_Z (2 ^ prec)
   <= Qabs (dyadic (signed sign man) exp))%Q.
Proof.
  intros Hprec Hman. destruct man as [|m|m]; [| |lia].
  - assert (Hz : Mpf.normalize sign 0 exp prec = Mpf.fzero).
    { unfold Mpf.normalize, Mpf.bitcount. cbn [Zdigits2].
      destruct (Z.ltb_spec 0 (0 - prec)); [lia | reflexivity]. }
    rewrite Hz. split; [now left|].
    replace (signed sign 0) with 0 by (now destruct sign).
    cbn [Mpf.value]. rewrite dyadic_0. apply Qle_refl.
  - destruct (normalize_round sign m exp prec Hprec) as (m' & e' & Hr & He & Hd & Hfix & Hb).
    rewrite Hr. split; [right; eauto|].
    cbn [Mpf.value].
    rewrite (dyadic_shift (signed sign (Zpos m')) exp e' He).
    rewrite dyadic_minus, dyadic_abs, dyadic_times, dyadic_abs.
    apply dyadic_le.
    rewrite <- signed_mul, signed_minus, !abs_signed.
    rewrite Z.mul_comm. cbn [Z.abs] in *. exact Hb.
Qed.

Lemma mpf_neg_value (t : Mpf.mpf) : (Mpf.value (Mpf.mpf_neg t) == - Mpf.value t)%Q.
Proof.
  destruct t as [| | | |s m e]; try reflexivity.
  cbn [Mpf.mpf_neg Mpf.value]. rewrite dyadic_opp.
  now destruct s.
Qed.

(** The sum, and so the difference, of two finite numbers is their exact
    sum rounded once. *)
Lemma mpf_add_accuracy (s t : Mpf.mpf) (prec : Z) :
  1 <= prec ->
  Mpf.is_finite s = true -> Mpf.is_finite t = true ->
  (Mpf.mpf_add s t prec = Mpf.fzero \/
   exists sg m' e', Mpf.mpf_add s t prec = Mpf.fin sg m' e' /\
                    Zpos (digits2_pos m') <= prec /\
                    Mpf.strip_zeros m' = (m', 0)) /\
  (Qabs (Mpf.value (Mpf.mpf_add s t prec) - (Mpf.value s + Mpf.value t))
   * inject_Z (2 ^ prec)
   <= Qabs (Mpf.value s + Mpf.value t))%Q.
Proof.
  intros Hprec Hs Ht.
  assert (Hn : forall sg man e (x : Q),
            0 <= man -> (x == dyadic (signed sg man) e)%Q ->
            (Mpf.normalize sg man e prec = Mpf.fzero \/
             exists sg' m' e', Mpf.normalize sg man e prec = Mpf.fin sg' m' e' /\
                               Zpos (digits2_pos m') <= prec /\
                               Mpf.strip_zeros m' = (m', 0)) /\
            (Qabs (Mpf.value (Mpf.normalize sg man e prec) - x) * inject_Z (2 ^ prec)
             <= Qabs x)%Q).
  { intros sg man e x Hman Hx.
    destruct (normalize_accuracy sg man e prec Hprec Hman) as [Hshape Hacc].
    split.
    - destruct Hshape as [H|(m' & e' & H)]; [now left | right; eauto].
    - now rewrite Hx. }
  destruct s as [| | | |ss sm se], t as [| | | |ts tm te]; try discriminate.
  - cbn [Mpf.mpf_add Mpf.value]. split; [now left|]. apply Qle_refl.
  - cbn [Mpf.mpf_add]. apply Hn; [lia|].
    cbn [Mpf.value]. apply Qplus_0_l.
  - cbn [Mpf.mpf_add]. apply Hn; [lia|].
    cbn [Mpf.value]. apply Qplus_0_r.
  - cbn [Mpf.mpf_add]. cbv zeta.
    set (e := Z.min se te).
    set (man := signed ss (Z.shiftl (Zpos sm) (se - e))
                + signed ts (Z.shiftl (Zpos tm) (te - e))).
    apply Hn; [lia|].
    assert (Hsg : signed (man <? 0) (Z.abs man) = man).
    { unfold signed. destruct (Z.ltb_spec man 0); lia. }
    rewrite Hsg. cbn [Mpf.value].
    rewrite (dyadic_shift _ e se), (dyadic_shift _ e te) by (unfold e; lia).
    rewrite dyadic_plus. unfold man.
    rewrite !signed_shiftl by (unfold e; lia). reflexivity.
Qed.

Lemma from_float_exact (a : F64.float) :
  valid_binary F64.prec F64.emax a = true ->
  Mpf.is_finite (Mpf.from_float a) = is_number a /\
  (Mpf.value (Mpf.from_float a) == F64.to_Q a)%Q.
Proof.
  intros Hv.
  destruct a as [s|s| |s m e]; try (destruct s; split; reflexivity);
    [split; reflexivity|].
  destruct (valid_finite s m e Hv) as (Hd & He & _).
  cbn [Mpf.from_float].
  destruct (Mpf.strip_zeros m) as [m' t] eqn:Es.
  destruct (strip_zeros_spec m m' t Es) as (Ht & Hval & _).
  rewrite (normalize_small s m e 53 m' t Es Hd).
  split; [reflexivity|].
  cbn [Mpf.value F64.to_Q].
  apply (dyadic_eq _ _ _ _ e); try lia.
  replace (e + t - e) with t by lia. rewrite Z.sub_diag, Z.mul_1_r.
  now rewrite Hval, signed_mul.
Qed.

Lemma Qabs_diff_abs (x y : Q) : (Qabs (Qabs x - Qabs y) <= Qabs (x - y))%Q.
Proof.
  apply Qabs_Qle_condition. split; [|apply Qabs_triangle_reverse].
  pose proof (Qabs_triangle_reverse y x) as H.
  apply Qopp_le_compat in H. rewrite (Qabs_Qminus x y).
  setoid_replace (Qabs x - Qabs y)%Q with (- (Qabs y - Qabs x))%Q by ring.
  exact H.
Qed.

(** X21: the error the comparator measures is the true one up to one
    rounding.  At a working precision of at least 53 bits, for a binary64
    result [a] that is a number and a finite reference value [b] of at
    most [prec] bits, [abs(a - b)] is finite and differs from the exact
    [|a - b|] by at most [2^-prec] times that exact value (the statement
    multiplies both sides by [2^prec]); at the notebook's 3325 bits, a
    relative [2^-3325]. *)
Theorem abs_error_accuracy (prec : Z) (a : F64.float) (b : Mpf.mpf) :
  53 <= prec ->
  valid_binary F64.prec F64.emax a = true ->
  is_number a = true ->
  Mpf.is_finite b = true ->
  fits prec b = true ->
  Mpf.is_finite (abs_error prec a b) = true /\
  (Qabs (Mpf.value (abs_error prec a b) - Qabs (F64.to_Q a - Mpf.value b))
   * inject_Z (2 ^ prec)
   <= Qabs (F64.to_Q a - Mpf.value b))%Q.
Proof.
  intros Hprec Hv Hnum Hb _.
  destruct (from_float_exact a Hv) as [Hfa Hva]. rewrite Hnum in Hfa.
  assert (Hfn : Mpf.is_finite (Mpf.mpf_neg b) = true) by (destruct b; try discriminate; reflexivity).
  destruct (mpf_add_accuracy (Mpf.from_float a) (Mpf.mpf_neg b) prec ltac:(lia) Hfa Hfn)
    as [Hshape Hacc].
  rewrite mpf_neg_value, Hva in Hacc.
  unfold abs_error, Mpf.mpf_sub.
  set (r := Mpf.mpf_add (Mpf.from_float a) (Mpf.mpf_neg b) prec) in *.
  set (exact := (F64.to_Q a - Mpf.value b)%Q).
  assert (Hex : (F64.to_Q a + - Mpf.value b == exact)%Q) by reflexivity.
  rewrite Hex in Hacc.
  assert (Habs : Mpf.is_finite (Mpf.mpf_abs r prec) = true /\
                 (Mpf.value (Mpf.mpf_abs r prec) == Qabs (Mpf.value r))%Q).
  { destruct Hshape as [->|(sg & m' & e' & -> & Hd & Hfix)]; [split; reflexivity|].
    cbn [Mpf.mpf_abs].
    rewrite (normalize_small false m' e' prec m' 0 Hfix Hd), Z.add_0_r.
    split; [reflexivity|].
    cbn [Mpf.value]. rewrite dyadic_abs, abs_signed. reflexivity. }
  destruct Habs as [Hfin Hval]. split; [exact Hfin|].
  rewrite Hval.
  apply (Qle_trans _ (Qabs (Mpf.value r - exact) * inject_Z (2 ^ prec))); [|exact Hacc].
  apply Qmult_le_compat_r; [apply Qabs_diff_abs|].
  change 0%Q with (inject_Z 0). rewrite <- Zle_Qle.
  apply Z.pow_nonneg. lia.
Qed.

Lemma abs_error_accuracy_witness :
  Mpf.is_finite (abs_error 53 (S754_finite false 4503599627370497 (-52)) (Mpf.fin false 3 (-2)))
  = true /\
  (Qabs (Mpf.value (abs_error 53 (S754_finite false 4503599627370497 (-52)) (Mpf.fin false 3 (-2)))
         - Qabs (F64.to_Q (S754_finite false 4503599627370497 (-52))
                 - Mpf.value (Mpf.fin false 3 (-2))))
   * inject_Z (2 ^ 53)
   <= Qabs (F64.to_Q (S754_finite false 4503599627370497 (-52))
            - Mpf.value (Mpf.fin false 3 (-2))))%Q.
Proof.
  apply (abs_error_accuracy 53 (S754_finite false 4503599627370497 (-52)) (Mpf.fin false 3 (-2)));
    [lia | reflexivity | reflexivity | reflexivity | reflexivity].
Defined.

(** *** The quotient of the reference evaluator *)

Lemma dyadic_mul (a e1 b e2 : Z) : (dyadic a e1 * dyadic b e2 == dyadic (a * b) (e1 + e2))%Q.
Proof.
  set (f1 := Z.min e1 0). set (f2 := Z.min e2 0).
  rewrite (dyadic_scale a e1 f1), (dyadic_scale b e2 f2) by (unfold f1, f2; lia).
  rewrite (dyadic_scale (a * b) (e1 + e2) (f1 + f2)) by (unfold f1, f2; lia).
  pose proof (pow2_pos (- f1) ltac:(unfold f1; lia)) as H1.
  pose proof (pow2_pos (- f2) ltac:(unfold f2; lia)) as H2.
  pose proof (pow2_pos (- (f1 + f2)) ltac:(unfold f1, f2; lia)) as H3.
  unfold Qeq, Qmult. cbn [Qnum Qden].
  rewrite Pos2Z.inj_mul, !Z2Pos.id by assumption.
  replace (- (f1 + f2)) with (- f1 + - f2) by lia.
  replace (e1 + e2 - (f1 + f2)) with ((e1 - f1) + (e2 - f2)) by lia.
  rewrite !Z.pow_add_r by (unfold f1, f2; lia). ring.
Qed.

Lemma signed_xorb_mul (ss ts : bool) (x y : Z) :
  signed (xorb ss ts) x * signed ts y = signed ss (x * y).
Proof. destruct ss, ts; unfold signed; cbn [xorb]; ring. Qed.

Lemma div_eucl_div_mod (a b : Z) : Z.div_eucl a b = (a / b, a mod b).
Proof. unfold Z.div, Z.modulo. now destruct (Z.div_eucl a b). Qed.

(** The quotient with its sticky bit, rounded: in units of the exponent
    the quotient is computed at, [m' * 2^k] is what [normalize] returns
    and [N] is the numerator. *)
Lemma div_round_exact (sign : bool) (tm : positive) (quot e0 prec : Z) :
  1 <= prec -> 0 < quot ->
  exists (m' : positive) (e' : Z),
    Mpf.normalize sign quot e0 prec = Mpf.fin sign m' e' /\
    e0 <= e' /\
    Zpos (digits2_pos m') <= prec /\
    Mpf.strip_zeros m' = (m', 0) /\
    2 ^ prec * Z.abs (Zpos m' * 2 ^ (e' - e0) * Zpos tm - quot * Zpos tm) <= quot * Zpos tm.
Proof.
  intros Hprec Hq. destruct quot as [|p|p]; try lia.
  destruct (normalize_round sign p e0 prec Hprec) as (m' & e' & H1 & H2 & H3 & H4 & H5).
  exists m', e'. split; [exact H1|]. do 3 (split; [assumption|]).
  rewrite <- Z.mul_sub_distr_r, Z.abs_mul, (Z.abs_eq (Zpos tm)) by lia.
  rewrite Z.mul_assoc. apply Z.mul_le_mono_nonneg_r; [lia | exact H5].
Qed.

Lemma div_round_sticky (sign : bool) (tm : positive) (quot rem e0 prec : Z) :
  1 <= prec -> 2 ^ (prec + 4) <= quot -> 0 < rem < Zpos tm ->
  exists (m' : positive) (e' : Z),
    Mpf.normalize sign (2 * quot + 1) e0 prec = Mpf.fin sign m' e' /\
    e0 <= e' /\
    Zpos (digits2_pos m') <= prec /\
    Mpf.strip_zeros m' = (m', 0) /\
    2 ^ prec * Z.abs (Zpos m' * 2 ^ (e' - e0) * Zpos tm - 2 * (quot * Zpos tm + rem))
    <= 2 * (quot * Zpos tm + rem).
Proof.
  intros Hprec Hq Hrem.
  pose proof (pow2_pos (prec + 4) ltac:(lia)) as Hp4.
  destruct (2 * quot + 1) as [|p|p] eqn:Eman; try lia.
  destruct (normalize_round_ulp sign p e0 prec Hprec)
    as (m' & e' & c & H1 & H2 & H3 & H4 & H5 & H6 & _).
  exists m', e'. split; [exact H1|]. do 3 (split; [assumption|]).
  cbv zeta in H5, H6. rewrite H5.
  pose proof (digits2_pos_bounds p) as [Hlo Hhi].
  set (bc := Zpos (digits2_pos p)) in *.
  assert (Hbc : prec + 6 <= bc).
  { destruct (Z_le_gt_dec (prec + 6) bc) as [|Hlt]; [assumption|exfalso].
    pose proof (Z.pow_le_mono_r 2 bc (prec + 5) ltac:(lia) ltac:(lia)) as Hpw.
    replace (prec + 5) with (1 + (prec + 4)) in Hpw by lia.
    rewrite Z.pow_add_r in Hpw by lia. lia. }
  rewrite Z.max_r in * by lia.
  set (n := bc - prec) in *.
  set (P := 2 ^ (n - 2)).
  assert (HP : 0 < P) by (apply pow2_pos; unfold n; lia).
  assert (HnP : 2 ^ n = 4 * P).
  { unfold P. replace n with (2 + (n - 2)) at 1 by lia.
    now rewrite Z.pow_add_r by (unfold n; lia). }
  assert (Hpw : 2 ^ (bc - 1) = 2 ^ prec * (2 * P)).
  { unfold P. replace (bc - 1) with (prec + (1 + (n - 2))) by (unfold n; lia).
    rewrite !Z.pow_add_r by (unfold n; lia). reflexivity. }
  rewrite HnP in *. rewrite Hpw in Hlo.
  pose proof (pow2_pos prec ltac:(lia)) as HQ.
  set (Q := 2 ^ prec) in *.
  set (T := Zpos tm) in *.
  assert (HT : 0 < T) by (unfold T; lia).
  (* the distance to the rounded mantissa is odd, hence below half a unit *)
  set (w := c * (2 * P) - quot).
  assert (Hw : c * (4 * P) - Zpos p = 2 * w - 1) by (unfold w; lia).
  rewrite Hw in H6.
  assert (HwP : - P < w <= P) by lia.
  assert (H2q : Q * (2 * P) <= 2 * quot) by lia.
  replace (c * (4 * P) * T - 2 * (quot * T + rem))
    with ((2 * w - 1) * T - (2 * rem - T)) by (unfold w; nia).
  clearbody Q T w P. clear Hw H6 Hpw HnP H5 Hlo Hhi.
  assert (Habs : Z.abs ((2 * w - 1) * T - (2 * rem - T)) < 2 * P * T) by nia.
  assert (Hbig : Q * (2 * P * T) <= 2 * (quot * T + rem)) by nia.
  nia.
Qed.

(** The quotient of two regular numbers is their exact quotient rounded
    once, to nearest. *)
Lemma mpf_div_round (ss ts : bool) (sm tm : positive) (se te prec : Z) :
  1 <= prec ->
  exists (m' : positive) (e' E : Z),
    Mpf.mpf_div (Mpf.fin ss sm se) (Mpf.fin ts tm te) prec
    = Ok (Mpf.fin (xorb ss ts) m' e') /\
    Zpos (digits2_pos m') <= prec /\
    Mpf.strip_zeros m' = (m', 0) /\
    0 <= E /\ se - E <= e' + te /\
    2 ^ prec * Z.abs (Zpos m' * 2 ^ (e' + te - (se - E)) * Zpos tm - Zpos sm * 2 ^ E)
    <= Zpos sm * 2 ^ E.
Proof.
  intros Hprec. cbn [Mpf.mpf_div]. cbv zeta.
  destruct (Pos.eqb_spec tm 1) as [->|Htm].
  - destruct (div_round_exact (xorb ss ts) 1 (Zpos sm) (se - te) prec Hprec ltac:(lia))
      as (m' & e' & H1 & H2 & H3 & H4 & H5).
    exists m', e', 0. rewrite H1. split; [reflexivity|]. do 2 (split; [assumption|]).
    split; [lia|]. split; [lia|].
    replace (e' + te - (se - 0)) with (e' - (se - te)) by lia.
    rewrite Z.pow_0_r. exact H5.
  - unfold Mpf.bitcount. cbn [Zdigits2].
    set (extra := Z.max 5 (prec - Zpos (digits2_pos sm) + Zpos (digits2_pos tm) + 5)).
    assert (Hextra : 5 <= extra) by (unfold extra; lia).
    rewrite Z.shiftl_mul_pow2 by lia.
    rewrite div_eucl_div_mod.
    set (N := Zpos sm * 2 ^ extra).
    pose proof (Z.div_mod N (Zpos tm) ltac:(lia)) as Hdm.
    pose proof (Z.mod_pos_bound N (Zpos tm) ltac:(lia)) as Hrem.
    set (quot := N / Zpos tm) in *. set (rem := N mod Zpos tm) in *.
    assert (Hquot : 2 ^ (prec + 4) <= quot).
    { unfold quot. apply Z.div_le_lower_bound; [lia|].
      pose proof (digits2_pos_bounds sm) as [Hslo _].
      pose proof (digits2_pos_bounds tm) as [_ Hthi].
      set (bs := Zpos (digits2_pos sm)) in *. set (bt := Zpos (digits2_pos tm)) in *.
      assert (Hbs : 1 <= bs) by (unfold bs; lia).
      assert (Hbt : 1 <= bt) by (unfold bt; lia).
      assert (Hpow : 2 ^ bt * 2 ^ (prec + 4) <= 2 ^ (bs - 1) * 2 ^ extra).
      { rewrite <- !Z.pow_add_r by lia. apply Z.pow_le_mono_r; unfold extra; lia. }
      pose proof (pow2_pos (prec + 4) ltac:(lia)).
      pose proof (pow2_pos extra ltac:(lia)).
      unfold N. nia. }
    pose proof (pow2_pos (prec + 4) ltac:(lia)) as Hp4.
    destruct (Z.eqb_spec rem 0) as [Hr0|Hr0].
    + destruct (div_round_exact (xorb ss ts) tm quot (se - te - extra) prec Hprec ltac:(lia))
        as (m' & e' & H1 & H2 & H3 & H4 & H5).
      exists m', e', extra. rewrite H1. split; [reflexivity|]. do 2 (split; [assumption|]).
      split; [lia|]. split; [lia|].
      replace (e' + te - (se - extra)) with (e' - (se - te - extra)) by lia.
      fold N. replace N with (quot * Zpos tm) by lia. exact H5.
    + rewrite Z.shiftl_mul_pow2 by lia. change (2 ^ 1) with 2.
      replace (quot * 2 + 1) with (2 * quot + 1) by lia.
      destruct (div_round_sticky (xorb ss ts) tm quot rem (se - te - (extra + 1)) prec
                  Hprec Hquot ltac:(lia))
        as (m' & e' & H1 & H2 & H3 & H4 & H5).
      exists m', e', (extra + 1). rewrite H1. split; [reflexivity|].
      do 2 (split; [assumption|]).
      split; [lia|]. split; [lia|].
      replace (e' + te - (se - (extra + 1))) with (e' - (se - te - (extra + 1))) by lia.
      rewrite (Z.pow_add_r 2 extra 1) by lia. change (2 ^ 1) with 2.
      replace (Zpos sm * (2 ^ extra * 2)) with (2 * (quot * Zpos tm + rem))
        by (fold N in Hdm |- *; unfold N in *; lia).
      exact H5.
Qed.

Lemma mpf_div_accuracy (s t : Mpf.mpf) (prec : Z) :
  1 <= prec ->
  Mpf.is_finite s = true ->
  (exists ts tm te, t = Mpf.fin ts tm te) ->
  exists q,
    Mpf.mpf_div s t prec = Ok q /\
    Mpf.is_finite q = true /\
    fits prec q = true /\
    (Qabs (Mpf.value q * Mpf.value t - Mpf.value s) * inject_Z (2 ^ prec)
     <= Qabs (Mpf.value s))%Q.
Proof.
  intros Hprec Hs (ts & tm & te & ->).
  destruct s as [| | | |ss sm se]; try discriminate.
  - exists Mpf.fzero. split; [reflexivity|]. split; [reflexivity|]. split; [reflexivity|].
    cbn [Mpf.value]. rewrite Qmult_0_l. apply Qle_refl.
  - destruct (mpf_div_round ss ts sm tm se te prec Hprec)
      as (m' & e' & E & Hq & Hd & _ & HE & He & Hb).
    exists (Mpf.fin (xorb ss ts) m' e'). split; [exact Hq|].
    split; [reflexivity|]. split.
    { unfold fits, Mpf.bitcount. cbn [Zdigits2]. now apply Z.leb_le. }
    cbn [Mpf.value].
    rewrite dyadic_mul, signed_xorb_mul.
    rewrite (dyadic_shift (signed ss (Zpos m' * Zpos tm)) (se - E) (e' + te) He).
    rewrite (dyadic_shift (signed ss (Zpos sm)) (se - E) se ltac:(lia)).
    rewrite dyadic_minus, dyadic_abs, dyadic_times, dyadic_abs.
    apply dyadic_le.
    rewrite <- !signed_mul, signed_minus, !abs_signed.
    replace (se - (se - E)) with E by lia.
    rewrite (Z.abs_eq (Zpos sm * 2 ^ E)) by (pose proof (pow2_pos E HE); nia).
    replace (Zpos m' * Zpos tm * 2 ^ (e' + te - (se - E)))
      with (Zpos m' * 2 ^ (e' + te - (se - E)) * Zpos tm) by ring.
    rewrite Z.mul_comm. exact Hb.
Qed.

Lemma mp_mpf_regular (prec : Z) (s : bool) (m : positive) (e : Z) :
  valid_binary F64.prec F64.emax (S754_finite s m e) = true ->
  53 <= prec ->
  exists m' e',
    mp_mpf prec (S754_finite s m e) = Mpf.fin s m' e' /\
    (Mpf.value (Mpf.fin s m' e') == F64.to_Q (S754_finite s m e))%Q.
Proof.
  intros Hv Hprec. unfold mp_mpf.
  destruct (valid_finite s m e Hv) as (Hd & He & _).
  cbn [Mpf.from_float].
  destruct (Mpf.strip_zeros m) as [m' t] eqn:Es.
  destruct (strip_zeros_spec m m' t Es) as (Ht & Hval & Hdig & _ & Hfix).
  rewrite (normalize_small s m e 53 m' t Es Hd). cbn [Mpf.mpf_pos].
  rewrite (normalize_small s m' (e + t) prec m' 0 Hfix)
    by (pose proof (Pos2Z.is_pos (digits2_pos m)); lia).
  exists m', (e + t + 0). split; [reflexivity|].
  cbn [Mpf.value F64.to_Q].
  apply (dyadic_eq _ _ _ _ e); try lia.
  replace (e + t + 0 - e) with t by lia. rewrite Z.sub_diag, Z.mul_1_r.
  now rewrite Hval, signed_mul.
Qed.

(** X22: every reference value is a correctly rounded quotient.  At a
    working precision of at least 53 bits, for a sample [z] that is a
    number and whatever finite value [mp.sin] returns at it, the entry
    [q] of [ref] is finite, has at most [prec] bits, and [q * z] differs
    from [mp.sin(z)] by at most [2^-prec] times [|mp.sin(z)|]: [q] is
    [mp.sin(z) / z] with a relative error of at most [2^-prec] (the
    statement multiplies both sides by [2^prec]). *)
Theorem ref_accuracy (L : libm) (prec : Z) (xs : list F64.float) (rf : list Mpf.mpf)
  (k : nat) (z : F64.float) (q : Mpf.mpf) :
  53 <= prec ->
  ref L prec xs = Ok rf ->
  nth_error xs k = Some z ->
  nth_error rf k = Some q ->
  valid_binary F64.prec F64.emax z = true ->
  is_number z = true ->
  Mpf.is_finite (mp_sin L prec (mp_mpf prec z)) = true ->
  Mpf.is_finite q = true /\
  fits prec q = true /\
  (Qabs (Mpf.value q * F64.to_Q z - Mpf.value (mp_sin L prec (mp_mpf prec z)))
   * inject_Z (2 ^ prec)
   <= Qabs (Mpf.value (mp_sin L prec (mp_mpf prec z))))%Q.
Proof.
  intros Hprec Href Hz Hq Hv Hnum Hsin.
  unfold ref in Href.
  destruct (rmap_nth_error _ _ _ Href k z Hz) as [q' [Hq' Hdiv]].
  assert (q' = q) by congruence. subst q'. cbv zeta in Hdiv.
  destruct z as [sz|sz| |sz mz ez]; try discriminate.
  - rewrite (mp_mpf_zero prec (S754_zero sz)) in Hdiv by (now destruct sz).
    rewrite mpf_div_by_zero in Hdiv. discriminate.
  - destruct (mp_mpf_regular prec sz mz ez Hv Hprec) as (m' & e' & Hx & Hval).
    rewrite Hx in *.
    destruct (mpf_div_accuracy (mp_sin L prec (Mpf.fin sz m' e')) (Mpf.fin sz m' e') prec
                ltac:(lia) Hsin ltac:(eauto))
      as (q0 & Hq0 & Hfin & Hfits & Hacc).
    assert (q0 = q) by congruence. subst q0.
    split; [exact Hfin|]. split; [exact Hfits|].
    now rewrite <- Hval.
Qed.

Lemma ref_accuracy_witness :
  Mpf.is_finite (Mpf.fin false 1 0) = true /\
  fits 53 (Mpf.fin false 1 0) = true /\
  (Qabs (Mpf.value (Mpf.fin false 1 0) * F64.to_Q (S754_finite false 6755399441055744 (-52))
         - Mpf.value (mp_sin stand_in 53 (mp_mpf 53 (S754_finite false 6755399441055744 (-52)))))
   * inject_Z (2 ^ 53)
   <= Qabs (Mpf.value (mp_sin stand_in 53 (mp_mpf 53 (S754_finite false 6755399441055744 (-52))))))%Q.
Proof.
  apply (ref_accuracy stand_in 53 [S754_finite false 6755399441055744 (-52)]
           [Mpf.fin false 1 0] 0);
    [lia | vm_compute; reflexivity | reflexivity | reflexivity
     | reflexivity | reflexivity | vm_compute; reflexivity].
Defined.
